(** * devflow-cli: version comparison, dependency report, template installer

    A shallow embedding of the parts of [src/ide.ts], [src/deps.ts] and
    [src/init.ts] that decide the behaviour of the command-line tool, with
    the properties of its specification proved (or refuted) against them.

    Conventions.
    - A JavaScript string is a [string]; its characters stand for code
      units below 256.  The only code units above 255 that the modelled
      built-ins treat specially are Unicode space separators (trimmed like
      the white space modelled here) and capital letters (none of which
      has a lower-case form that begins with [y]).
    - A JavaScript number is a [number]: NaN, an infinity, or a finite
      IEEE-754 binary64 value kept as an exact rational.  [-0] and [+0] are
      one value, as they are for every comparison operator.
    - Asynchronous code is awaited sequentially in the source; it is
      modelled as sequential state passing. *)

From Stdlib Require Import Bool Arith ZArith QArith Lia List Ascii String DecimalString.
Import ListNotations.

Local Open Scope string_scope.
Local Open Scope Z_scope.

(** ** JavaScript strings *)

Module JsString.

Definition chars (s : string) : list ascii := list_ascii_of_string s.
Definition of_chars (l : list ascii) : string := string_of_list_ascii l.

Definition codeUnit (c : ascii) : Z := Z.of_N (N_of_ascii c).

(** WhiteSpace and LineTerminator code units (below 256). *)
Definition isWhiteSpace (c : ascii) : bool :=
  let n := codeUnit c in
  ((9 <=? n) && (n <=? 13)) || (n =? 32) || (n =? 160).

Definition isDigit (c : ascii) : bool :=
  let n := codeUnit c in (48 <=? n) && (n <=? 57).

Fixpoint dropWhile (f : ascii -> bool) (l : list ascii) : list ascii :=
  match l with
  | [] => []
  | c :: l' => if f c then dropWhile f l' else l
  end.

Fixpoint takeWhile (f : ascii -> bool) (l : list ascii) : list ascii :=
  match l with
  | [] => []
  | c :: l' => if f c then c :: takeWhile f l' else []
  end.

(** [String.prototype.trim]. *)
Definition trimChars (l : list ascii) : list ascii :=
  rev (dropWhile isWhiteSpace (rev (dropWhile isWhiteSpace l))).

Definition trim (s : string) : string := of_chars (trimChars (chars s)).

(** [String.prototype.toLowerCase] on code units below 256: the ASCII
    capitals and the Latin-1 capitals (all of 192..222 but the
    multiplication sign 215) move up by 32. *)
Definition lowerChar (c : ascii) : ascii :=
  let n := codeUnit c in
  if ((65 <=? n) && (n <=? 90))
     || ((192 <=? n) && (n <=? 222) && negb (n =? 215))
  then ascii_of_N (Z.to_N (n + 32)) else c.

Fixpoint toLowerCase (s : string) : string :=
  match s with
  | EmptyString => EmptyString
  | String c s' => String (lowerChar c) (toLowerCase s')
  end.

(** [s.startsWith(p)]. *)
Definition startsWith (s p : string) : bool := String.prefix p s.

Fixpoint isPrefixChars (p l : list ascii) : bool :=
  match p, l with
  | [], _ => true
  | _ :: _, [] => false
  | a :: p', b :: l' => Ascii.eqb a b && isPrefixChars p' l'
  end.

(** Index of the first occurrence of [p] in [l], if any. *)
Fixpoint indexOfChars (p l : list ascii) : option nat :=
  if isPrefixChars p l then Some 0%nat
  else match l with
       | [] => None
       | _ :: l' => option_map S (indexOfChars p l')
       end.

(** [s.includes(p)]. *)
Definition includes (s p : string) : bool :=
  match indexOfChars (chars p) (chars s) with Some _ => true | None => false end.

(** [s.split(sep)] for a one-character separator: never empty, and an
    empty string yields one empty segment. *)
Fixpoint split (sep : ascii) (s : string) : list string :=
  match s with
  | EmptyString => [EmptyString]
  | String c s' =>
      if Ascii.eqb c sep then EmptyString :: split sep s'
      else match split sep s' with
           | h :: t => String c h :: t
           | [] => [String c EmptyString]
           end
  end.

(** [s.substring(0, n)]. *)
Definition substring0 (n : nat) (s : string) : string := String.substring 0 n s.

(** [s.replace(p, empty)] with a string pattern [p]: only the first
    occurrence is removed. *)
Definition removeFirst (p s : string) : string :=
  match indexOfChars (chars p) (chars s) with
  | None => s
  | Some i =>
      of_chars (firstn i (chars s) ++ skipn (i + List.length (chars p)) (chars s))
  end.

(** Truthiness of [string | null | undefined]: only a non-empty string
    is truthy. *)
Definition truthy (v : option string) : option string :=
  match v with
  | Some EmptyString => None
  | _ => v
  end.

End JsString.

(** ** JavaScript numbers *)

Inductive number : Type :=
| NaN
| PosInf
| NegInf
| Fin (q : Q).

Module JsNumber.

Definition zero : number := Fin 0.

Definition ofZ (z : Z) : number := Fin (inject_Z z).

Definition Qltb (x y : Q) : bool :=
  Qnum x * Zpos (Qden y) <? Qnum y * Zpos (Qden x).

(** [a < b] on numbers: false whenever an operand is NaN. *)
Definition lt (a b : number) : bool :=
  match a, b with
  | NaN, _ | _, NaN => false
  | _, NegInf => false
  | NegInf, _ => true
  | PosInf, _ => false
  | Fin _, PosInf => true
  | Fin x, Fin y => Qltb x y
  end.

(** [a > b] is [b < a] with the operands swapped. *)
Definition gt (a b : number) : bool := lt b a.

(** [a >= b]: false on NaN, otherwise not [a < b]. *)
Definition ge (a b : number) : bool :=
  match a, b with
  | NaN, _ | _, NaN => false
  | _, _ => negb (lt a b)
  end.

(** Round the quotient [p / q] ([0 <= p], [0 < q]) to an integer, ties to
    the even neighbour. *)
Definition roundHalfEven (p q : Z) : Z :=
  let d := p / q in
  let r := p mod q in
  match 2 * r ?= q with
  | Lt => d
  | Gt => d + 1
  | Eq => if Z.even d then d else d + 1
  end.

(** The exponent [e] with [2^e <= p / q < 2^(e+1)], for [0 < p], [0 < q]. *)
Definition floorLog2 (p q : Z) : Z :=
  let e0 := Z.log2 p - Z.log2 q in
  let ge_pow := if 0 <=? e0 then q * 2 ^ e0 <=? p else q <=? p * 2 ^ (- e0) in
  if ge_pow then e0 else e0 - 1.

(** [m * 2^u] as a rational in lowest terms. *)
Definition scale2 (m u : Z) : Q :=
  if 0 <=? u then inject_Z (m * 2 ^ u)
  else Qred (Qmake m (Z.to_pos (2 ^ (- u)))).

(** The binary64 value nearest to the rational [p / q] (round to nearest,
    ties to even; 53 significant bits; subnormals below [2^-1022];
    overflow to infinity). *)
Definition roundToDouble (p q : Z) : number :=
  if p =? 0 then zero
  else
    let e := Z.max (floorLog2 p q) (-1022) in
    let u := e - 52 in
    let m := if 0 <=? u then roundHalfEven p (q * 2 ^ u)
             else roundHalfEven (p * 2 ^ (- u)) q in
    if (1023 <? e) || ((e =? 1023) && (m =? 2 ^ 53)) then PosInf
    else Fin (scale2 m u).

Definition neg (n : number) : number :=
  match n with
  | NaN => NaN
  | PosInf => NegInf
  | NegInf => PosInf
  | Fin q => Fin (Qopp q)
  end.

End JsNumber.

(** ** [Number(string)]: the StringToNumber conversion *)

Module StringToNumber.
Import JsString JsNumber.

Definition digitVal (c : ascii) : Z := codeUnit c - 48.

(** Value of a hexadecimal digit, if [c] is one. *)
Definition hexVal (c : ascii) : option Z :=
  let n := codeUnit c in
  if (48 <=? n) && (n <=? 57) then Some (n - 48)
  else if (97 <=? n) && (n <=? 102) then Some (n - 87)
  else if (65 <=? n) && (n <=? 70) then Some (n - 55)
  else None.

(** Digits of [l] in base [base], most significant first; [None] when a
    character is not a digit of that base. *)
Fixpoint digitsIn (base : Z) (l : list ascii) : option (list Z) :=
  match l with
  | [] => Some []
  | c :: l' =>
      match hexVal c, digitsIn base l' with
      | Some d, Some ds => if d <? base then Some (d :: ds) else None
      | _, _ => None
      end
  end.

Definition valueIn (base : Z) (ds : list Z) : Z :=
  fold_left (fun acc d => acc * base + d) ds 0.

(** NonDecimalIntegerLiteral: [0x], [0o], [0b] (either case) followed by
    at least one digit of the base; no sign. [None] when [l] does not
    start with such a prefix. *)
Definition radixOf (c : ascii) : option Z :=
  let n := codeUnit c in
  if (n =? 120) || (n =? 88) then Some 16
  else if (n =? 111) || (n =? 79) then Some 8
  else if (n =? 98) || (n =? 66) then Some 2
  else None.

Definition nonDecimal (l : list ascii) : option number :=
  match l with
  | z :: p :: ds =>
      if codeUnit z =? 48 then
        match radixOf p with
        | Some base =>
            match ds, digitsIn base ds with
            | _ :: _, Some vs => Some (roundToDouble (valueIn base vs) 1)
            | _, _ => Some NaN
            end
        | None => None
        end
      else None
  | _ => None
  end.

Definition decimalValue (l : list ascii) : Z := valueIn 10 (map digitVal l).

(** ExponentPart after the indicator: optional sign, at least one digit,
    nothing behind. *)
Definition exponent (l : list ascii) : option Z :=
  let '(sign, ds) :=
    match l with
    | c :: l' =>
        if codeUnit c =? 43 then (1, l')
        else if codeUnit c =? 45 then (-1, l') else (1, l)
    | [] => (1, l)
    end in
  match ds with
  | [] => None
  | _ :: _ => if forallb isDigit ds then Some (sign * decimalValue ds) else None
  end.

(** StrUnsignedDecimalLiteral other than [Infinity]: mantissa digits and
    the power of ten they are scaled by. *)
Definition unsignedDecimal (l : list ascii) : option (Z * Z) :=
  let ip := takeWhile isDigit l in
  let r1 := dropWhile isDigit l in
  let '(fp, r2) :=
    match r1 with
    | c :: r =>
        if codeUnit c =? 46 then (takeWhile isDigit r, dropWhile isDigit r)
        else ([], r1)
    | [] => ([], r1)
    end in
  match (ip ++ fp)%list with
  | [] => None
  | _ :: _ =>
      let m := decimalValue (ip ++ fp)%list in
      let k := - Z.of_nat (List.length fp) in
      match r2 with
      | [] => Some (m, k)
      | c :: r3 =>
          if (codeUnit c =? 101) || (codeUnit c =? 69) then
            match exponent r3 with
            | Some e => Some (m, e + k)
            | None => None
            end
          else None
      end
  end.

Definition unsignedLiteral (l : list ascii) : number :=
  if String.eqb (of_chars l) "Infinity" then PosInf
  else match unsignedDecimal l with
       | Some (m, k) =>
           if 0 <=? k then roundToDouble (m * 10 ^ k) 1
           else roundToDouble m (10 ^ (- k))
       | None => NaN
       end.

(** [Number(s)] for a string [s]. *)
Definition Number (s : string) : number :=
  let l := trimChars (chars s) in
  match l with
  | [] => zero
  | c :: l' =>
      match nonDecimal l with
      | Some n => n
      | None =>
          if codeUnit c =? 43 then unsignedLiteral l'
          else if codeUnit c =? 45 then neg (unsignedLiteral l')
          else unsignedLiteral l
      end
  end.

End StringToNumber.

(** ** ide.ts: the version comparator *)

Module Ide.
Import JsString JsNumber StringToNumber.

(** [parts[i] ?? 0]. *)
Definition partAt (parts : list number) (i : nat) : number :=
  match nth_error parts i with
  | Some v => v
  | None => zero
  end.

(** The [for] loop of [isNewerVersion], from index [i] with [n]
    iterations left. *)
Fixpoint compareFrom (remoteParts localParts : list number) (i n : nat) : bool :=
  match n with
  | O => false
  | S n' =>
      let remotePart := partAt remoteParts i in
      let localPart := partAt localParts i in
      if gt remotePart localPart then true
      else if lt remotePart localPart then false
      else compareFrom remoteParts localParts (S i) n'
  end.

(** [v.split(".").map(Number)]; [Number] ignores the index and the array
    that [map] passes along. *)
Definition versionParts (v : string) : list number :=
  map Number (split "." v).

Definition isNewerVersion (remote local : string) : bool :=
  let remoteParts := versionParts remote in
  let localParts := versionParts local in
  compareFrom remoteParts localParts 0
    (Nat.max (List.length remoteParts) (List.length localParts)).

End Ide.

(** ** The file system *)

(** A path is the list of its components below the root. *)
Definition path : Type := list string.

(** A node of the file-system tree: a regular file with its content, or a
    directory with its entries in [readdir] order.  Symbolic links and
    permissions are not modelled. *)
#[warnings="-register-all"]
Inductive node : Type :=
| File (content : string)
| Dir (entries : list (string * node)).

Module Fs.

Fixpoint lookupEntry (name : string) (es : list (string * node)) : option node :=
  match es with
  | [] => None
  | (k, v) :: es' => if String.eqb k name then Some v else lookupEntry name es'
  end.

(** Replace the entry [name], or add it behind the others. *)
Fixpoint setEntry (name : string) (v : node) (es : list (string * node))
  : list (string * node) :=
  match es with
  | [] => [(name, v)]
  | (k, w) :: es' =>
      if String.eqb k name then (k, v) :: es' else (k, w) :: setEntry name v es'
  end.

Fixpoint removeEntry (name : string) (es : list (string * node))
  : list (string * node) :=
  match es with
  | [] => []
  | (k, w) :: es' =>
      if String.eqb k name then es' else (k, w) :: removeEntry name es'
  end.

Fixpoint lookup (p : path) (n : node) : option node :=
  match p with
  | [] => Some n
  | x :: p' =>
      match n with
      | Dir es =>
          match lookupEntry x es with
          | Some c => lookup p' c
          | None => None
          end
      | File _ => None
      end
  end.

Definition exists_ (p : path) (n : node) : bool :=
  match lookup p n with Some _ => true | None => false end.

Definition childOr (x : string) (es : list (string * node)) : node :=
  match lookupEntry x es with Some c => c | None => Dir [] end.

(** Put [v] at [p], creating the missing directories above it; [None]
    when a regular file is in the way. *)
Fixpoint place (p : path) (v : node) (n : node) : option node :=
  match p with
  | [] => Some v
  | x :: p' =>
      match n with
      | File _ => None
      | Dir es =>
          match place p' v (childOr x es) with
          | Some c' => Some (Dir (setEntry x c' es))
          | None => None
          end
      end
  end.

(** [mkdir -p]: [None] when a regular file is on the path. *)
Fixpoint mkdirp (p : path) (n : node) : option node :=
  match n with
  | File _ => None
  | Dir es =>
      match p with
      | [] => Some n
      | x :: p' =>
          match mkdirp p' (childOr x es) with
          | Some c' => Some (Dir (setEntry x c' es))
          | None => None
          end
      end
  end.

(** [rm -rf]: the node at [p] and all below it go; nothing happens when
    there is none (or for the root). *)
Fixpoint remove (p : path) (n : node) : node :=
  match p, n with
  | [], _ => n
  | _, File _ => n
  | [x], Dir es => Dir (removeEntry x es)
  | x :: p', Dir es =>
      match lookupEntry x es with
      | Some c => Dir (setEntry x (remove p' c) es)
      | None => n
      end
  end.

Fixpoint height (n : node) : nat :=
  match n with
  | File _ => O
  | Dir es =>
      S ((fix go (es : list (string * node)) : nat :=
            match es with
            | [] => O
            | (_, c) :: es' => Nat.max (height c) (go es')
            end) es)
  end.

Definition isDirectory (n : node) : bool :=
  match n with Dir _ => true | File _ => false end.

(** Components of a slash-separated relative name. *)
Definition segments (s : string) : path :=
  filter (fun x => negb (String.eqb x EmptyString || String.eqb x "."))
         (JsString.split "/" s).

(** [path.join(p, s)] for a name [s] without [..]. *)
Definition join (p : path) (s : string) : path := (p ++ segments s)%list.

(** Resolution of [.] and [..] components, left to right. *)
Fixpoint normalize (acc : path) (l : list string) : path :=
  match l with
  | [] => acc
  | x :: l' =>
      if String.eqb x EmptyString || String.eqb x "." then normalize acc l'
      else if String.eqb x ".." then normalize (removelast acc) l'
      else normalize (acc ++ [x])%list l'
  end.

(** POSIX [path.resolve(cwd, folder)]. *)
Definition resolve (cwd : path) (folder : string) : path :=
  if JsString.startsWith folder "/"
  then normalize [] (JsString.split "/" folder)
  else normalize cwd (JsString.split "/" folder).

(** The path as the string the program passes around. *)
Definition render (p : path) : string :=
  match p with
  | [] => "/"
  | _ => String.concat EmptyString (map (fun x => "/" ++ x) p)
  end.

End Fs.

(** ** Effects: file system, trace of calls, exceptions and process exit *)

Inductive level : Type := Info | Success | Error | Warn.

(** What the program asks of its collaborators, in call order. *)
Inductive event : Type :=
| Out (l : level) (msg : string)
| StdoutWrite (s : string)
| SpinnerStart (msg : string)
| SpinnerStop
| Exec (cmd : string)
| Ask (prompt : string)
| Fetch (url : string)
| Access (p : path)
| Mkdir (p : path)
| Rm (p : path)
| Cp (src dst : path)
| WriteFile (p : path) (content : string)
| ReadFile (p : path)
| Readdir (p : path).

(** A thrown value: the [code] and [message] of an [Error]. *)
Record error : Type := mkError { code : string; message : string }.

Record state : Type := mkState { fs : node; trace : list event }.

(** How a computation ends: with a value, with a thrown error, or with the
    whole process gone by [process.exit]. *)
Inductive result (A : Type) : Type :=
| Ret (a : A)
| Throw (e : error)
| Exit (status : Z).

Arguments Ret {A} a.
Arguments Throw {A} e.
Arguments Exit {A} status.

Definition M (A : Type) : Type := state -> result A * state.

Module Effects.

Definition ret {A} (a : A) : M A := fun s => (Ret a, s).

Definition bind {A B} (m : M A) (k : A -> M B) : M B :=
  fun s =>
    match m s with
    | (Ret a, s') => k a s'
    | (Throw e, s') => (Throw e, s')
    | (Exit c, s') => (Exit c, s')
    end.

Definition throw {A} (e : error) : M A := fun s => (Throw e, s).

(** [process.exit(c)]: the process ends at once; no handler and no
    [finally] block of the running code is entered any more. *)
Definition processExit {A} (c : Z) : M A := fun s => (Exit c, s).

Definition emit (e : event) : M unit :=
  fun s => (Ret tt, mkState (fs s) (trace s ++ [e])).

Definition getFs : M node := fun s => (Ret (fs s), s).

Definition putFs (n : node) : M unit :=
  fun s => (Ret tt, mkState n (trace s)).

(** [try { m } catch { h }]. *)
Definition tryCatch {A} (m : M A) (h : error -> M A) : M A :=
  fun s =>
    match m s with
    | (Throw e, s') => h e s'
    | r => r
    end.

(** [try { m } finally { f }]: [f] runs after a normal or an exceptional
    end of [m] and its own abrupt end wins; it does not run when [m]
    ended the process. *)
Definition tryFinally {A} (m : M A) (f : M unit) : M A :=
  fun s =>
    match m s with
    | (Exit c, s') => (Exit c, s')
    | (r, s') =>
        match f s' with
        | (Ret _, s'') => (r, s'')
        | (Throw e, s'') => (Throw e, s'')
        | (Exit c, s'') => (Exit c, s'')
        end
    end.

Definition run {A} (m : M A) (root : node) : result A * state :=
  m (mkState root []).

End Effects.

Declare Scope eff_scope.
Delimit Scope eff_scope with eff.
Notation "x <- m ;; k" := (Effects.bind m (fun x => k))
  (at level 61, m at next level, right associativity) : eff_scope.
Notation "m ;; k" := (Effects.bind m (fun _ => k))
  (at level 61, right associativity) : eff_scope.

(** ** node:fs/promises and the output helpers *)

Module Node.
Import Effects.
Local Open Scope eff_scope.

Definition fsError (c : string) (p : path) : error :=
  mkError c (c ++ ": " ++ Fs.render p).

Definition access (p : path) : M unit :=
  emit (Access p) ;;
  root <- getFs ;;
  if Fs.exists_ p root then ret tt else throw (fsError "ENOENT" p).

(** [mkdir(p, { recursive: true })]. *)
Definition mkdir (p : path) : M unit :=
  emit (Mkdir p) ;;
  root <- getFs ;;
  match Fs.mkdirp p root with
  | Some root' => putFs root'
  | None => throw (fsError "EEXIST" p)
  end.

(** [rm(p, { recursive: true, force: true })]. *)
Definition rm (p : path) : M unit :=
  emit (Rm p) ;;
  root <- getFs ;;
  putFs (Fs.remove p root).

Definition readFile (p : path) : M string :=
  emit (ReadFile p) ;;
  root <- getFs ;;
  match Fs.lookup p root with
  | Some (File c) => ret c
  | Some (Dir _) => throw (fsError "EISDIR" p)
  | None => throw (fsError "ENOENT" p)
  end.

(** [writeFile(p, content)]: the directory above [p] has to exist. *)
Definition writeFile (p : path) (content : string) : M unit :=
  emit (WriteFile p content) ;;
  root <- getFs ;;
  match Fs.lookup p root, Fs.lookup (removelast p) root with
  | Some (Dir _), _ => throw (fsError "EISDIR" p)
  | _, Some (Dir _) =>
      match Fs.place p (File content) root with
      | Some root' => putFs root'
      | None => throw (fsError "ENOTDIR" p)
      end
  | _, Some (File _) => throw (fsError "ENOTDIR" p)
  | _, None => throw (fsError "ENOENT" p)
  end.

(** [cp(src, dst)] without [recursive]: copies one regular file, making
    the directories above [dst]; refuses a directory on either side. *)
Definition cp (src dst : path) : M unit :=
  emit (Cp src dst) ;;
  root <- getFs ;;
  match Fs.lookup src root with
  | None => throw (fsError "ENOENT" src)
  | Some (Dir _) => throw (fsError "ERR_FS_EISDIR" src)
  | Some (File c) =>
      match Fs.lookup dst root with
      | Some (Dir _) => throw (fsError "ERR_FS_CP_NON_DIR_TO_DIR" dst)
      | _ =>
          match Fs.place dst (File c) root with
          | Some root' => putFs root'
          | None => throw (fsError "ENOTDIR" dst)
          end
      end
  end.

(** [readdir(p, { withFileTypes: true })]: names with [isDirectory()]. *)
Definition readdir (p : path) : M (list (string * bool)) :=
  emit (Readdir p) ;;
  root <- getFs ;;
  match Fs.lookup p root with
  | Some (Dir es) => ret (map (fun e => (fst e, Fs.isDirectory (snd e))) es)
  | Some (File _) => throw (fsError "ENOTDIR" p)
  | None => throw (fsError "ENOENT" p)
  end.

(** output.ts. *)
Definition output_info (m : string) : M unit := emit (Out Info m).
Definition output_success (m : string) : M unit := emit (Out Success m).
Definition output_error (m : string) : M unit := emit (Out Error m).
Definition output_warn (m : string) : M unit := emit (Out Warn m).
Definition output_spinner (m : string) : M (M unit) :=
  emit (SpinnerStart m) ;; ret (emit SpinnerStop).
Definition stdout_write (s : string) : M unit := emit (StdoutWrite s).

End Node.

(** ** The collaborators outside the program *)

(** What [execAsync] does with a command: it rejects with an error or
    resolves with the command's standard output. *)
Inductive exec_result : Type :=
| ExecFails (e : error)
| ExecOk (stdout : string).

(** What [fetch] does: it rejects, or resolves with a response that has an
    [ok] flag and a body. *)
Inductive fetch_result : Type :=
| FetchFails
| FetchResponse (ok : bool) (body : string).

(** The host the program runs on.  [jsonVersion] stands for [JSON.parse]
    followed by the read of the [version] member: [None] when parsing (or
    the read) throws, [Some None] when the member is absent or null. *)
Record world : Type := mkWorld {
  platform : string;                       (* process.platform *)
  cwd : path;                              (* process.cwd() *)
  now : N;                                 (* Date.now() *)
  exec : string -> exec_result;            (* execAsync *)
  cloned : node;                           (* the tree a successful git clone leaves *)
  answer : string;                         (* what question(...) resolves to *)
  fetched : string -> fetch_result;        (* fetch(url) *)
  jsonVersion : string -> option (option string);
  packageRoot : path                       (* getPackageRootDir() *)
}.

Module Host.
Import Effects.
Local Open Scope eff_scope.

Definition execAsync (w : world) (cmd : string) : M string :=
  emit (Exec cmd) ;;
  match exec w cmd with
  | ExecOk out => ret out
  | ExecFails e => throw e
  end.

Definition question (w : world) (prompt : string) : M string :=
  emit (Ask prompt) ;; ret (answer w).

Definition dquote : string := String (ascii_of_nat 34) EmptyString.
Definition newline : string := String (ascii_of_nat 10) EmptyString.

Definition showN (n : N) : string :=
  DecimalString.NilZero.string_of_uint (N.to_uint n).

End Host.

(** ** deps.ts: the dependency report *)

Record OSInfo : Type := mkOSInfo { id : string; name : string }.

Record DependencyCheckResult : Type := mkResult {
  hasErrors : bool;
  missingCli : list string;
  missingWeb : list string;
  osId : string;
  osName : string
}.

Module Deps.
Import Effects Node Host.
Import JsString.
Local Open Scope eff_scope.

Definition includesAny (content : string) (words : list string) : bool :=
  existsb (includes content) words.

Definition detectOS (w : world) : M OSInfo :=
  if String.eqb (platform w) "darwin" then ret (mkOSInfo "macos" "macOS")
  else if String.eqb (platform w) "win32" then ret (mkOSInfo "windows" "Windows")
  else
    found <-
      tryCatch
        (stdout <- execAsync w
           "cat /etc/os-release 2>/dev/null || cat /etc/redhat-release 2>/dev/null || echo ''" ;;
         let content := toLowerCase stdout in
         if includesAny content ["ubuntu"; "debian"; "linuxmint"; "pop"]
         then ret (Some (mkOSInfo "ubuntu" "Ubuntu/Debian"))
         else if includes content "fedora"
         then ret (Some (mkOSInfo "fedora" "Fedora"))
         else if includesAny content ["rhel"; "centos"; "rocky"; "almalinux"]
         then ret (Some (mkOSInfo "rhel" "RHEL/CentOS/Rocky"))
         else if includesAny content ["arch"; "manjaro"]
         then ret (Some (mkOSInfo "arch" "Arch Linux"))
         else ret None)
        (fun _ => ret None) ;;
    match found with
    | Some os => ret os
    | None => ret (mkOSInfo "linux" "Linux")
    end.

Definition commandExists (w : world) (command : string) : M bool :=
  tryCatch
    ((if String.eqb (platform w) "win32"
      then execAsync w ("where " ++ command ++ " >nul 2>&1")
      else execAsync w ("command -v " ++ command ++ " >/dev/null 2>&1")) ;;
     ret true)
    (fun _ => ret false).

(** [getVersion(command)] with the default flag; [null] is [None]. *)
Definition getVersion (w : world) (command : string) : M (option string) :=
  tryCatch
    (stdout <- execAsync w (command ++ " --version 2>&1") ;;
     ret (Some (trim stdout)))
    (fun _ => ret None).

(** [version.split("\n")[0]]. *)
Definition firstLine (version : string) : string :=
  hd EmptyString (split (ascii_of_nat 10) version).

(** Group 1 of [version.match(/v?(\d+)/)]: the first run of digits. *)
Definition matchDigits (version : string) : option (list ascii) :=
  match takeWhile isDigit (dropWhile (fun c => negb (isDigit c)) (chars version)) with
  | [] => None
  | ds => Some ds
  end.

(** Group 1 of [match(/Python (\d+)/)] on the characters [l]: the digits
    behind the first [Python ] that has a digit behind it. *)
Fixpoint matchAfter (word l : list ascii) : option (list ascii) :=
  let here :=
    if isPrefixChars word l
    then takeWhile isDigit (skipn (List.length word) l) else [] in
  match here with
  | _ :: _ => Some here
  | [] =>
      match l with
      | [] => None
      | _ :: l' => matchAfter word l'
      end
  end.

Definition matchPython (version : string) : option (list ascii) :=
  matchAfter (chars "Python ") (chars version).

(** [parseInt(digits, 10)] on a run of decimal digits. *)
Definition parseInt (ds : list ascii) : number :=
  JsNumber.roundToDouble (StringToNumber.decimalValue ds) 1.

Definition checkDependencies (w : world) (skipDeps : bool)
  : M DependencyCheckResult :=
  if skipDeps then
    ret (mkResult false [] [] "unknown" "Unknown")
  else
    osInfo <- detectOS w ;;
    output_info "Checking dependencies..." ;;
    stdout_write newline ;;
    (* Required: Git *)
    gitOk <- commandExists w "git" ;;
    missingCli <-
      (if gitOk then
         version <- getVersion w "git" ;;
         let shortVersion :=
           match truthy version with
           | Some v => substring0 20 (firstLine v)
           | None => EmptyString
           end in
         output_success ("Git: " ++ shortVersion ++ "...") ;;
         ret []
       else
         output_error "Git: not found" ;;
         ret ["git"]) ;;
    (* Required: Claude Code CLI *)
    claudeOk <- commandExists w "claude" ;;
    missingCli <-
      (if claudeOk then
         output_success "Claude Code: installed" ;; ret missingCli
       else
         output_warn "Claude Code: not found (npm i -g @anthropic-ai/claude-code)" ;;
         ret (missingCli ++ ["claude-code"])%list) ;;
    (* Optional: Node.js *)
    nodeOk <- commandExists w "node" ;;
    missingWeb <-
      (if nodeOk then
         version <- getVersion w "node" ;;
         match truthy version with
         | Some v =>
             match matchDigits v with
             | Some ds =>
                 if JsNumber.ge (parseInt ds) (JsNumber.ofZ 18) then
                   output_success ("Node.js: " ++ firstLine v) ;; ret []
                 else
                   output_warn ("Node.js: " ++ firstLine v ++ " (recommended 18+)") ;;
                   ret ["nodejs-upgrade"]
             | None => output_success ("Node.js: " ++ firstLine v) ;; ret []
             end
         | None => ret []
         end
       else
         output_warn "Node.js: not found (required for Web IDE)" ;;
         ret ["nodejs"]) ;;
    (* Optional: Python 3 *)
    python3Ok <- commandExists w "python3" ;;
    missingWeb <-
      (if python3Ok then
         version <- getVersion w "python3" ;;
         match truthy version with
         | Some v =>
             output_success ("Python3: " ++ removeFirst "Python " (firstLine v)) ;;
             ret missingWeb
         | None => ret missingWeb
         end
       else
         pythonOk <- commandExists w "python" ;;
         if pythonOk then
           version <- getVersion w "python" ;;
           match truthy version with
           | Some v =>
               let isThree :=
                 match matchPython v with
                 | Some ds => JsNumber.ge (parseInt ds) (JsNumber.ofZ 3)
                 | None => false
                 end in
               if isThree then
                 output_success ("Python: " ++ removeFirst "Python " (firstLine v)) ;;
                 ret missingWeb
               else
                 output_warn ("Python: " ++ removeFirst "Python " (firstLine v)
                              ++ " (Python 3 required)") ;;
                 ret (missingWeb ++ ["python3"])%list
           | None => ret missingWeb
           end
         else
           output_warn "Python3: not found (required for Web IDE)" ;;
           ret (missingWeb ++ ["python3"])%list) ;;
    (* Optional: GCC *)
    gccOk <- commandExists w "gcc" ;;
    missingWeb <-
      (if gccOk then output_success "GCC: installed" ;; ret missingWeb
       else
         output_warn "GCC: not found (required for Web IDE)" ;;
         ret (missingWeb ++ ["gcc"])%list) ;;
    (* Optional: Make *)
    makeOk <- commandExists w "make" ;;
    missingWeb <-
      (if makeOk then output_success "Make: installed" ;; ret missingWeb
       else
         output_warn "Make: not found (required for Web IDE)" ;;
         ret (missingWeb ++ ["make"])%list) ;;
    stdout_write newline ;;
    ret (mkResult
           ((0 <? List.length missingCli)%nat || (0 <? List.length missingWeb)%nat)
           missingCli missingWeb (id osInfo) (name osInfo)).

(** [promptContinue]. *)
Definition promptContinue (w : world) : M bool :=
  stdout_write newline ;;
  answer <- question w "Continue anyway? (y/n) " ;;
  ret (startsWith (toLowerCase answer) "y").

End Deps.

(** ** init.ts: the template installer *)

Module Init.
Import Effects Node Host.
Import JsString.
Local Open Scope eff_scope.

Definition REPO_URL : string := "https://github.com/evolve-labs-cloud/devflow.git".

(** [git clone REPO_URL "dest"] through [execAsync]; when the command
    succeeds the cloned tree is at [dest]. *)
Definition gitClone (w : world) (dest : path) : M unit :=
  execAsync w ("git clone " ++ REPO_URL ++ " " ++ dquote ++ Fs.render dest ++ dquote) ;;
  root <- getFs ;;
  match Fs.place dest (cloned w) root with
  | Some root' => putFs root'
  | None => ret tt
  end.

(** [copyDirectory], with [fuel] bounding the depth of the recursion. *)
Fixpoint copyDirectoryFuel (fuel : nat) (source target : path) : M unit :=
  match fuel with
  | O => throw (mkError "RangeError" "Maximum call stack size exceeded")
  | S fuel' =>
      entries <- readdir source ;;
      (fix each (entries : list (string * bool)) : M unit :=
         match entries with
         | [] => ret tt
         | (entryName, isDir) :: rest =>
             let sourcePath := (source ++ [entryName])%list in
             let targetPath := (target ++ [entryName])%list in
             (if isDir then
                mkdir targetPath ;;
                copyDirectoryFuel fuel' sourcePath targetPath
              else cp sourcePath targetPath) ;;
             each rest
         end) entries
  end.

(** The depth of the tree at the call bounds the recursion as long as
    the target does not lie inside the source. *)
Definition copyDirectory (source target : path) : M unit :=
  fun s => copyDirectoryFuel (S (Fs.height (fs s))) source target s.

Definition foldersToCheck : list string :=
  [".claude/commands/agents"; ".devflow"; "docs"].

(** The [for] loop of [checkConflicts] over the folders still to test. *)
Fixpoint checkConflictsFrom (targetPath : path) (folders conflicts : list string)
  : M (list string) :=
  match folders with
  | [] => ret conflicts
  | folder :: rest =>
      let targetFolderPath := Fs.join targetPath folder in
      conflicts' <-
        tryCatch (access targetFolderPath ;; ret (conflicts ++ [folder])%list)
                 (fun _ => ret conflicts) ;;
      checkConflictsFrom targetPath rest conflicts'
  end.

Definition checkConflicts (targetPath : path) : M (list string) :=
  checkConflictsFrom targetPath foldersToCheck [].

Definition copyDevFlowFiles (tempPath targetPath : path) : M unit :=
  (* .claude/commands/agents *)
  let agentsSource := (tempPath ++ [".claude"; "commands"; "agents"])%list in
  let agentsTarget := (targetPath ++ [".claude"; "commands"; "agents"])%list in
  tryCatch
    (access agentsSource ;;
     mkdir (targetPath ++ [".claude"; "commands"])%list ;;
     tryCatch (rm agentsTarget) (fun _ => ret tt) ;;
     mkdir agentsTarget ;;
     copyDirectory agentsSource agentsTarget ;;
     output_success "Agents installed (.claude/commands/agents/)")
    (fun _ => output_warn "Could not copy .claude/commands/agents") ;;
  (* .devflow structure *)
  let devflowSource := (tempPath ++ [".devflow"])%list in
  let devflowTarget := (targetPath ++ [".devflow"])%list in
  tryCatch
    (access devflowSource ;;
     mkdir (devflowTarget ++ ["agents"])%list ;;
     mkdir (devflowTarget ++ ["memory"])%list ;;
     mkdir (devflowTarget ++ ["sessions"])%list ;;
     let projectYamlSource := (devflowSource ++ ["project.yaml"])%list in
     let projectYamlTarget := (devflowTarget ++ ["project.yaml"])%list in
     tryCatch
       (access projectYamlSource ;; cp projectYamlSource projectYamlTarget)
       (fun _ => writeFile projectYamlTarget EmptyString) ;;
     output_success "DevFlow structure created (.devflow/)")
    (fun _ => output_warn "Could not copy .devflow structure") ;;
  (* docs, unless the target has one *)
  let docsSource := (tempPath ++ ["docs"])%list in
  let docsTarget := (targetPath ++ ["docs"])%list in
  tryCatch
    (access docsTarget ;;
     output_warn "docs/ folder already exists - keeping existing")
    (fun _ =>
       tryCatch
         (access docsSource ;;
          tryCatch (rm docsTarget) (fun _ => ret tt) ;;
          mkdir docsTarget ;;
          copyDirectory docsSource docsTarget ;;
          output_success "Documentation structure created (docs/)")
         (fun _ => output_warn "Could not copy docs/ folder")) ;;
  mkdir (targetPath ++ ["docs"; "snapshots"])%list.

Fixpoint listConflicts (conflicts : list string) : M unit :=
  match conflicts with
  | [] => ret tt
  | conflict :: rest =>
      stdout_write ("  - " ++ conflict ++ newline) ;; listConflicts rest
  end.

(** The conflict gate of [initializeProject] (the block under
    [if (conflicts.length > 0)]). *)
Definition conflictGate (w : world) (conflicts : list string) : M unit :=
  if (0 <? List.length conflicts)%nat then
    stdout_write newline ;;
    output_warn
      "The following DevFlow files/folders already exist in the target directory:" ;;
    listConflicts conflicts ;;
    stdout_write newline ;;
    answer <- question w
      "Do you want to continue and replace existing DevFlow files? (y/n) " ;;
    if negb (startsWith (toLowerCase answer) "y") then
      output_error "Initialization cancelled." ;;
      processExit 0
    else stdout_write newline
  else ret tt.

(** The [.gitignore] step of [initializeProject] (copy, or merge if the
    target has one). *)
Definition mergeGitignore (tempPath targetPath : path) : M unit :=
  let gitignoreSource := Fs.join tempPath ".gitignore" in
  let gitignoreTarget := Fs.join targetPath ".gitignore" in
  tryCatch
    (access gitignoreSource ;;
     tryCatch
       (access gitignoreTarget ;;
        existingContent <- readFile gitignoreTarget ;;
        devflowContent <- readFile gitignoreSource ;;
        writeFile gitignoreTarget (existingContent ++ newline ++ devflowContent) ;;
        output_success ".gitignore updated (merged with DevFlow entries)")
       (fun _ =>
          cp gitignoreSource gitignoreTarget ;;
          output_success ".gitignore created"))
    (fun _ => ret tt).

Definition targetOf (w : world) (folder : option string) : path :=
  match JsString.truthy folder with
  | Some f => Fs.resolve (cwd w) f
  | None => cwd w
  end.

Definition tempOf (w : world) (folder : option string) : path :=
  Fs.join (targetOf w folder) (".devflow-temp-" ++ showN (now w)).

Definition initializeProject (w : world) (folder : option string) : M unit :=
  let targetPath := targetOf w folder in
  mkdir targetPath ;;
  let tempPath := tempOf w folder in
  tryFinally
    (stopSpinner <- output_spinner "Cloning template repository..." ;;
     tryFinally (gitClone w tempPath) stopSpinner ;;
     output_success "Cloned template repository" ;;
     conflicts <- checkConflicts targetPath ;;
     conflictGate w conflicts ;;
     stopSpinner2 <- output_spinner "Installing DevFlow files..." ;;
     tryFinally (copyDevFlowFiles tempPath targetPath) stopSpinner2 ;;
     mergeGitignore tempPath targetPath)
    (stopSpinner3 <- output_spinner "Cleaning up temporary files..." ;;
     tryFinally (tryCatch (rm tempPath) (fun _ => ret tt)) stopSpinner3 ;;
     output_success "Temporary files cleaned up") ;;
  output_success
    ("DevFlow initialized"
     ++ match JsString.truthy folder with Some f => " in " ++ f | None => EmptyString end
     ++ " 🚀").

End Init.

(** ** ide.ts: installing and updating the web folder *)

Record VersionCheckResult : Type := mkCheck {
  localVersion : option string;
  remoteVersion : option string;
  hasUpdate : bool
}.

Module IdeUpdate.
Import Effects Node Host.
Import Ide.
Local Open Scope eff_scope.

Definition REMOTE_PACKAGE_JSON_URL : string :=
  "https://raw.githubusercontent.com/evolve-labs-cloud/devflow/main/web/package.json".

Definition getRemoteVersion (w : world) : M (option string) :=
  emit (Fetch REMOTE_PACKAGE_JSON_URL) ;;
  match fetched w REMOTE_PACKAGE_JSON_URL with
  | FetchFails => ret None
  | FetchResponse false _ => ret None
  | FetchResponse true body =>
      match jsonVersion w body with
      | Some v => ret v
      | None => ret None
      end
  end.

Definition getLocalVersion (w : world) (webPath : path) : M (option string) :=
  tryCatch
    (let packageJsonPath := Fs.join webPath "package.json" in
     content <- readFile packageJsonPath ;;
     match jsonVersion w content with
     | Some v => ret v
     | None => throw (mkError "SyntaxError" "Unexpected token in JSON")
     end)
    (fun _ => ret None).

(** [Promise.all] over the two reads; neither depends on the other. *)
Definition checkForUpdate (w : world) (webPath : path) : M VersionCheckResult :=
  localVersion <- getLocalVersion w webPath ;;
  remoteVersion <- getRemoteVersion w ;;
  let hasUpdate :=
    match localVersion, remoteVersion with
    | Some l, Some r => isNewerVersion r l
    | _, _ => false
    end in
  ret (mkCheck localVersion remoteVersion hasUpdate).

Definition pathExists (p : path) : M bool :=
  tryCatch (access p ;; ret true) (fun _ => ret false).

Definition setupWebFolder (w : world) (packageRoot webTargetPath : path)
           (replace : bool) : M unit :=
  let tempFolderName := ".devflow-ide-temp-" ++ showN (now w) in
  let tempPath := Fs.join packageRoot tempFolderName in
  tryFinally
    (stopSpinner <- output_spinner "Cloning repository..." ;;
     tryFinally (Init.gitClone w tempPath) stopSpinner ;;
     output_success "Repository cloned" ;;
     (if replace then
        stopSpinnerRm <- output_spinner "Removing existing web folder..." ;;
        tryFinally (rm webTargetPath) stopSpinnerRm ;;
        output_success "Existing web folder removed"
      else ret tt) ;;
     let webSourcePath := Fs.join tempPath "web" in
     stopSpinner2 <- output_spinner "Setting up web folder..." ;;
     tryFinally
       (mkdir webTargetPath ;; Init.copyDirectory webSourcePath webTargetPath)
       stopSpinner2 ;;
     output_success ("Web folder installed at " ++ Fs.render webTargetPath))
    (stopSpinner3 <- output_spinner "Cleaning up temporary files..." ;;
     tryFinally (tryCatch (rm tempPath) (fun _ => ret tt)) stopSpinner3 ;;
     output_success "Temporary files cleaned up").

(** Text of a [string | null] inside a template literal. *)
Definition show (v : option string) : string :=
  match v with Some s => s | None => "null" end.

Definition updateIde (w : world) : M unit :=
  let packageRoot := packageRoot w in
  let webTargetPath := Fs.join packageRoot "web" in
  present <- pathExists webTargetPath ;;
  proceed <-
    (if present then
       versionCheck <- checkForUpdate w webTargetPath ;;
       if negb (hasUpdate versionCheck) then
         match JsString.truthy (localVersion versionCheck),
               JsString.truthy (remoteVersion versionCheck) with
         | Some l, Some _ =>
             output_success
               ("DevFlow IDE is already up to date (version " ++ l ++ ")")
         | _, _ => output_success "DevFlow IDE is already up to date"
         end ;;
         ret false
       else
         output_info
           ("Updating DevFlow IDE from " ++ show (localVersion versionCheck)
            ++ " to " ++ show (remoteVersion versionCheck) ++ "...") ;;
         ret true
     else
       output_info "Installing DevFlow IDE..." ;; ret true) ;;
  if proceed then
    setupWebFolder w packageRoot webTargetPath true ;;
    output_success "DevFlow IDE updated successfully"
  else ret tt.

End IdeUpdate.

(** ** Vocabulary of the specification *)

Module VersionSpec.
Import JsString StringToNumber.

(** A segment of a dotted-numeric version: one decimal digit or more. *)
Definition numericSegment (seg : string) : bool :=
  match chars seg with
  | [] => false
  | l => forallb isDigit l
  end.

(** A valid dotted-numeric version string. *)
Definition validVersion (v : string) : bool :=
  forallb numericSegment (split "." v).

(** The VersionTriple of the specification: the components as integers. *)
Definition components (v : string) : list Z :=
  map (fun seg => decimalValue (chars seg)) (split "." v).

(** Integers up to [2^53] are JavaScript numbers as they stand. *)
Definition exactVersion (v : string) : bool :=
  validVersion v && forallb (fun z => z <=? 2 ^ 53) (components v).

Definition firstPair (r l : Z) (rest : bool) : bool :=
  if l <? r then true else if r <? l then false else rest.

(** The comparison in the words of the specification: component by
    component, a missing component counting as 0, decided by the first
    pair that differs, and false when none does. *)
Fixpoint newerSpec (remote local : list Z) : bool :=
  match remote with
  | [] =>
      (fix localOnly (local : list Z) : bool :=
         match local with
         | [] => false
         | l :: local' => firstPair 0 l (localOnly local')
         end) local
  | r :: remote' =>
      match local with
      | [] => firstPair r 0 (newerSpec remote' [])
      | l :: local' => firstPair r l (newerSpec remote' local')
      end
  end.

End VersionSpec.

Module InstallSpec.

(** The InstallPlan in the words of the specification: the top-level
    path names copied from the template. *)
Definition installPlan : list string :=
  [".claude/commands/agents"; ".devflow"; "docs"; ".gitignore"].

(** The names of [plan] that exist under [target]. *)
Definition existing (plan : list string) (target : path) (root : node)
  : list string :=
  filter (fun entry => Fs.exists_ (Fs.join target entry) root) plan.

(** An explicit negative answer in the words of the specification:
    a leading "n", in either case. *)
Definition negativeAnswer (answer : string) : bool :=
  JsString.startsWith (JsString.toLowerCase answer) "n".

Definition isWrite (e : event) : bool :=
  match e with
  | WriteFile _ _ | Cp _ _ => true
  | _ => false
  end.

(** Number of file writes among the calls of a trace. *)
Definition writeCount (t : list event) : nat :=
  List.length (filter isWrite t).

Definition isRm (e : event) : bool :=
  match e with
  | Rm _ => true
  | _ => false
  end.

(** What [getLocalVersion] reads from the web folder in [root]. *)
Definition localVersionOf (w : world) (webPath : path) (root : node)
  : option string :=
  match Fs.lookup (Fs.join webPath "package.json") root with
  | Some (File content) =>
      match jsonVersion w content with
      | Some v => v
      | None => None
      end
  | _ => None
  end.

(** What [getRemoteVersion] gets from the remote descriptor. *)
Definition remoteVersionOf (w : world) : option string :=
  match fetched w IdeUpdate.REMOTE_PACKAGE_JSON_URL with
  | FetchResponse true body =>
      match jsonVersion w body with
      | Some v => v
      | None => None
      end
  | _ => None
  end.

(** The local version is not older than the remote one, or one of the
    two could not be determined. *)
Definition noUpdate (lv rv : option string) : bool :=
  match lv, rv with
  | Some l, Some r => negb (Ide.isNewerVersion r l)
  | _, _ => true
  end.

End InstallSpec.

(** ** Predicates on computations *)

Module Predicates.

(** [m] ends normally from every state, with a value that satisfies [P]. *)
Definition returns {A} (m : M A) (P : A -> Prop) : Prop :=
  forall s, exists a s', m s = (Ret a, s') /\ P a.

(** Whatever [m] does, the trace it leaves starts with the one it found. *)
Definition extends {A} (m : M A) : Prop :=
  forall s, exists t, trace (snd (m s)) = (trace s ++ t)%list.

(** The invariant of the CapabilityReport: the flag is set exactly when
    something is missing. *)
Definition flagMatchesLists (r : DependencyCheckResult) : Prop :=
  hasErrors r = true
  <-> (0 < List.length (missingCli r) + List.length (missingWeb r))%nat.

End Predicates.

(** ** Concrete hosts and trees used in examples *)

Module Examples.

(** A cloned template. *)
Definition template : node :=
  Dir [(".claude", Dir [("commands", Dir [("agents", Dir [("dev.md", File "agent")])])]);
       (".devflow", Dir [("project.yaml", File "name: demo")]);
       ("docs", Dir [("README.md", File "docs")]);
       (".gitignore", File ".devflow/sessions");
       ("web", Dir [("package.json", File "{ version: 2.0.0 }")])].

(** A Linux host on which every command succeeds, with the user's
    reply to any question. *)
Definition host (reply : string) : world :=
  mkWorld "linux" ["home"; "dev"; "proj"] 1700000000000
          (fun _ => ExecOk EmptyString) template reply
          (fun _ => FetchFails) (fun _ => None) ["opt"; "devflow"].

(** A project that already has a [.devflow] folder. *)
Definition project : node :=
  Dir [("home", Dir [("dev", Dir [("proj",
         Dir [(".devflow", Dir [("memory", Dir [("notes.md", File "keep")])])])])])].

(** A host whose installed web folder declares version 1.10.0 while the
    remote descriptor declares 1.2.0. *)
Definition ideHost : world :=
  mkWorld "linux" ["home"; "dev"] 1700000000000
          (fun _ => ExecOk EmptyString) template "y"
          (fun _ => FetchResponse true "remote")
          (fun body => if String.eqb body "remote"
                       then Some (Some "1.2.0") else Some (Some "1.10.0"))
          ["opt"; "devflow"].

Definition installed : node :=
  Dir [("opt", Dir [("devflow",
         Dir [("web", Dir [("package.json", File "local")])])])].

(** A target with its own [.gitignore] next to a cloned template. *)
Definition withGitignore : node :=
  Dir [("proj", Dir [(".gitignore", File "node_modules");
                     ("tmp", Dir [(".gitignore", File ".devflow/sessions")])])].

End Examples.

(** ** More vocabulary: orders on versions *)

Module OrderSpec.

(** The parts of a version hold no NaN. *)
Definition allNumbers (parts : list number) : bool :=
  forallb (fun x => match x with NaN => false | _ => true end) parts.

Definition isNumber (x : number) : Prop := x <> NaN.

End OrderSpec.

(** ** More vocabulary: what a computation leaves alone *)

Module Frame.

(** The two paths part ways: at some depth their components differ. *)
Fixpoint diverges (p q : path) : bool :=
  match p, q with
  | a :: p', b :: q' => if String.eqb a b then diverges p' q' else true
  | _, _ => false
  end.

(** [m] relates the file system it finds to the one it leaves by [Q],
    however it ends. *)
Definition keeps {A} (Q : node -> node -> Prop) (m : M A) : Prop :=
  forall s, Q (fs s) (fs (snd (m s))).

(** Nothing changed at the paths that part ways with [t]. *)
Definition outside (t : path) (n n' : node) : Prop :=
  forall q, diverges t q = true -> Fs.lookup q n' = Fs.lookup q n.

(** The regular file at [q] is still there, with its content. *)
Definition fileKept (q : path) (c : string) (n n' : node) : Prop :=
  Fs.lookup q n = Some (File c) -> Fs.lookup q n' = Some (File c).

(** The path [q] resolves as before. *)
Definition sameAt (q : path) (n n' : node) : Prop :=
  Fs.lookup q n' = Fs.lookup q n.

(** Every regular file below [source] in [n] is below [target] in [n'],
    at the same relative path and with the same content. *)
Definition copied (source target : path) (n n' : node) : Prop :=
  forall r c,
    Fs.lookup (source ++ r)%list n = Some (File c) ->
    Fs.lookup (target ++ r)%list n' = Some (File c).

(** Whenever [m] returns, the tree it leaves satisfies [P]. *)
Definition ensures {A} (P : node -> Prop) (m : M A) : Prop :=
  forall s a s', m s = (Ret a, s') -> P (fs s').

(** From a tree that satisfies [Pre], whenever [m] returns the tree it
    leaves satisfies [Post]. *)
Definition triple {A} (Pre : node -> Prop) (m : M A) (Post : node -> Prop) : Prop :=
  forall s a s', Pre (fs s) -> m s = (Ret a, s') -> Post (fs s').

(** A tree that satisfies [P] still does afterwards. *)
Definition stays (P : node -> Prop) (n n' : node) : Prop := P n -> P n'.

(** There is a directory at [q]. *)
Definition isDirAt (q : path) (n : node) : Prop :=
  exists es, Fs.lookup q n = Some (Dir es).

(** The regular files below [source] in [n] are those below [from] in
    [tree]. *)
Definition holds (tree : node) (from source : path) (n : node) : Prop :=
  forall r, Fs.lookup (source ++ r)%list n = Fs.lookup (from ++ r)%list tree.

(** Every regular file below [from] in [tree] is below [target] in [n]. *)
Definition installedFrom (tree : node) (from target : path) (n : node) : Prop :=
  forall r c,
    Fs.lookup (from ++ r)%list tree = Some (File c) ->
    Fs.lookup (target ++ r)%list n = Some (File c).

(** [p] is [t] or lies below it. *)
Definition under (t p : path) : Prop := exists r, p = (t ++ r)%list.

(** No name occurs twice. *)
Fixpoint distinct (names : list string) : bool :=
  match names with
  | [] => true
  | x :: rest => negb (existsb (String.eqb x) rest) && distinct rest
  end.

(** No directory of the tree holds two entries of one name. *)
Fixpoint wellFormed (n : node) : bool :=
  match n with
  | File _ => true
  | Dir es =>
      distinct (map fst es)
      && (fix each (es : list (string * node)) : bool :=
            match es with
            | [] => true
            | (_, c) :: es' => wellFormed c && each es'
            end) es
  end.

(** Well-formed trees stay well-formed. *)
Definition wfKept (n n' : node) : Prop :=
  wellFormed n = true -> wellFormed n' = true.

(** [m] ends the process only with a status that satisfies [P]. *)
Definition exitsWith {A} (P : Z -> Prop) (m : M A) : Prop :=
  forall s c s', m s = (Exit c, s') -> P c.


End Frame.

(** ** init.ts and ide.ts: the blocks of the [try] statements *)

Module Blocks.
Import Effects Node Host Init.
Local Open Scope eff_scope.

(** The [try] block of [initializeProject]. *)
Definition initTry (w : world) (folder : option string) : M unit :=
  let targetPath := targetOf w folder in
  let tempPath := tempOf w folder in
  stopSpinner <- output_spinner "Cloning template repository..." ;;
  tryFinally (gitClone w tempPath) stopSpinner ;;
  output_success "Cloned template repository" ;;
  conflicts <- checkConflicts targetPath ;;
  conflictGate w conflicts ;;
  stopSpinner2 <- output_spinner "Installing DevFlow files..." ;;
  tryFinally (copyDevFlowFiles tempPath targetPath) stopSpinner2 ;;
  mergeGitignore tempPath targetPath.

(** The [finally] block of [initializeProject] and of [setupWebFolder]. *)
Definition cleanup (tempPath : path) : M unit :=
  stopSpinner3 <- output_spinner "Cleaning up temporary files..." ;;
  tryFinally (tryCatch (rm tempPath) (fun _ => ret tt)) stopSpinner3 ;;
  output_success "Temporary files cleaned up".

Definition ideTempOf (w : world) (packageRoot : path) : path :=
  Fs.join packageRoot (".devflow-ide-temp-" ++ showN (now w)).

(** The three [try] statements of [copyDevFlowFiles]. *)
Definition agentsBlock (tempPath targetPath : path) : M unit :=
  let agentsSource := (tempPath ++ [".claude"; "commands"; "agents"])%list in
  let agentsTarget := (targetPath ++ [".claude"; "commands"; "agents"])%list in
  tryCatch
    (access agentsSource ;;
     mkdir (targetPath ++ [".claude"; "commands"])%list ;;
     tryCatch (rm agentsTarget) (fun _ => ret tt) ;;
     mkdir agentsTarget ;;
     copyDirectory agentsSource agentsTarget ;;
     output_success "Agents installed (.claude/commands/agents/)")
    (fun _ => output_warn "Could not copy .claude/commands/agents").

Definition devflowBlock (tempPath targetPath : path) : M unit :=
  let devflowSource := (tempPath ++ [".devflow"])%list in
  let devflowTarget := (targetPath ++ [".devflow"])%list in
  tryCatch
    (access devflowSource ;;
     mkdir (devflowTarget ++ ["agents"])%list ;;
     mkdir (devflowTarget ++ ["memory"])%list ;;
     mkdir (devflowTarget ++ ["sessions"])%list ;;
     let projectYamlSource := (devflowSource ++ ["project.yaml"])%list in
     let projectYamlTarget := (devflowTarget ++ ["project.yaml"])%list in
     tryCatch
       (access projectYamlSource ;; cp projectYamlSource projectYamlTarget)
       (fun _ => writeFile projectYamlTarget EmptyString) ;;
     output_success "DevFlow structure created (.devflow/)")
    (fun _ => output_warn "Could not copy .devflow structure").

Definition docsBlock (tempPath targetPath : path) : M unit :=
  let docsSource := (tempPath ++ ["docs"])%list in
  let docsTarget := (targetPath ++ ["docs"])%list in
  tryCatch
    (access docsTarget ;;
     output_warn "docs/ folder already exists - keeping existing")
    (fun _ =>
       tryCatch
         (access docsSource ;;
          tryCatch (rm docsTarget) (fun _ => ret tt) ;;
          mkdir docsTarget ;;
          copyDirectory docsSource docsTarget ;;
          output_success "Documentation structure created (docs/)")
         (fun _ => output_warn "Could not copy docs/ folder")).

(** The [for] loop of [copyDirectory] over the entries still to copy,
    with [copy] for the recursive call. *)
Definition copyEntries (copy : path -> path -> M unit) (source target : path)
  : list (string * bool) -> M unit :=
  fix each (entries : list (string * bool)) : M unit :=
    match entries with
    | [] => ret tt
    | (entryName, isDir) :: rest =>
        let sourcePath := (source ++ [entryName])%list in
        let targetPath := (target ++ [entryName])%list in
        (if isDir then
           mkdir targetPath ;;
           copy sourcePath targetPath
         else cp sourcePath targetPath) ;;
        each rest
    end.

(** Where [setupWebFolder] installs the web folder, and where it finds
    it in the temp workspace. *)
Definition webOf (packageRoot : path) : path := (packageRoot ++ ["web"])%list.

Definition webSourceOf (w : world) (packageRoot : path) : path :=
  (ideTempOf w packageRoot ++ ["web"])%list.

(** The command line of [gitClone]. *)
Definition cloneCommand (dest : path) : string :=
  "git clone " ++ REPO_URL ++ " " ++ dquote ++ Fs.render dest ++ dquote.

(** The [try] block of [setupWebFolder]. *)
Definition setupTry (w : world) (packageRoot webTargetPath : path)
           (replace : bool) : M unit :=
  let tempPath := ideTempOf w packageRoot in
  stopSpinner <- output_spinner "Cloning repository..." ;;
  tryFinally (gitClone w tempPath) stopSpinner ;;
  output_success "Repository cloned" ;;
  (if replace then
     stopSpinnerRm <- output_spinner "Removing existing web folder..." ;;
     tryFinally (rm webTargetPath) stopSpinnerRm ;;
     output_success "Existing web folder removed"
   else ret tt) ;;
  let webSourcePath := Fs.join tempPath "web" in
  stopSpinner2 <- output_spinner "Setting up web folder..." ;;
  tryFinally
    (mkdir webTargetPath ;; copyDirectory webSourcePath webTargetPath)
    stopSpinner2 ;;
  output_success ("Web folder installed at " ++ Fs.render webTargetPath).

End Blocks.

(** ** More vocabulary: the state of an installation *)

Module Progress.
Import Frame Blocks.

(** After the clone of [setupWebFolder]: the tree is well formed, and
    the repository's web folder is in the temp workspace unless nothing
    is there. *)
Definition cloneDone (w : world) (packageRoot : path) (n : node) : Prop :=
  wellFormed n = true
  /\ (holds (cloned w) ["web"] (webSourceOf w packageRoot) n
      \/ Fs.lookup (webSourceOf w packageRoot) n = None).

End Progress.

(** ** More concrete trees *)

Module MoreExamples.

(** A developer's home with an empty project next to another folder. *)
Definition shared : node :=
  Dir [("home", Dir [("dev", Dir [("proj", Dir []);
                                  ("other", Dir [("notes.md", File "mine")])])])].

(** A project with documentation of its own. *)
Definition documented : node :=
  Dir [("home", Dir [("dev", Dir [("proj",
         Dir [("docs", Dir [("guide.md", File "keep-me")])])])])].

(** An installed web folder next to data of the user's. *)
Definition installedBeside : node :=
  Dir [("opt", Dir [("devflow", Dir [("web", Dir [("package.json", File "local")])]);
                    ("data", Dir [("notes.md", File "mine")])])].

(** A host whose installed web folder declares version 1.0.0 while the
    remote descriptor declares 2.0.0. *)
Definition staleHost : world :=
  mkWorld "linux" ["home"; "dev"] 1700000000000
          (fun _ => ExecOk EmptyString) Examples.template "y"
          (fun _ => FetchResponse true "remote")
          (fun body => if String.eqb body "remote"
                       then Some (Some "2.0.0") else Some (Some "1.0.0"))
          ["opt"; "devflow"].

(** A project with a cloned template waiting in [tmp]. *)
Definition staged : node :=
  Dir [("proj", Dir [("tmp", Examples.template)])].

(** A Linux host on which no command can be run. *)
Definition gitless (reply : string) : world :=
  mkWorld "linux" ["home"; "dev"; "proj"] 1700000000000
          (fun _ => ExecFails (mkError "ENOENT" "spawn git ENOENT"))
          Examples.template reply
          (fun _ => FetchFails) (fun _ => None) ["opt"; "devflow"].

End MoreExamples.

(** ** deps.ts: the installation instructions *)

Module Instructions.
Import Effects Node Host.
Local Open Scope eff_scope.

(** [process.stdout.write(text + "\n")]. *)
Definition line (text : string) : M unit := stdout_write (text ++ newline).

(** [list.includes(x)]. *)
Definition listIncludes (l : list string) (x : string) : bool :=
  existsb (String.eqb x) l.

Definition webInstructions (result : DependencyCheckResult) : M unit :=
  let osId := osId result in
  if String.eqb osId "ubuntu" then
    line "  # Install dependencies (Debian/Ubuntu):" ;;
    line "  sudo apt-get update" ;;
    line "  sudo apt-get install -y build-essential python3 git" ;;
    stdout_write newline ;;
    if listIncludes (missingWeb result) "nodejs"
       || listIncludes (missingCli result) "nodejs" then
      line "  # Node.js 20 LTS:" ;;
      line "  curl -fsSL https://deb.nodesource.com/setup_20.x | sudo -E bash -" ;;
      line "  sudo apt-get install -y nodejs" ;;
      stdout_write newline
    else ret tt
  else if String.eqb osId "fedora" then
    line "  # Install dependencies (Fedora):" ;;
    line "  sudo dnf groupinstall -y 'Development Tools'" ;;
    line "  sudo dnf install -y python3 git nodejs npm" ;;
    stdout_write newline
  else if String.eqb osId "rhel" then
    line "  # Install dependencies (RHEL/CentOS):" ;;
    line "  sudo dnf groupinstall -y 'Development Tools'" ;;
    line "  sudo dnf install -y python3 git" ;;
    stdout_write newline ;;
    line "  # Node.js 20 LTS:" ;;
    line "  curl -fsSL https://rpm.nodesource.com/setup_20.x | sudo bash -" ;;
    line "  sudo dnf install -y nodejs" ;;
    stdout_write newline
  else if String.eqb osId "arch" then
    line "  # Install dependencies (Arch):" ;;
    line "  sudo pacman -S base-devel python git nodejs npm" ;;
    stdout_write newline
  else if String.eqb osId "macos" then
    line "  # Install dependencies (macOS):" ;;
    line "  xcode-select --install" ;;
    line "  brew install node" ;;
    stdout_write newline
  else if String.eqb osId "windows" then
    line "  # Install dependencies (Windows):" ;;
    line "  # Use WSL (Windows Subsystem for Linux)" ;;
    line "  # PowerShell as Admin:" ;;
    line "  wsl --install" ;;
    line "  # Then follow Debian/Ubuntu instructions in WSL" ;;
    stdout_write newline
  else
    line "  # Install manually: Node.js 18+, Python 3, GCC, Make, Git" ;;
    stdout_write newline.

Definition gitInstructions (osId : string) : M unit :=
  if String.eqb osId "ubuntu" then
    line "  # Git:" ;; line "  sudo apt-get install -y git" ;; stdout_write newline
  else if String.eqb osId "fedora" || String.eqb osId "rhel" then
    line "  # Git:" ;; line "  sudo dnf install -y git" ;; stdout_write newline
  else if String.eqb osId "arch" then
    line "  # Git:" ;; line "  sudo pacman -S git" ;; stdout_write newline
  else if String.eqb osId "macos" then
    line "  # Git:" ;; line "  xcode-select --install" ;; stdout_write newline
  else ret tt.

Definition showInstallInstructions (result : DependencyCheckResult) : M unit :=
  if negb (hasErrors result) then
    output_success "All dependencies are installed!" ;;
    stdout_write newline
  else
    output_warn "Missing dependencies:" ;;
    stdout_write newline ;;
    (if (0 <? List.length (missingWeb result))%nat
     then webInstructions result else ret tt) ;;
    (if listIncludes (missingCli result) "claude-code" then
       line "  # Claude Code:" ;;
       line "  npm install -g @anthropic-ai/claude-code" ;;
       line "  claude login" ;;
       stdout_write newline
     else ret tt) ;;
    (if listIncludes (missingCli result) "git"
     then gitInstructions (osId result) else ret tt) ;;
    (if (0 <? List.length (missingCli result))%nat then
       output_warn "⚠ Missing CLI dependencies. Agent installation may not work."
     else ret tt).

End Instructions.

(** ** init.ts, ide.ts: the error handlers; cli.ts: the [init] action *)

(** [String(message)] of a [message] member, and whether the member is a
    string. *)
Inductive messageValue : Type :=
| StringMessage (text : string)
| OtherMessage (text : string).

(** A value caught as [error: unknown]: an object, with its [code] member
    when that is a string, its [message] member when it has one, and the
    text [String(error)]; or anything else, with its text. *)
Inductive caught : Type :=
| NotObject (text : string)
| ErrorObject (code : option string) (message : option messageValue) (text : string).

Module Handlers.
Import Effects Node Host.
Local Open Scope eff_scope.

(** The errors the modelled calls throw are [Error] objects. *)
Definition ofError (e : error) : caught :=
  ErrorObject (Some (code e)) (Some (StringMessage (message e)))
              ("Error: " ++ message e).

(** The test for a missing git: an object whose [code] is ["ENOENT"] and
    whose [message] is a string that includes ["git"]. *)
Definition gitNotFound (error : caught) : bool :=
  match error with
  | ErrorObject (Some c) (Some (StringMessage m)) _ =>
      String.eqb c "ENOENT" && JsString.includes m "git"
  | _ => false
  end.

Definition errorMessage (error : caught) : string :=
  match error with
  | ErrorObject _ (Some (StringMessage m)) _ => m
  | ErrorObject _ (Some (OtherMessage m)) _ => m
  | ErrorObject _ None text => text
  | NotObject text => text
  end.

Definition handleInitError {A} (error : caught) : M A :=
  if gitNotFound error then
    output_error "Git is not installed or not found in PATH." ;;
    processExit 1
  else
    output_error ("Error initializing project: " ++ errorMessage error) ;;
    processExit 1.

Definition handleIdeError {A} (error : caught) : M A :=
  if gitNotFound error then
    output_error "Git is not installed or not found in PATH." ;;
    processExit 1
  else
    output_error ("Error starting IDE: " ++ errorMessage error) ;;
    processExit 1.

End Handlers.

Module Cli.
Import Effects Node Host Deps Init Instructions Handlers.
Local Open Scope eff_scope.

(** The action of [devflow init [folder] [--skip-deps]]; [skipDeps] is
    [options?.skipDeps === true]. *)
Definition initAction (w : world) (folder : option string) (skipDeps : bool)
  : M unit :=
  tryCatch
    (depsResult <- checkDependencies w skipDeps ;;
     (if hasErrors depsResult then
        showInstallInstructions depsResult ;;
        shouldContinue <- promptContinue w ;;
        (if negb shouldContinue then
           stdout_write newline ;; processExit 0
         else ret tt) ;;
        stdout_write newline
      else ret tt) ;;
     initializeProject w folder)
    (fun error => handleInitError (ofError error)).

End Cli.

(** ** postinstall: the checks run after [npm install] *)

Module Postinstall.
Import Effects Node Host Instructions.
Local Open Scope eff_scope.

(** postinstall.js, the [checkCmd] of [commandExists]. *)
Definition checkCmd (w : world) (command : string) : string :=
  if String.eqb (platform w) "win32"
  then "where " ++ command else "command -v " ++ command.

(** postinstall.js, [commandExists]. *)
Definition commandExists (w : world) (command : string) : M bool :=
  tryCatch
    (execAsync w (checkCmd w command) ;; ret true)
    (fun _ => ret false).

(** postinstall.js, [main]. *)
Definition main (w : world) : M unit :=
  tryCatch
    (gitExists <- commandExists w "git" ;;
     claudeExists <- commandExists w "claude" ;;
     if negb gitExists || negb claudeExists then
       stdout_write newline ;;
       (if negb gitExists
        then line "⚠️  Git is not installed or not in PATH" else ret tt) ;;
       (if negb claudeExists
        then line "⚠️  Claude Code CLI is not installed or not in PATH"
        else ret tt) ;;
       stdout_write
         (newline ++ "⚠️  Some dependencies are missing. Run 'devflow init' to set up a project."
                  ++ newline) ;;
       stdout_write
         ("   The command will prompt you to install missing dependencies."
            ++ newline ++ newline)
     else
       stdout_write newline ;;
       line "✅ All required dependencies are installed!" ;;
       stdout_write ("   Run 'devflow init' to create a new project." ++ newline ++ newline))
    (fun _ =>
       stdout_write
         (newline ++ "⚠️  Could not check dependencies. Run 'devflow init' to verify."
                  ++ newline ++ newline)).

(** The postinstall script built on deps.ts, [main]. *)
Definition mainWithReport (w : world) : M unit :=
  tryCatch
    (result <- Deps.checkDependencies w false ;;
     if hasErrors result then
       stdout_write newline ;;
       showInstallInstructions result ;;
       stdout_write
         (newline ++ "⚠️  Some dependencies are missing. Run 'devflow init' to set up a project."
                  ++ newline) ;;
       stdout_write
         ("   The command will prompt you to install missing dependencies."
            ++ newline ++ newline)
     else
       stdout_write newline ;;
       line "✅ All dependencies are installed!" ;;
       stdout_write ("   Run 'devflow init' to create a new project." ++ newline ++ newline))
    (fun _ =>
       stdout_write
         (newline ++ "⚠️  Could not check dependencies. Run 'devflow init' to verify."
                  ++ newline ++ newline)).

End Postinstall.

(** ** More vocabulary: how a computation ends and what it prints *)

Module Conduct.
Import Effects.

(** A call of the output helpers or of [process.stdout.write]. *)
Definition isOutput (e : event) : bool :=
  match e with
  | Out _ _ | StdoutWrite _ => true
  | _ => false
  end.

(** [m] returns, and all it does is print. *)
Definition printsOnly (m : M unit) : Prop :=
  forall s, exists t,
      m s = (Ret tt, mkState (fs s) (trace s ++ t)%list)
      /\ forallb isOutput t = true.

(** How a copy may end: with [P] of the tree it leaves, or with an error
    that is not the exhausted depth bound. *)
Definition copyPost (P : node -> Prop) (r : result unit * state) : Prop :=
  match r with
  | (Ret _, s') => P (fs s')
  | (Throw e, _) => code e <> "RangeError"
  | (Exit _, _) => False
  end.

(** Spinners: a start counts 1, a stop -1; [running t] is the number
    of spinners that the calls [t] leave running. *)
Definition spinnerShift (e : event) : Z :=
  match e with
  | SpinnerStart _ => 1
  | SpinnerStop => -1
  | _ => 0
  end.

Fixpoint running (t : list event) : Z :=
  match t with
  | [] => 0
  | e :: t' => spinnerShift e + running t'
  end.

(** However [m] ends, the calls it adds leave [d] spinners running. *)
Definition spins {A} (d : Z) (m : M A) : Prop :=
  forall s, exists t,
      trace (snd (m s)) = (trace s ++ t)%list /\ running t = d.

(** The command line of a probe of deps.ts. *)
Definition probeCommand (w : world) (command : string) : string :=
  if String.eqb (platform w) "win32"
  then "where " ++ command ++ " >nul 2>&1"
  else "command -v " ++ command ++ " >/dev/null 2>&1".

(** Whether the host answers a command line with success. *)
Definition succeeds (w : world) (cmd : string) : bool :=
  match exec w cmd with ExecOk _ => true | ExecFails _ => false end.

End Conduct.

(** * Properties *)

(** ** Comparison of numbers *)

Module NumberFacts.
Import JsNumber.

Lemma Qltb_irrefl (x : Q) : Qltb x x = false.
Proof. unfold Qltb. apply Z.ltb_irrefl. Qed.

Lemma Qltb_asym (x y : Q) : Qltb x y = true -> Qltb y x = false.
Proof. unfold Qltb. rewrite Z.ltb_lt, Z.ltb_ge. lia. Qed.

Lemma lt_irrefl (a : number) : lt a a = false.
Proof. destruct a; simpl; auto using Qltb_irrefl. Qed.

Lemma lt_asym (a b : number) : lt a b = true -> lt b a = false.
Proof.
  destruct a, b; simpl; try congruence; auto using Qltb_asym.
Qed.

Lemma lt_NaN_l (a : number) : lt NaN a = false.
Proof. reflexivity. Qed.

Lemma lt_NaN_r (a : number) : lt a NaN = false.
Proof. destruct a; reflexivity. Qed.

Lemma lt_ofZ (a b : Z) : lt (ofZ a) (ofZ b) = (a <? b).
Proof. unfold ofZ, lt, Qltb. simpl. now rewrite !Z.mul_1_r. Qed.

End NumberFacts.

(** ** The comparison loop on arbitrary parts *)

Module CompareFacts.
Import JsNumber Ide NumberFacts.

Lemma compareFrom_same (parts : list number) (n i : nat) :
  compareFrom parts parts i n = false.
Proof.
  revert i. induction n as [|n IH]; intros i; simpl; [reflexivity|].
  unfold gt. rewrite lt_irrefl. apply IH.
Qed.

Lemma compareFrom_asym (rs ls : list number) (n i : nat) :
  compareFrom rs ls i n = true -> compareFrom ls rs i n = false.
Proof.
  revert i. induction n as [|n IH]; intros i; simpl; [congruence|].
  unfold gt.
  destruct (lt (partAt ls i) (partAt rs i)) eqn:Hlr.
  - intros _. now rewrite (lt_asym _ _ Hlr).
  - destruct (lt (partAt rs i) (partAt ls i)) eqn:Hrl; [congruence|].
    apply IH.
Qed.

(** The loop only looks at the parts from its index on. *)
Lemma compareFrom_ext (r1 l1 r2 l2 : list number) (n i1 i2 : nat) :
  (forall j, partAt r1 (i1 + j) = partAt r2 (i2 + j)) ->
  (forall j, partAt l1 (i1 + j) = partAt l2 (i2 + j)) ->
  compareFrom r1 l1 i1 n = compareFrom r2 l2 i2 n.
Proof.
  revert i1 i2. induction n as [|n IH]; intros i1 i2 Hr Hl; simpl; [reflexivity|].
  pose proof (Hr O) as Hr0. pose proof (Hl O) as Hl0.
  rewrite !Nat.add_0_r in Hr0, Hl0. rewrite Hr0, Hl0.
  rewrite (IH (S i1) (S i2)); [reflexivity| |]; intros j.
  - specialize (Hr (S j)). now rewrite !Nat.add_succ_r in Hr.
  - specialize (Hl (S j)). now rewrite !Nat.add_succ_r in Hl.
Qed.

Lemma partAt_nil (i : nat) : partAt [] i = zero.
Proof. unfold partAt. now destruct i. Qed.

Lemma compareFrom_tail (r l : list number) (n : nat) :
  compareFrom r l 1 n = compareFrom (tl r) (tl l) 0 n.
Proof.
  apply compareFrom_ext; intros j; simpl.
  - destruct r; simpl; [now rewrite !partAt_nil | reflexivity].
  - destruct l; simpl; [now rewrite !partAt_nil | reflexivity].
Qed.

End CompareFacts.

(** ** [Number] on the segments of a valid version *)

Module ParseFacts.
Import JsString JsNumber StringToNumber VersionSpec.

Lemma isDigit_range (c : ascii) :
  isDigit c = true <-> 48 <= codeUnit c <= 57.
Proof. unfold isDigit. rewrite andb_true_iff, !Z.leb_le. tauto. Qed.

Lemma digit_not_space (c : ascii) : isDigit c = true -> isWhiteSpace c = false.
Proof.
  rewrite isDigit_range. unfold isWhiteSpace. intros H.
  repeat (apply orb_false_iff; split);
    [apply andb_false_iff; right; apply Z.leb_gt | apply Z.eqb_neq ..]; lia.
Qed.

Lemma dropWhile_space_digits (l : list ascii) :
  forallb isDigit l = true -> dropWhile isWhiteSpace l = l.
Proof.
  destruct l as [|c l]; simpl; [reflexivity|].
  rewrite andb_true_iff. intros [Hc _]. now rewrite (digit_not_space c Hc).
Qed.

Lemma forallb_rev_true (f : ascii -> bool) (l : list ascii) :
  forallb f l = true -> forallb f (rev l) = true.
Proof.
  rewrite !forallb_forall. intros H x Hx. apply H. now apply in_rev.
Qed.

Lemma trimChars_digits (l : list ascii) :
  forallb isDigit l = true -> trimChars l = l.
Proof.
  intros H. unfold trimChars.
  rewrite (dropWhile_space_digits l H).
  rewrite (dropWhile_space_digits (rev l) (forallb_rev_true _ _ H)).
  apply rev_involutive.
Qed.

Lemma takeWhile_all (f : ascii -> bool) (l : list ascii) :
  forallb f l = true -> takeWhile f l = l.
Proof.
  induction l as [|c l IH]; simpl; [reflexivity|].
  rewrite andb_true_iff. intros [Hc Hl]. rewrite Hc. now rewrite IH.
Qed.

Lemma dropWhile_all (f : ascii -> bool) (l : list ascii) :
  forallb f l = true -> dropWhile f l = [].
Proof.
  induction l as [|c l IH]; simpl; [reflexivity|].
  rewrite andb_true_iff. intros [Hc Hl]. rewrite Hc. now apply IH.
Qed.

Lemma radixOf_digit (c : ascii) : isDigit c = true -> radixOf c = None.
Proof.
  rewrite isDigit_range. intros H. unfold radixOf.
  replace (codeUnit c =? 120) with false by (symmetry; apply Z.eqb_neq; lia).
  replace (codeUnit c =? 88) with false by (symmetry; apply Z.eqb_neq; lia).
  replace (codeUnit c =? 111) with false by (symmetry; apply Z.eqb_neq; lia).
  replace (codeUnit c =? 79) with false by (symmetry; apply Z.eqb_neq; lia).
  replace (codeUnit c =? 98) with false by (symmetry; apply Z.eqb_neq; lia).
  replace (codeUnit c =? 66) with false by (symmetry; apply Z.eqb_neq; lia).
  reflexivity.
Qed.

Lemma nonDecimal_digits (l : list ascii) :
  forallb isDigit l = true -> nonDecimal l = None.
Proof.
  destruct l as [|z [|p ds]]; simpl; try reflexivity.
  rewrite !andb_true_iff. intros (_ & Hp & _).
  rewrite (radixOf_digit p Hp). now destruct (codeUnit z =? 48).
Qed.

Lemma valueIn_nonneg (ds : list Z) (acc : Z) :
  0 <= acc -> Forall (fun d => 0 <= d) ds ->
  0 <= fold_left (fun a d => a * 10 + d) ds acc.
Proof.
  revert acc. induction ds as [|d ds IH]; intros acc Hacc Hds; simpl; [assumption|].
  inversion Hds; subst. apply IH; [lia | assumption].
Qed.

Lemma decimalValue_nonneg (l : list ascii) :
  forallb isDigit l = true -> 0 <= decimalValue l.
Proof.
  intros H. unfold decimalValue, valueIn. apply valueIn_nonneg; [lia|].
  apply Forall_map, Forall_forall. intros c Hc.
  rewrite forallb_forall in H. specialize (H c Hc).
  apply isDigit_range in H. unfold digitVal. lia.
Qed.

Lemma roundHalfEven_1 (p : Z) : roundHalfEven p 1 = p.
Proof.
  unfold roundHalfEven. rewrite Z.mod_1_r, Z.div_1_r. reflexivity.
Qed.

Lemma Qred_inject_Z (m : Z) : Qred (inject_Z m) = inject_Z m.
Proof.
  unfold Qred, inject_Z.
  pose proof (Z.ggcd_gcd m 1) as Hg.
  pose proof (Z.ggcd_correct_divisors m 1) as Hd.
  destruct (Z.ggcd m 1) as [g [aa bb]]. simpl in *.
  rewrite Z.gcd_1_r in Hg. subst g. destruct Hd as [Ha Hb].
  rewrite Z.mul_1_l in Ha, Hb. subst aa bb. reflexivity.
Qed.

Lemma floorLog2_int (m : Z) : 0 < m -> floorLog2 m 1 = Z.log2 m.
Proof.
  intros Hm. unfold floorLog2. change (Z.log2 1) with 0. rewrite Z.sub_0_r.
  pose proof (Z.log2_nonneg m) as Hn.
  pose proof (Z.log2_spec m Hm) as [Hlo _].
  replace (0 <=? Z.log2 m) with true by (symmetry; apply Z.leb_le; lia).
  replace (1 * 2 ^ Z.log2 m <=? m) with true by (symmetry; apply Z.leb_le; lia).
  reflexivity.
Qed.

(** Integers up to [2^53] are not rounded. *)
Lemma roundToDouble_exact (m : Z) :
  0 <= m <= 2 ^ 53 -> roundToDouble m 1 = ofZ m.
Proof.
  intros [Hlo Hhi].
  destruct (Z.eq_dec m 0) as [->|Hz]; [reflexivity|].
  destruct (Z.eq_dec m (2 ^ 53)) as [->|Hmax]; [vm_compute; reflexivity|].
  assert (Hm : 0 < m) by lia.
  unfold roundToDouble.
  replace (m =? 0) with false by (symmetry; apply Z.eqb_neq; lia).
  rewrite (floorLog2_int m Hm).
  pose proof (Z.log2_nonneg m) as Hn.
  assert (He : Z.log2 m < 53) by (apply Z.log2_lt_pow2; lia).
  rewrite Z.max_l by lia.
  replace (1023 <? Z.log2 m) with false by (symmetry; apply Z.ltb_ge; lia).
  replace (Z.log2 m =? 1023) with false by (symmetry; apply Z.eqb_neq; lia).
  simpl orb. cbv iota. unfold ofZ. f_equal. unfold scale2.
  destruct (0 <=? Z.log2 m - 52) eqn:Hu.
  - apply Z.leb_le in Hu. replace (Z.log2 m - 52) with 0 by lia.
    change (2 ^ 0) with 1. rewrite roundHalfEven_1. f_equal. lia.
  - apply Z.leb_gt in Hu. rewrite roundHalfEven_1.
    set (k := - (Z.log2 m - 52)).
    assert (Hk : 0 < 2 ^ k) by (apply Z.pow_pos_nonneg; unfold k; lia).
    rewrite <- (Qred_inject_Z m). apply Qred_complete.
    unfold Qeq, inject_Z. simpl. rewrite Z2Pos.id by lia. lia.
Qed.

Lemma not_Infinity (seg : string) :
  numericSegment seg = true -> String.eqb seg "Infinity" = false.
Proof.
  destruct seg as [|c seg]; [discriminate|].
  unfold numericSegment. simpl. rewrite andb_true_iff. intros [Hc _].
  destruct (Ascii.eqb_spec c "I") as [->|Hne]; [discriminate Hc | reflexivity].
Qed.

Lemma unsignedDecimal_digits (l : list ascii) :
  l <> [] -> forallb isDigit l = true ->
  unsignedDecimal l = Some (decimalValue l, 0).
Proof.
  intros Hne H. unfold unsignedDecimal.
  rewrite (takeWhile_all _ _ H), (dropWhile_all _ _ H). simpl.
  rewrite app_nil_r. destruct l; [contradiction | reflexivity].
Qed.

(** A numeric segment is read as its decimal value, rounded to a
    binary64 number. *)
Lemma Number_numericSegment (seg : string) :
  numericSegment seg = true ->
  Number seg = roundToDouble (decimalValue (chars seg)) 1.
Proof.
  intros Hseg. pose proof (not_Infinity seg Hseg) as Hinf.
  unfold numericSegment in Hseg. unfold Number.
  destruct (chars seg) as [|c l] eqn:Hl; [discriminate|].
  rewrite (trimChars_digits _ Hseg), (nonDecimal_digits _ Hseg).
  assert (Hc : 48 <= codeUnit c <= 57).
  { simpl in Hseg. apply andb_true_iff in Hseg. now apply isDigit_range. }
  replace (codeUnit c =? 43) with false by (symmetry; apply Z.eqb_neq; lia).
  replace (codeUnit c =? 45) with false by (symmetry; apply Z.eqb_neq; lia).
  unfold unsignedLiteral.
  replace (of_chars (c :: l)) with seg
    by (rewrite <- Hl; unfold of_chars, chars;
        now rewrite string_of_list_ascii_of_string).
  rewrite Hinf, (unsignedDecimal_digits (c :: l)) by (congruence || assumption).
  change (10 ^ 0) with 1. now rewrite Z.mul_1_r.
Qed.

Lemma Number_exact (seg : string) :
  numericSegment seg = true ->
  decimalValue (chars seg) <= 2 ^ 53 ->
  Number seg = ofZ (decimalValue (chars seg)).
Proof.
  intros Hseg Hle. rewrite (Number_numericSegment seg Hseg).
  apply roundToDouble_exact. split; [|assumption].
  apply decimalValue_nonneg. unfold numericSegment in Hseg.
  now destruct (chars seg).
Qed.

End ParseFacts.

(** ** The version comparator *)

Module VersionFacts.
Import JsString JsNumber StringToNumber Ide VersionSpec.
Import NumberFacts CompareFacts ParseFacts.

Lemma compareFrom_step (R L : list number) (n : nat) :
  compareFrom R L 0 (S n) =
    if lt (partAt L 0) (partAt R 0) then true
    else if lt (partAt R 0) (partAt L 0) then false
    else compareFrom (tl R) (tl L) 0 n.
Proof. simpl. unfold gt. now rewrite compareFrom_tail. Qed.

(** On integer parts the loop is the comparison of the specification. *)
Lemma compareFrom_newerSpec (rs ls : list Z) :
  compareFrom (map ofZ rs) (map ofZ ls) 0
    (Nat.max (List.length rs) (List.length ls)) = newerSpec rs ls.
Proof.
  revert ls. induction rs as [|r rs IH]; intros ls.
  - induction ls as [|l ls IHl]; [reflexivity|].
    change (Nat.max (List.length (@nil Z)) (List.length (l :: ls)))
      with (S (Nat.max (List.length (@nil Z)) (List.length ls))).
    rewrite compareFrom_step. cbn [map tl partAt nth_error].
    change zero with (ofZ 0). rewrite !lt_ofZ.
    change (map ofZ []) with (@nil number) in IHl. cbn [tl]. rewrite IHl.
    reflexivity.
  - destruct ls as [|l ls].
    + change (Nat.max (List.length (r :: rs)) (List.length (@nil Z)))
        with (S (List.length rs)).
      rewrite compareFrom_step. cbn [map tl partAt nth_error].
      change zero with (ofZ 0). rewrite !lt_ofZ.
      specialize (IH []). cbn [map List.length] in IH.
      rewrite Nat.max_0_r in IH. rewrite IH. reflexivity.
    + change (Nat.max (List.length (r :: rs)) (List.length (l :: ls)))
        with (S (Nat.max (List.length rs) (List.length ls))).
      rewrite compareFrom_step. cbn [map tl partAt nth_error].
      rewrite !lt_ofZ, IH. reflexivity.
Qed.

Lemma map_Number_exact (segs : list string) :
  forallb numericSegment segs = true ->
  forallb (fun z => z <=? 2 ^ 53)
          (map (fun seg => decimalValue (chars seg)) segs) = true ->
  map Number segs = map ofZ (map (fun seg => decimalValue (chars seg)) segs).
Proof.
  induction segs as [|seg segs IH]; [reflexivity|].
  cbn [forallb map]. rewrite !andb_true_iff. intros [Hseg Hsegs] [Hle Hles].
  apply Z.leb_le in Hle. now rewrite (Number_exact seg Hseg Hle), IH.
Qed.

Lemma versionParts_exact (v : string) :
  exactVersion v = true -> versionParts v = map ofZ (components v).
Proof.
  unfold exactVersion, validVersion, components, versionParts.
  rewrite andb_true_iff. intros [Hv Hle]. now apply map_Number_exact.
Qed.

(** C2. For valid dotted-numeric version strings [a] and [b],
    [isNewerVersion a b] and [isNewerVersion b a] are never both true,
    and [isNewerVersion a a] is false. *)
Theorem isNewerVersion_asymmetric_irreflexive (a b : string) :
  validVersion a = true -> validVersion b = true ->
  (isNewerVersion a b && isNewerVersion b a = false)
  /\ isNewerVersion a a = false.
Proof.
  intros _ _. split.
  - unfold isNewerVersion.
    destruct (compareFrom (versionParts a) (versionParts b) 0 _) eqn:Hab;
      [|reflexivity].
    apply compareFrom_asym in Hab. rewrite Nat.max_comm in Hab.
    now rewrite Hab.
  - apply compareFrom_same.
Qed.

Lemma isNewerVersion_asymmetric_irreflexive_witness :
  validVersion "1.2.3" = true /\ validVersion "1.10" = true
  /\ (isNewerVersion "1.2.3" "1.10" && isNewerVersion "1.10" "1.2.3" = false)
  /\ isNewerVersion "1.2.3" "1.2.3" = false.
Proof.
  split; [reflexivity|]. split; [reflexivity|].
  apply (isNewerVersion_asymmetric_irreflexive "1.2.3" "1.10"); reflexivity.
Defined.

(** C3, as the specification states it, for every valid version string:
    refuted by a component above [2^53], which [Number] rounds. *)
Lemma isNewerVersion_rounds_large_components :
  let remote := "9007199254740993" in
  let local := "9007199254740992" in
  validVersion remote = true /\ validVersion local = true
  /\ newerSpec (components remote) (components local) = true
  /\ isNewerVersion remote local = false.
Proof. vm_compute. repeat split. Qed.

(** C3, amended. For valid version strings whose components do not exceed
    [2^53], [isNewerVersion] is the component-wise comparison of the
    integers up to the longer segment count, a missing component counting
    as 0: true at the first component where remote is greater, false at
    the first where it is smaller, false when none differs.  And
    [isNewerVersion "1.0" "1.0.1"] is false, [isNewerVersion "1.0.1" "1.0"]
    is true. *)
Theorem isNewerVersion_componentwise (remote local : string) :
  exactVersion remote = true -> exactVersion local = true ->
  isNewerVersion remote local
    = newerSpec (components remote) (components local)
  /\ isNewerVersion "1.0" "1.0.1" = false
  /\ isNewerVersion "1.0.1" "1.0" = true.
Proof.
  intros Hr Hl. split; [|split; reflexivity].
  unfold isNewerVersion.
  rewrite (versionParts_exact remote Hr), (versionParts_exact local Hl).
  rewrite !length_map. apply compareFrom_newerSpec.
Qed.

Lemma isNewerVersion_componentwise_witness :
  exactVersion "2.0.10" = true /\ exactVersion "2.0.9.7" = true
  /\ isNewerVersion "2.0.10" "2.0.9.7" = true.
Proof.
  split; [reflexivity|]. split; [reflexivity|].
  destruct (isNewerVersion_componentwise "2.0.10" "2.0.9.7") as [H _];
    [reflexivity | reflexivity |].
  rewrite H. reflexivity.
Defined.

(** C10, as stated, has the components of empty segments parse to NaN:
    refuted by ["1..2"], whose empty segment [Number] reads as 0, so that
    none of its parts is NaN. *)
Lemma isNewerVersion_empty_segment_is_zero :
  split "." "1..2" = ["1"; EmptyString; "2"]
  /\ Number EmptyString = zero
  /\ versionParts "1..2" = [ofZ 1; zero; ofZ 2]
  /\ ~ In NaN (versionParts "1..2").
Proof.
  repeat split; try reflexivity.
  vm_compute. intros [H|[H|[H|[]]]]; discriminate H.
Qed.

(** C10, amended. [isNewerVersion] is a total function on arbitrary
    strings, and [isNewerVersion s s] is false for every string [s],
    whether its segments are numeric, non-numeric (parts that are NaN, as
    for ["beta"] or ["1a"]) or empty (parts that are 0): no comparison
    with NaN holds, no part is above or below itself, and the loop falls
    through to the final [false]. *)
Theorem isNewerVersion_self_false :
  (forall s : string, isNewerVersion s s = false)
  /\ (forall x : number,
        gt NaN x = false /\ lt NaN x = false
        /\ gt x NaN = false /\ lt x NaN = false)
  /\ (forall x : number, gt x x = false /\ lt x x = false)
  /\ Number "beta" = NaN /\ Number "1a" = NaN
  /\ Number EmptyString = zero.
Proof.
  split; [|split; [|split]].
  - intros s. apply compareFrom_same.
  - intros x. unfold gt. now rewrite !lt_NaN_l, !lt_NaN_r.
  - intros x. unfold gt. now rewrite lt_irrefl.
  - repeat split.
Qed.

End VersionFacts.

(** ** Computations that always return *)

Module Returns.
Import Effects Predicates.

Lemma returns_ret {A} (a : A) (P : A -> Prop) : P a -> returns (ret a) P.
Proof. intros H s. now exists a, s. Qed.

Lemma returns_bind {A B} (m : M A) (k : A -> M B) (Q : B -> Prop) :
  returns m (fun _ => True) -> (forall a, returns (k a) Q) ->
  returns (bind m k) Q.
Proof.
  intros Hm Hk s. destruct (Hm s) as (a & s' & Hs & _).
  destruct (Hk a s') as (b & s'' & Hs' & Hb).
  exists b, s''. unfold bind. now rewrite Hs.
Qed.

Lemma returns_emit (e : event) : returns (emit e) (fun _ => True).
Proof. intros s. now eexists _, _. Qed.

(** A handler that returns makes the guarded block return, provided the
    block cannot end the process. *)
Lemma returns_tryCatch {A} (m : M A) (h : error -> M A) :
  (forall s c s', m s <> (Exit c, s')) ->
  (forall e, returns (h e) (fun _ => True)) ->
  returns (tryCatch m h) (fun _ => True).
Proof.
  intros Hm Hh s. unfold tryCatch.
  destruct (m s) as [[a|e|c] s'] eqn:Hs.
  - now exists a, s'.
  - destruct (Hh e s') as (a & s'' & Hs' & _). now exists a, s''.
  - now destruct (Hm s c s').
Qed.

End Returns.

(** ** The dependency report *)

Module DepsFacts.
Import Effects Node Host Deps Predicates Returns.

Lemma execAsync_no_exit (w : world) (cmd : string) (s : state) (c : Z) (s' : state) :
  execAsync w cmd s <> (Exit c, s').
Proof.
  unfold execAsync, bind, emit, throw, ret. destruct (exec w cmd); simpl; congruence.
Qed.

Lemma commandExists_returns (w : world) (command : string) :
  returns (commandExists w command) (fun _ => True).
Proof.
  unfold commandExists. apply returns_tryCatch.
  - intros s c s'.
    destruct (String.eqb (platform w) "win32");
      unfold execAsync, bind, emit, ret, throw;
      match goal with |- context [exec w ?cmd] => destruct (exec w cmd) end;
      simpl; congruence.
  - intros e. now apply returns_ret.
Qed.

Lemma getVersion_returns (w : world) (command : string) :
  returns (getVersion w command) (fun _ => True).
Proof.
  unfold getVersion. apply returns_tryCatch.
  - intros s c s'. unfold execAsync, bind, emit, ret, throw.
    match goal with |- context [exec w ?cmd] => destruct (exec w cmd) end;
      simpl; congruence.
  - intros e. now apply returns_ret.
Qed.

Lemma detectOS_returns (w : world) : returns (detectOS w) (fun _ => True).
Proof.
  unfold detectOS.
  destruct (String.eqb (platform w) "darwin"); [now apply returns_ret|].
  destruct (String.eqb (platform w) "win32"); [now apply returns_ret|].
  apply returns_bind.
  - apply returns_tryCatch.
    + intros s c s'. unfold execAsync, bind, emit, ret, throw.
      match goal with |- context [exec w ?cmd] => destruct (exec w cmd) end;
        [simpl; congruence|].
      simpl.
      repeat match goal with
             | |- context [if ?b then _ else _] => destruct b
             end; simpl; congruence.
    + intros e. now apply returns_ret.
  - intros [os|]; now apply returns_ret.
Qed.

Ltac returns_step :=
  match goal with
  | |- returns (bind _ _) _ => apply returns_bind; [| intros ?]
  | |- returns (ret _) _ => apply returns_ret; try exact I
  | |- returns (output_info _) _ => apply returns_emit
  | |- returns (output_success _) _ => apply returns_emit
  | |- returns (output_warn _) _ => apply returns_emit
  | |- returns (output_error _) _ => apply returns_emit
  | |- returns (stdout_write _) _ => apply returns_emit
  | |- returns (commandExists _ _) _ => apply commandExists_returns
  | |- returns (getVersion _ _) _ => apply getVersion_returns
  | |- returns (detectOS _) _ => apply detectOS_returns
  | |- returns (if ?b then _ else _) _ => destruct b
  | |- returns (match ?x with _ => _ end) _ => destruct x
  | |- returns (let _ := _ in _) _ => cbv zeta
  end.

Lemma flagMatchesLists_mk (cli web : list string) (i n : string) :
  flagMatchesLists
    (mkResult ((0 <? List.length cli)%nat || (0 <? List.length web)%nat)
              cli web i n).
Proof.
  unfold flagMatchesLists. simpl.
  rewrite orb_true_iff, !Nat.ltb_lt. lia.
Qed.

Lemma checkDependencies_returns (w : world) (skipDeps : bool) :
  returns (checkDependencies w skipDeps) flagMatchesLists.
Proof.
  unfold checkDependencies. destruct skipDeps.
  - apply returns_ret. unfold flagMatchesLists. simpl. split; [discriminate | lia].
  - repeat returns_step. apply flagMatchesLists_mk.
Qed.

(** C4. [checkDependencies(true)] runs no probe and no OS detection (the
    trace of calls is left as it was) and returns the report with
    [hasErrors = false], empty [missingCli] and [missingWeb], and the OS
    given as ["unknown"] / ["Unknown"]. *)
Theorem checkDependencies_skip (w : world) (s : state) :
  checkDependencies w true s
  = (Ret (mkResult false [] [] "unknown" "Unknown"), s).
Proof. reflexivity. Qed.

(** C5. For either value of the skip argument and whatever the probes
    answer, [checkDependencies] returns a report, and in it [hasErrors]
    is true exactly when [missingCli] and [missingWeb] together have at
    least one entry. *)
Theorem checkDependencies_hasErrors_iff_missing
        (w : world) (skipDeps : bool) (s : state) :
  exists (r : DependencyCheckResult) (s' : state),
    checkDependencies w skipDeps s = (Ret r, s')
    /\ (hasErrors r = true
        <-> (0 < List.length (missingCli r) + List.length (missingWeb r))%nat).
Proof. apply checkDependencies_returns. Qed.

End DepsFacts.

(** ** The file-system tree *)

Module FsFacts.
Import Fs.

Lemma lookupEntry_setEntry_same (x : string) (v : node) (es : list (string * node)) :
  lookupEntry x (setEntry x v es) = Some v.
Proof.
  induction es as [|[k w] es IH]; simpl.
  - now rewrite String.eqb_refl.
  - destruct (String.eqb k x) eqn:Hk; simpl; now rewrite Hk.
Qed.

Lemma lookup_app (p q : path) (n : node) :
  lookup (p ++ q)%list n =
    match lookup p n with
    | Some m => lookup q m
    | None => None
    end.
Proof.
  revert n. induction p as [|x p IH]; intros n; simpl; [reflexivity|].
  destruct n as [c|es]; [reflexivity|].
  destruct (lookupEntry x es); [apply IH | reflexivity].
Qed.

Lemma place_lookup (p : path) (v n n' : node) :
  place p v n = Some n' -> lookup p n' = Some v.
Proof.
  revert n n'. induction p as [|x p IH]; intros n n'; simpl.
  - congruence.
  - destruct n as [c|es]; [discriminate|].
    destruct (place p v (childOr x es)) as [c'|] eqn:Hp; [|discriminate].
    intros [= <-]. simpl. rewrite lookupEntry_setEntry_same. eauto.
Qed.

(** A file can be put into an existing directory. *)
Lemma place_in_dir (p : path) (x : string) (v n : node) (es : list (string * node)) :
  lookup p n = Some (Dir es) -> exists n', place (p ++ [x])%list v n = Some n'.
Proof.
  revert n. induction p as [|y p IH]; intros n; simpl.
  - intros [= ->]. eauto.
  - destruct n as [c|es']; [discriminate|].
    unfold childOr. destruct (lookupEntry y es') as [c|]; [|discriminate].
    intros H. destruct (IH c H) as [n' Hn']. rewrite Hn'. eauto.
Qed.

Lemma lookup_parent (p : path) (x : string) (n m : node) :
  lookup (p ++ [x])%list n = Some m -> exists es, lookup p n = Some (Dir es).
Proof.
  rewrite lookup_app. destruct (lookup p n) as [[c|es]|]; simpl; try discriminate.
  eauto.
Qed.

End FsFacts.

(** ** The template installer *)

Module InitFacts.
Import Effects Node Host Init InstallSpec FsFacts.
Import JsString.

(** Unfold the effect combinators and the calls that only log. *)
Ltac run_eff :=
  repeat progress
    (unfold bind, tryCatch, tryFinally, emit, ret, throw, processExit,
       getFs, putFs, stdout_write, output_info, output_success, output_warn,
       output_error, output_spinner, question;
     cbv beta iota zeta; cbn [fs trace negb]).

Lemma access_run (p : path) (s : state) :
  access p s =
    (if Fs.exists_ p (fs s) then Ret tt else Throw (fsError "ENOENT" p),
     mkState (fs s) (trace s ++ [Access p])).
Proof.
  unfold access, bind, emit, getFs, ret, throw. cbn.
  now destruct (Fs.exists_ p (fs s)).
Qed.

Lemma checkConflictsFrom_spec (target : path) (folders conflicts : list string)
      (s : state) :
  exists s',
    checkConflictsFrom target folders conflicts s
    = (Ret (conflicts ++ existing folders target (fs s))%list, s')
    /\ fs s' = fs s.
Proof.
  revert conflicts s. induction folders as [|folder rest IH]; intros conflicts s.
  - exists s. cbn. now rewrite app_nil_r.
  - cbn [checkConflictsFrom existing filter].
    unfold bind at 1. unfold tryCatch, bind at 1. rewrite access_run.
    destruct (Fs.exists_ (Fs.join target folder) (fs s)) eqn:Hex; cbn [ret].
    + destruct (IH (conflicts ++ [folder])%list
                   (mkState (fs s) (trace s ++ [Access (Fs.join target folder)])))
        as (s' & Hs' & Hfs).
      exists s'. rewrite Hs'. cbn [fs] in *. unfold existing.
      rewrite <- app_assoc. now split.
    + destruct (IH conflicts
                   (mkState (fs s) (trace s ++ [Access (Fs.join target folder)])))
        as (s' & Hs' & Hfs).
      exists s'. rewrite Hs'. cbn [fs] in *. now split.
Qed.

(** C7, as the specification states it, with [.gitignore] among the
    names tested: refuted by a target that holds a [.gitignore] only. *)
Lemma checkConflicts_ignores_gitignore :
  let root := Dir [("proj", Dir [(".gitignore", File "node_modules")])] in
  existing installPlan ["proj"] root = [".gitignore"]
  /\ fst (run (checkConflicts ["proj"]) root) = Ret [].
Proof. vm_compute. split; reflexivity. Qed.

(** C7, amended. [checkConflicts] tests the three folder names
    [.claude/commands/agents], [.devflow] and [docs] (the InstallPlan
    without [.gitignore]) under the target and returns exactly those
    that exist, in that order, leaving the file system as it was; for a
    target that holds [.devflow] and neither of the other two it returns
    the list with just [.devflow]. *)
Theorem checkConflicts_existing_folders (target : path) (s : state) :
  (exists s',
      checkConflicts target s
      = (Ret (existing [".claude/commands/agents"; ".devflow"; "docs"]
                       target (fs s)), s')
      /\ fs s' = fs s)
  /\ (Fs.exists_ (Fs.join target ".devflow") (fs s) = true ->
      Fs.exists_ (Fs.join target "docs") (fs s) = false ->
      Fs.exists_ (Fs.join target ".claude/commands/agents") (fs s) = false ->
      fst (checkConflicts target s) = Ret [".devflow"]).
Proof.
  destruct (checkConflictsFrom_spec target foldersToCheck [] s) as (s' & Hs' & Hfs).
  split.
  - exists s'. now split.
  - intros Hd Hdocs Hagents. unfold checkConflicts. rewrite Hs'.
    unfold existing, foldersToCheck. cbn [filter app fst].
    now rewrite Hd, Hdocs, Hagents.
Qed.

Lemma checkConflicts_existing_folders_witness :
  fst (checkConflicts ["home"; "dev"; "proj"] (mkState Examples.project []))
  = Ret [".devflow"].
Proof.
  apply (checkConflicts_existing_folders
           ["home"; "dev"; "proj"] (mkState Examples.project []));
    reflexivity.
Defined.


Lemma listConflicts_run (conflicts : list string) (s : state) :
  exists s', listConflicts conflicts s = (Ret tt, s') /\ fs s' = fs s.
Proof.
  revert s. induction conflicts as [|c cs IH]; intros s; cbn [listConflicts].
  - now exists s.
  - unfold bind, stdout_write, emit.
    destruct (IH (mkState (fs s) (trace s ++ [StdoutWrite ("  - " ++ c ++ newline)])))
      as (s' & Hs' & Hfs).
    exists s'. now rewrite Hs'.
Qed.

Lemma lowerChar_y (c : ascii) :
  lowerChar c = "y"%char <-> c = "y"%char \/ c = "Y"%char.
Proof.
  destruct c as [[] [] [] [] [] [] [] []]; vm_compute;
    (split; [intros H; try discriminate H; auto
            | intros [H|H]; try discriminate H; reflexivity]).
Qed.

(** The answers taken as "yes": those that begin with [y] or [Y]. *)
Lemma yes_iff (answer : string) :
  startsWith (toLowerCase answer) "y" = true
  <-> exists rest, answer = String "y" rest \/ answer = String "Y" rest.
Proof.
  unfold startsWith. destruct answer as [|c rest]; cbn [toLowerCase String.prefix].
  - split; [discriminate | intros [r [H|H]]; discriminate H].
  - destruct (ascii_dec "y" (lowerChar c)) as [Heq|Hne].
    + symmetry in Heq. apply lowerChar_y in Heq.
      split; [intros _ | now destruct (toLowerCase rest)].
      exists rest. destruct Heq as [->| ->]; auto.
    + split; [discriminate|]. intros [r [[= -> ->]|[= -> ->]]];
        exfalso; apply Hne; reflexivity.
Qed.

Lemma conflictGate_run (w : world) (conflicts : list string) (s : state) :
  (0 < List.length conflicts)%nat ->
  exists s',
    conflictGate w conflicts s
    = (if startsWith (toLowerCase (answer w)) "y" then Ret tt else Exit 0, s')
    /\ fs s' = fs s.
Proof.
  intros Hne. unfold conflictGate.
  destruct conflicts as [|c cs]; [inversion Hne|]. cbn [List.length Nat.ltb Nat.leb].
  unfold bind at 1. unfold stdout_write at 1, emit at 1.
  unfold bind at 1. unfold output_warn at 1, emit at 1. cbn [fs trace].
  unfold bind at 1.
  match goal with |- context [listConflicts ?l ?st] =>
    destruct (listConflicts_run l st) as (s1 & Hs1 & Hfs1); rewrite Hs1 end.
  cbn [fs] in Hfs1. run_eff.
  destruct (startsWith (toLowerCase (answer w)) "y"); run_eff;
    eexists; (split; [reflexivity | exact Hfs1]).
Qed.

(** C6, as the specification states it: refuted by answers that are not
    negative (no leading "n") and still abandon the installation. *)
Lemma conflictGate_abandons_without_no :
  negativeAnswer "ok" = false
  /\ fst (conflictGate (Examples.host "ok") [".devflow"] (mkState Examples.project []))
     = Exit 0
  /\ negativeAnswer EmptyString = false
  /\ fst (conflictGate (Examples.host EmptyString) [".devflow"] (mkState Examples.project []))
     = Exit 0.
Proof. vm_compute. repeat split. Qed.

(** C6, amended. With conflicts to confirm, the gate continues exactly
    when the answer begins with "y" (in either case); every other
    answer, a leading "n" and the empty answer among them, abandons the
    installation with [process.exit(0)].  The gate itself changes
    nothing in the file system. *)
Theorem conflictGate_continues_iff_yes (w : world) (conflicts : list string)
        (s : state) :
  (0 < List.length conflicts)%nat ->
  (exists s',
      conflictGate w conflicts s
      = (if startsWith (toLowerCase (answer w)) "y" then Ret tt else Exit 0, s')
      /\ fs s' = fs s)
  /\ (startsWith (toLowerCase (answer w)) "y" = true
      <-> exists rest,
           answer w = String "y" rest \/ answer w = String "Y" rest).
Proof.
  intros Hne. split; [now apply conflictGate_run | apply yes_iff].
Qed.

Lemma conflictGate_continues_iff_yes_witness :
  fst (conflictGate (Examples.host "Yes") [".devflow"] (mkState Examples.project []))
  = Ret tt
  /\ fst (conflictGate (Examples.host "no") [".devflow"] (mkState Examples.project []))
     = Exit 0.
Proof.
  split.
  - destruct (conflictGate_continues_iff_yes
                (Examples.host "Yes") [".devflow"] (mkState Examples.project []))
      as [(s' & Hrun & _) _]; [simpl; lia|].
    rewrite Hrun. reflexivity.
  - destruct (conflictGate_continues_iff_yes
                (Examples.host "no") [".devflow"] (mkState Examples.project []))
      as [(s' & Hrun & _) _]; [simpl; lia|].
    rewrite Hrun. reflexivity.
Defined.


Lemma exists_lookup (p : path) (n m : node) :
  Fs.lookup p n = Some m -> Fs.exists_ p n = true.
Proof. unfold Fs.exists_. now intros ->. Qed.

Lemma exists_none (p : path) (n : node) :
  Fs.lookup p n = None -> Fs.exists_ p n = false.
Proof. unfold Fs.exists_. now intros ->. Qed.

Lemma writeCount_app (t u : list event) :
  writeCount (t ++ u) = (writeCount t + writeCount u)%nat.
Proof. unfold writeCount. now rewrite filter_app, length_app. Qed.

Lemma mergeGitignore_copy (temp target : path) (s : state) (t : string)
      (es : list (string * node)) :
  Fs.lookup (Fs.join temp ".gitignore") (fs s) = Some (File t) ->
  Fs.lookup target (fs s) = Some (Dir es) ->
  Fs.lookup (Fs.join target ".gitignore") (fs s) = None ->
  exists s',
    mergeGitignore temp target s = (Ret tt, s')
    /\ Fs.lookup (Fs.join target ".gitignore") (fs s') = Some (File t)
    /\ writeCount (trace s') = S (writeCount (trace s)).
Proof.
  intros Hsrc Hdir Hdst.
  destruct (place_in_dir target ".gitignore" (File t) (fs s) es Hdir) as [root' Hplace].
  change (target ++ [".gitignore"])%list with (Fs.join target ".gitignore") in Hplace.
  unfold mergeGitignore. run_eff. rewrite access_run, (exists_lookup _ _ _ Hsrc).
  run_eff. rewrite access_run. cbn [fs trace]. rewrite (exists_none _ _ Hdst).
  unfold cp. run_eff. rewrite Hsrc, Hdst, Hplace. run_eff.
  eexists. split; [reflexivity|]. cbn [fs trace]. split.
  - exact (place_lookup _ _ _ _ Hplace).
  - rewrite !writeCount_app. cbn. lia.
Qed.

Lemma mergeGitignore_append (temp target : path) (s : state) (t e : string) :
  Fs.lookup (Fs.join temp ".gitignore") (fs s) = Some (File t) ->
  Fs.lookup (Fs.join target ".gitignore") (fs s) = Some (File e) ->
  exists s',
    mergeGitignore temp target s = (Ret tt, s')
    /\ Fs.lookup (Fs.join target ".gitignore") (fs s')
       = Some (File (e ++ newline ++ t))
    /\ writeCount (trace s') = S (writeCount (trace s)).
Proof.
  intros Hsrc Hdst.
  change (Fs.join target ".gitignore") with (target ++ [".gitignore"])%list in Hdst.
  destruct (lookup_parent _ _ _ _ Hdst) as [es Hdir].
  destruct (place_in_dir target ".gitignore" (File (e ++ newline ++ t)) (fs s) es Hdir)
    as [root' Hplace].
  change (target ++ [".gitignore"])%list with (Fs.join target ".gitignore")
    in Hplace, Hdst.
  unfold mergeGitignore. run_eff. rewrite access_run, (exists_lookup _ _ _ Hsrc).
  run_eff. rewrite access_run. cbn [fs trace]. rewrite (exists_lookup _ _ _ Hdst).
  unfold readFile. run_eff. rewrite Hdst. run_eff. rewrite Hsrc. run_eff.
  unfold writeFile. run_eff. rewrite Hdst.
  change (removelast (Fs.join target ".gitignore"))
    with (removelast (target ++ [".gitignore"])%list).
  rewrite removelast_last, Hdir, Hplace. run_eff.
  eexists. split; [reflexivity|]. cbn [fs trace]. split.
  - exact (place_lookup _ _ _ _ Hplace).
  - rewrite !writeCount_app. cbn. lia.
Qed.

(** C8. In the [.gitignore] step, with a [.gitignore] in the template:
    if the target directory has none, its [.gitignore] becomes the
    template's content unchanged; if it has one, the step makes exactly
    one file write and the content becomes the original content, one
    newline, then the template's content. *)
Theorem mergeGitignore_copies_or_appends (temp target : path) (s : state)
        (t : string) :
  Fs.lookup (Fs.join temp ".gitignore") (fs s) = Some (File t) ->
  (forall es,
      Fs.lookup target (fs s) = Some (Dir es) ->
      Fs.lookup (Fs.join target ".gitignore") (fs s) = None ->
      exists s',
        mergeGitignore temp target s = (Ret tt, s')
        /\ Fs.lookup (Fs.join target ".gitignore") (fs s') = Some (File t))
  /\ (forall e,
        Fs.lookup (Fs.join target ".gitignore") (fs s) = Some (File e) ->
        exists s',
          mergeGitignore temp target s = (Ret tt, s')
          /\ Fs.lookup (Fs.join target ".gitignore") (fs s')
             = Some (File (e ++ newline ++ t))
          /\ writeCount (trace s') = S (writeCount (trace s))).
Proof.
  intros Hsrc. split.
  - intros es Hdir Hdst.
    destruct (mergeGitignore_copy temp target s t es Hsrc Hdir Hdst)
      as (s' & Hrun & Hfile & _).
    now exists s'.
  - intros e Hdst. now apply mergeGitignore_append.
Qed.


Lemma mergeGitignore_copies_or_appends_witness :
  exists s',
    mergeGitignore ["proj"; "tmp"] ["proj"] (mkState Examples.withGitignore [])
    = (Ret tt, s')
    /\ Fs.lookup ["proj"; ".gitignore"] (fs s')
       = Some (File ("node_modules" ++ newline ++ ".devflow/sessions"))
    /\ writeCount (trace s') = 1%nat.
Proof.
  destruct (mergeGitignore_copies_or_appends
              ["proj"; "tmp"] ["proj"] (mkState Examples.withGitignore [])
              ".devflow/sessions" eq_refl) as [_ Happend].
  exact (Happend "node_modules" eq_refl).
Defined.

Lemma mkdir_run (p : path) (s : state) (r : node) :
  Fs.mkdirp p (fs s) = Some r ->
  mkdir p s = (Ret tt, mkState r (trace s ++ [Mkdir p])).
Proof. intros H. unfold mkdir. run_eff. now rewrite H. Qed.

Lemma gitClone_run (w : world) (dest : path) (s : state) (out : string) (r : node) :
  exec w ("git clone " ++ REPO_URL ++ " " ++ dquote ++ Fs.render dest ++ dquote)
  = ExecOk out ->
  Fs.place dest (cloned w) (fs s) = Some r ->
  exists t, gitClone w dest s = (Ret tt, mkState r (trace s ++ t)).
Proof.
  intros Hexec Hplace. unfold gitClone, execAsync. run_eff.
  rewrite Hexec. run_eff. rewrite Hplace. eexists. reflexivity.
Qed.

Lemma bind_ret_run {A B} (m : M A) (k : A -> M B) (s s' : state) (a : A) :
  m s = (Ret a, s') -> bind m k s = k a s'.
Proof. intros H. unfold bind. now rewrite H. Qed.

Lemma bind_exit_run {A B} (m : M A) (k : A -> M B) (s s' : state) (c : Z) :
  m s = (Exit c, s') -> bind m k s = (Exit c, s').
Proof. intros H. unfold bind. now rewrite H. Qed.

(** A process that has exited inside [try] does not enter [finally]. *)
Lemma tryFinally_exit_run {A} (m : M A) (f : M unit) (s s' : state) (c : Z) :
  m s = (Exit c, s') -> tryFinally m f s = (Exit c, s').
Proof. intros H. unfold tryFinally. now rewrite H. Qed.

(** Whenever the target can be created, the clone succeeds, a conflict
    is found and the answer is not a yes, the process exits with status 0
    and the file system is the one right after the clone: the temp
    workspace is in it. *)
Lemma decline_skips_cleanup (w : world) (folder : option string) (s : state)
      (out : string) (created cloned' : node) :
  let target := targetOf w folder in
  let temp := tempOf w folder in
  Fs.mkdirp target (fs s) = Some created ->
  exec w ("git clone " ++ REPO_URL ++ " " ++ dquote ++ Fs.render temp ++ dquote)
  = ExecOk out ->
  Fs.place temp (cloned w) created = Some cloned' ->
  (0 < List.length (existing foldersToCheck target cloned'))%nat ->
  startsWith (toLowerCase (answer w)) "y" = false ->
  exists s',
    initializeProject w folder s = (Exit 0, s')
    /\ fs s' = cloned'
    /\ Fs.lookup temp (fs s') = Some (cloned w).
Proof.
  intros target temp Hmk Hexec Hplace Hconf Hno.
  unfold initializeProject. cbv zeta. fold target. fold temp.
  rewrite (bind_ret_run _ _ _ _ _ (mkdir_run _ _ _ Hmk)). cbv beta.
  match goal with
  | |- context [tryFinally ?body ?fin] =>
      assert (Hbody : exists s', body (mkState created (trace s ++ [Mkdir target]))
                                 = (Exit 0, s') /\ fs s' = cloned')
  end.
  { match goal with
    | |- context [bind (output_spinner ?msg) ?k ?st] =>
        change (bind (output_spinner msg) k st)
          with (k (emit SpinnerStop) (mkState (fs st) (trace st ++ [SpinnerStart msg])))
    end.
    cbv beta. cbn [fs trace].
    unfold bind at 1. unfold tryFinally at 1.
    match goal with
    | |- context [gitClone w temp ?st] =>
        destruct (gitClone_run w temp st out cloned' Hexec Hplace) as [t Ht]
    end.
    rewrite Ht. run_eff.
    match goal with
    | |- context [checkConflicts target ?st] =>
        destruct (checkConflictsFrom_spec target foldersToCheck [] st)
          as (s3 & Hs3 & Hfs3)
    end.
    unfold checkConflicts. rewrite Hs3. cbn [app fs] in *.
    destruct (conflictGate_run w (existing foldersToCheck target cloned') s3)
      as (s4 & Hs4 & Hfs4); [exact Hconf|].
    rewrite Hs4, Hno.
    exists s4. split; [reflexivity | congruence]. }
  destruct Hbody as (s' & Hbody & Hfs).
  exists s'. split; [|split].
  - apply bind_exit_run. now apply tryFinally_exit_run.
  - exact Hfs.
  - rewrite Hfs. exact (place_lookup _ _ _ _ Hplace).
Qed.

(** C1, the code at a decline.  With [.devflow] present, a successful
    clone and the answer "n", [initializeProject] ends the process with
    status 0 and leaves [.claude], [.devflow] and [docs] as they were;
    but [process.exit] is called inside the [try] block, so the
    [finally] block never runs: no [rm] is issued and the cloned temp
    workspace is still in the target. *)
Theorem initializeProject_decline_keeps_temp :
  let w := Examples.host "n" in
  let target := ["home"; "dev"; "proj"] in
  let temp := tempOf w None in
  let r := run (initializeProject w None) Examples.project in
  fst r = Exit 0
  /\ Fs.lookup (target ++ [".devflow"])%list (fs (snd r))
     = Fs.lookup (target ++ [".devflow"])%list Examples.project
  /\ Fs.lookup (target ++ [".claude"])%list (fs (snd r)) = None
  /\ Fs.lookup (target ++ ["docs"])%list (fs (snd r)) = None
  /\ temp = (target ++ [".devflow-temp-1700000000000"])%list
  /\ Fs.lookup temp (fs (snd r)) = Some Examples.template
  /\ existsb isRm (trace (snd r)) = false.
Proof. vm_compute. repeat split. Qed.

(** The same run with the answer "y" goes through the [finally] block
    and removes the temp workspace. *)
Example initializeProject_accept_removes_temp :
  let w := Examples.host "y" in
  let r := run (initializeProject w None) Examples.project in
  fst r = Ret tt
  /\ Fs.lookup (tempOf w None) (fs (snd r)) = None
  /\ existsb isRm (trace (snd r)) = true.
Proof. vm_compute. repeat split. Qed.

End InitFacts.

(** ** Calls only ever extend the trace *)

Module TraceFacts.
Import Effects Node Host Predicates.

Lemma extends_ret {A} (a : A) : extends (ret a).
Proof. intros s. exists []. cbn. now rewrite app_nil_r. Qed.

Lemma extends_throw {A} (e : error) : extends (@throw A e).
Proof. intros s. exists []. cbn. now rewrite app_nil_r. Qed.

Lemma extends_emit (e : event) : extends (emit e).
Proof. intros s. now exists [e]. Qed.

Lemma extends_getFs : extends getFs.
Proof. intros s. exists []. cbn. now rewrite app_nil_r. Qed.

Lemma extends_putFs (n : node) : extends (putFs n).
Proof. intros s. exists []. cbn. now rewrite app_nil_r. Qed.

Lemma extends_bind {A B} (m : M A) (k : A -> M B) :
  extends m -> (forall a, extends (k a)) -> extends (bind m k).
Proof.
  intros Hm Hk s. unfold bind. destruct (Hm s) as [t Ht].
  destruct (m s) as [[a|e|c] s']; cbn in *; eauto.
  destruct (Hk a s') as [u Hu]. exists (t ++ u)%list.
  now rewrite Hu, Ht, app_assoc.
Qed.

Lemma extends_tryCatch {A} (m : M A) (h : error -> M A) :
  extends m -> (forall e, extends (h e)) -> extends (tryCatch m h).
Proof.
  intros Hm Hh s. unfold tryCatch. destruct (Hm s) as [t Ht].
  destruct (m s) as [[a|e|c] s']; cbn in *; eauto.
  destruct (Hh e s') as [u Hu]. exists (t ++ u)%list.
  now rewrite Hu, Ht, app_assoc.
Qed.

Lemma extends_tryFinally {A} (m : M A) (f : M unit) :
  extends m -> extends f -> extends (tryFinally m f).
Proof.
  intros Hm Hf s. unfold tryFinally. destruct (Hm s) as [t Ht].
  destruct (m s) as [[a|e|c] s']; cbn in *; eauto;
    destruct (Hf s') as [u Hu]; exists (t ++ u)%list;
    destruct (f s') as [[[]|e'|c'] s'']; cbn in *;
    now rewrite Hu, Ht, app_assoc.
Qed.

Lemma extends_spinner {B} (msg : string) (k : M unit -> M B) :
  extends (k (emit SpinnerStop)) -> extends (bind (output_spinner msg) k).
Proof.
  intros Hk s.
  change (bind (output_spinner msg) k s)
    with (k (emit SpinnerStop) (mkState (fs s) (trace s ++ [SpinnerStart msg]))).
  destruct (Hk (mkState (fs s) (trace s ++ [SpinnerStart msg]))) as [t Ht].
  exists (SpinnerStart msg :: t). cbn [trace] in Ht. now rewrite Ht, <- app_assoc.
Qed.

Ltac extends_step :=
  match goal with
  | |- extends (bind (output_spinner _) _) => apply extends_spinner
  | |- extends (bind _ _) => apply extends_bind; [| intros ?]
  | |- extends (tryCatch _ _) => apply extends_tryCatch; [| intros ?]
  | |- extends (tryFinally _ _) => apply extends_tryFinally
  | |- extends (ret _) => apply extends_ret
  | |- extends (throw _) => apply extends_throw
  | |- extends (emit _) => apply extends_emit
  | |- extends getFs => apply extends_getFs
  | |- extends (putFs _) => apply extends_putFs
  | |- extends (if ?b then _ else _) => destruct b
  | |- extends (match ?x with _ => _ end) => destruct x
  end.

Ltac extends_prims :=
  unfold access, mkdir, rm, readFile, writeFile, cp, readdir, execAsync,
    output_info, output_success, output_warn, output_error, stdout_write;
  repeat extends_step.

Lemma extends_access (p : path) : extends (access p).
Proof. extends_prims. Qed.
Lemma extends_mkdir (p : path) : extends (mkdir p).
Proof. extends_prims. Qed.
Lemma extends_rm (p : path) : extends (rm p).
Proof. extends_prims. Qed.
Lemma extends_cp (p q : path) : extends (cp p q).
Proof. extends_prims. Qed.
Lemma extends_readdir (p : path) : extends (readdir p).
Proof. extends_prims. Qed.
Lemma extends_output_success (m : string) : extends (output_success m).
Proof. extends_prims. Qed.

Lemma extends_gitClone (w : world) (p : path) : extends (Init.gitClone w p).
Proof. unfold Init.gitClone. extends_prims. Qed.

Lemma extends_copyDirectoryFuel (fuel : nat) (source target : path) :
  extends (Init.copyDirectoryFuel fuel source target).
Proof.
  revert source target. induction fuel as [|fuel IH]; intros source target;
    cbn [Init.copyDirectoryFuel].
  - apply extends_throw.
  - apply extends_bind; [apply extends_readdir|]. intros entries.
    induction entries as [|[entryName isDir] rest IHe].
    + apply extends_ret.
    + apply extends_bind; [|intros _; exact IHe].
      destruct isDir; [|apply extends_cp].
      apply extends_bind; [apply extends_mkdir | intros _; apply IH].
Qed.

Lemma extends_copyDirectory (source target : path) :
  extends (Init.copyDirectory source target).
Proof. intros s. apply extends_copyDirectoryFuel. Qed.

Lemma extends_setupWebFolder (w : world) (packageRoot webTargetPath : path)
      (replace : bool) :
  extends (IdeUpdate.setupWebFolder w packageRoot webTargetPath replace).
Proof.
  unfold IdeUpdate.setupWebFolder.
  repeat first
    [ apply extends_gitClone | apply extends_copyDirectory
    | apply extends_rm | apply extends_mkdir | apply extends_output_success
    | extends_step ].
Qed.

End TraceFacts.

(** ** Updating the web folder *)

Module IdeFacts.
Import Effects Node Host Ide IdeUpdate InstallSpec Predicates TraceFacts.
Import JsString.
Import InitFacts.

Lemma getLocalVersion_run (w : world) (webPath : path) (s : state) :
  getLocalVersion w webPath s
  = (Ret (localVersionOf w webPath (fs s)),
     mkState (fs s) (trace s ++ [ReadFile (Fs.join webPath "package.json")])).
Proof.
  unfold getLocalVersion, readFile, localVersionOf. run_eff.
  destruct (Fs.lookup (Fs.join webPath "package.json") (fs s)) as [[c|es]|];
    run_eff; try reflexivity.
  destruct (jsonVersion w c); reflexivity.
Qed.

Lemma getRemoteVersion_run (w : world) (s : state) :
  getRemoteVersion w s
  = (Ret (remoteVersionOf w),
     mkState (fs s) (trace s ++ [Fetch REMOTE_PACKAGE_JSON_URL])).
Proof.
  unfold getRemoteVersion, remoteVersionOf. run_eff.
  destruct (fetched w REMOTE_PACKAGE_JSON_URL) as [|[] body]; run_eff;
    try reflexivity.
  destruct (jsonVersion w body); reflexivity.
Qed.

Lemma checkForUpdate_run (w : world) (webPath : path) (s : state) :
  checkForUpdate w webPath s
  = (Ret (mkCheck (localVersionOf w webPath (fs s)) (remoteVersionOf w)
                  (negb (noUpdate (localVersionOf w webPath (fs s))
                                  (remoteVersionOf w)))),
     mkState (fs s)
             (trace s ++ [ReadFile (Fs.join webPath "package.json");
                          Fetch REMOTE_PACKAGE_JSON_URL])).
Proof.
  unfold checkForUpdate. unfold bind at 1. rewrite getLocalVersion_run.
  unfold bind at 1. rewrite getRemoteVersion_run. cbn [fs trace ret].
  rewrite <- app_assoc. cbn [app]. unfold ret, noUpdate.
  destruct (localVersionOf w webPath (fs s)), (remoteVersionOf w);
    cbn [negb]; rewrite ?negb_involutive; reflexivity.
Qed.

Lemma pathExists_run (p : path) (s : state) :
  pathExists p s
  = (Ret (Fs.exists_ p (fs s)), mkState (fs s) (trace s ++ [Access p])).
Proof.
  unfold pathExists. run_eff. rewrite access_run.
  now destruct (Fs.exists_ p (fs s)).
Qed.

Lemma bind_assoc_run {A B C} (m : M A) (k1 : A -> M B) (k2 : B -> M C)
      (s : state) :
  bind (bind m k1) k2 s = bind m (fun a => bind (k1 a) k2) s.
Proof. unfold bind. now destruct (m s) as [[a|e|c] s']. Qed.

(** C9. When the web folder exists, [updateIde] starts with the version
    check (the reads of the local and the remote version come before any
    other call); and if the local version is not older than the remote
    one, or either cannot be determined, it reports "already up to date"
    and does nothing else: no clone, and the file system is as before. *)
Theorem updateIde_checks_versions_first (w : world) (s : state) :
  let web := Fs.join (packageRoot w) "web" in
  let check := [Access web; ReadFile (Fs.join web "package.json");
                Fetch REMOTE_PACKAGE_JSON_URL] in
  Fs.exists_ web (fs s) = true ->
  (exists rest, trace (snd (updateIde w s)) = (trace s ++ check ++ rest)%list)
  /\ (noUpdate (localVersionOf w web (fs s)) (remoteVersionOf w) = true ->
      exists msg,
        updateIde w s
        = (Ret tt, mkState (fs s) (trace s ++ check ++ [Out Success msg])%list)
        /\ startsWith msg "DevFlow IDE is already up to date" = true).
Proof.
  intros web check Hweb. split.
  - unfold updateIde. cbv zeta. fold web.
    unfold bind at 1. rewrite pathExists_run, Hweb. cbv beta iota.
    rewrite bind_assoc_run. unfold bind at 1. rewrite checkForUpdate_run.
    cbv beta iota. cbn [fs trace].
    match goal with
    | |- context [snd (?m ?st)] =>
        assert (Hext : extends m);
        [| destruct (Hext st) as [t Ht]; exists t; rewrite Ht ]
    end.
    + repeat first [ apply extends_setupWebFolder | extends_prims ].
    + cbn [trace]. unfold check. now rewrite <- !app_assoc.
  - intros Hno. unfold updateIde. cbv zeta. fold web.
    unfold bind at 1. rewrite pathExists_run, Hweb. cbv beta iota.
    rewrite bind_assoc_run. unfold bind at 1. rewrite checkForUpdate_run.
    cbv beta iota. cbn [fs trace hasUpdate localVersion remoteVersion].
    rewrite Hno. cbn [negb]. unfold check.
    destruct (JsString.truthy (localVersionOf w web (fs s))) as [l|];
      [destruct (JsString.truthy (remoteVersionOf w)) as [r|]|];
      run_eff; rewrite <- !app_assoc; cbn [app];
      eexists; (split; [reflexivity | reflexivity]).
Qed.


Lemma updateIde_checks_versions_first_witness :
  exists msg,
    updateIde Examples.ideHost (mkState Examples.installed [])
    = (Ret tt,
       mkState Examples.installed
               [Access ["opt"; "devflow"; "web"];
                ReadFile ["opt"; "devflow"; "web"; "package.json"];
                Fetch REMOTE_PACKAGE_JSON_URL;
                Out Success msg])
    /\ startsWith msg "DevFlow IDE is already up to date" = true.
Proof.
  destruct (updateIde_checks_versions_first
              Examples.ideHost (mkState Examples.installed []) eq_refl)
    as [_ Hsame].
  exact (Hsame eq_refl).
Defined.

End IdeFacts.

(** ** The comparator as an order *)

Module OrderFacts.
Import JsString JsNumber StringToNumber Ide VersionSpec OrderSpec.
Import NumberFacts CompareFacts ParseFacts.

(** One step of the comparison of the specification, whatever the lengths. *)
Lemma newerSpec_unfold (r l : list Z) :
  newerSpec r l = firstPair (hd 0 r) (hd 0 l) (newerSpec (tl r) (tl l)).
Proof.
  destruct r as [|a r], l as [|b l]; try reflexivity.
Qed.

Lemma newerSpec_trans_bounded (n : nat) (r l m : list Z) :
  (List.length r <= n)%nat -> (List.length l <= n)%nat -> (List.length m <= n)%nat ->
  newerSpec r l = true -> newerSpec l m = true -> newerSpec r m = true.
Proof.
  revert r l m. induction n as [|n IH]; intros r l m Hr Hl Hm.
  - destruct r, l, m; simpl in *; try lia; discriminate.
  - rewrite (newerSpec_unfold r l), (newerSpec_unfold l m), (newerSpec_unfold r m).
    assert (Hr' : (List.length (tl r) <= n)%nat) by (destruct r; simpl in *; lia).
    assert (Hl' : (List.length (tl l) <= n)%nat) by (destruct l; simpl in *; lia).
    assert (Hm' : (List.length (tl m) <= n)%nat) by (destruct m; simpl in *; lia).
    specialize (IH (tl r) (tl l) (tl m) Hr' Hl' Hm').
    unfold firstPair.
    destruct (Z.ltb_spec (hd 0 l) (hd 0 r)), (Z.ltb_spec (hd 0 r) (hd 0 l)),
             (Z.ltb_spec (hd 0 m) (hd 0 l)), (Z.ltb_spec (hd 0 l) (hd 0 m)),
             (Z.ltb_spec (hd 0 m) (hd 0 r)), (Z.ltb_spec (hd 0 r) (hd 0 m));
      try lia; try discriminate; auto.
Qed.


Lemma isNewerVersion_exact (r l : string) :
  exactVersion r = true -> exactVersion l = true ->
  isNewerVersion r l = newerSpec (components r) (components l).
Proof.
  intros Hr Hl. unfold isNewerVersion.
  rewrite (VersionFacts.versionParts_exact r Hr), (VersionFacts.versionParts_exact l Hl).
  rewrite !length_map. apply VersionFacts.compareFrom_newerSpec.
Qed.

Lemma Qltb_lt (x y : Q) : Qltb x y = true <-> (x < y)%Q.
Proof. unfold Qltb, Qlt. apply Z.ltb_lt. Qed.

Lemma Qltb_ge (x y : Q) : Qltb x y = false <-> (y <= x)%Q.
Proof. unfold Qltb, Qle. rewrite Z.ltb_ge. reflexivity. Qed.

Lemma lt_trans (a b c : number) :
  lt a b = true -> lt b c = true -> lt a c = true.
Proof.
  destruct a, b, c; simpl; try congruence.
  rewrite !Qltb_lt. apply Qlt_trans.
Qed.

(** [c <= b < a] gives [c < a], for a number [c]. *)
Lemma le_lt_trans (a b c : number) :
  isNumber c -> lt b c = false -> lt b a = true -> lt c a = true.
Proof.
  unfold isNumber. destruct a, b, c; simpl; try congruence.
  rewrite Qltb_ge, !Qltb_lt. intros _. apply Qle_lt_trans.
Qed.

(** [c < b <= a] gives [c < a], for a number [a]. *)
Lemma lt_le_trans (a b c : number) :
  isNumber a -> lt c b = true -> lt a b = false -> lt c a = true.
Proof.
  unfold isNumber. destruct a, b, c; simpl; try congruence.
  rewrite Qltb_ge, !Qltb_lt. intros _ H1 H2. exact (Qlt_le_trans _ _ _ H1 H2).
Qed.

(** [c <= b <= a] gives [c <= a], for a number [b]. *)
Lemma le_trans (a b c : number) :
  isNumber b -> lt a b = false -> lt b c = false -> lt a c = false.
Proof.
  unfold isNumber. destruct a, b, c; simpl; try congruence.
  rewrite !Qltb_ge. intros _ H1 H2. exact (Qle_trans _ _ _ H2 H1).
Qed.

Lemma partAt_isNumber (parts : list number) (i : nat) :
  allNumbers parts = true -> isNumber (partAt parts i).
Proof.
  unfold allNumbers, partAt, isNumber. rewrite forallb_forall. intros H.
  destruct (nth_error parts i) as [x|] eqn:Hx; [|discriminate].
  apply nth_error_In in Hx. specialize (H x Hx). now destruct x.
Qed.

Lemma compareFrom_trans (A B C : list number) (n i : nat) :
  allNumbers A = true -> allNumbers B = true -> allNumbers C = true ->
  compareFrom A B i n = true -> compareFrom B C i n = true ->
  compareFrom A C i n = true.
Proof.
  intros HA HB HC. revert i. induction n as [|n IH]; intros i; simpl; [congruence|].
  unfold gt.
  pose proof (partAt_isNumber A i HA) as Ha.
  pose proof (partAt_isNumber B i HB) as Hb.
  pose proof (partAt_isNumber C i HC) as Hc.
  destruct (lt (partAt B i) (partAt A i)) eqn:Hba.
  - intros _.
    destruct (lt (partAt C i) (partAt B i)) eqn:Hcb.
    + intros _. now rewrite (lt_trans _ _ _ Hcb Hba).
    + destruct (lt (partAt B i) (partAt C i)) eqn:Hbc; [congruence|]. intros _.
      now rewrite (le_lt_trans _ _ _ Hc Hbc Hba).
  - destruct (lt (partAt A i) (partAt B i)) eqn:Hab; [congruence|]. intros Hrest.
    destruct (lt (partAt C i) (partAt B i)) eqn:Hcb.
    + intros _. now rewrite (lt_le_trans _ _ _ Ha Hcb Hab).
    + destruct (lt (partAt B i) (partAt C i)) eqn:Hbc; [congruence|]. intros Hrest'.
      rewrite (le_trans _ _ _ Hb Hcb Hba), (le_trans _ _ _ Hb Hab Hbc).
      now apply IH.
Qed.

(** Past the end of both lists every iteration compares 0 with 0. *)
Lemma compareFrom_beyond (R L : list number) (n i : nat) :
  (List.length R <= i)%nat -> (List.length L <= i)%nat ->
  compareFrom R L i n = false.
Proof.
  revert i. induction n as [|n IH]; intros i HR HL; simpl; [reflexivity|].
  unfold partAt, gt.
  rewrite (proj2 (nth_error_None R i) HR), (proj2 (nth_error_None L i) HL).
  simpl. apply IH; lia.
Qed.

Lemma compareFrom_extend (R L : list number) (n k i : nat) :
  (List.length R <= i + n)%nat -> (List.length L <= i + n)%nat ->
  compareFrom R L i (n + k) = compareFrom R L i n.
Proof.
  revert i. induction n as [|n IH]; intros i HR HL.
  - simpl. apply compareFrom_beyond; lia.
  - simpl. rewrite IH by lia. reflexivity.
Qed.

(** The loop may as well run up to any bound past both lengths. *)
Lemma isNewerVersion_upto (r l : string) (N : nat) :
  (List.length (versionParts r) <= N)%nat ->
  (List.length (versionParts l) <= N)%nat ->
  isNewerVersion r l = compareFrom (versionParts r) (versionParts l) 0 N.
Proof.
  intros Hr Hl. unfold isNewerVersion.
  set (n := Nat.max _ _).
  replace N with (n + (N - n))%nat by (unfold n; lia).
  symmetry. apply compareFrom_extend; unfold n; lia.
Qed.

Lemma roundToDouble_isNumber (p q : Z) : isNumber (roundToDouble p q).
Proof.
  unfold isNumber, roundToDouble, zero.
  destruct (p =? 0); [discriminate|].
  match goal with |- context [if ?b then PosInf else _] => destruct b end;
    discriminate.
Qed.

Lemma validVersion_allNumbers (v : string) :
  validVersion v = true -> allNumbers (versionParts v) = true.
Proof.
  unfold validVersion, allNumbers, versionParts. rewrite !forallb_forall.
  intros H x Hx. apply in_map_iff in Hx. destruct Hx as (seg & <- & Hseg).
  rewrite (Number_numericSegment seg (H seg Hseg)).
  pose proof (roundToDouble_isNumber (decimalValue (chars seg)) 1) as Hn.
  unfold isNumber in Hn. now destruct (roundToDouble _ _).
Qed.

(** X1. On valid dotted-numeric version strings, whatever the size of
    their components, "newer than" is transitive: if [a] is newer than
    [b] and [b] newer than [c], then [a] is newer than [c]. *)
Theorem isNewerVersion_transitive (a b c : string) :
  validVersion a = true -> validVersion b = true -> validVersion c = true ->
  isNewerVersion a b = true -> isNewerVersion b c = true ->
  isNewerVersion a c = true.
Proof.
  intros Ha Hb Hc.
  set (N := Nat.max (List.length (versionParts a))
                    (Nat.max (List.length (versionParts b))
                             (List.length (versionParts c)))).
  rewrite (isNewerVersion_upto a b N), (isNewerVersion_upto b c N),
          (isNewerVersion_upto a c N) by (unfold N; lia).
  apply compareFrom_trans; now apply validVersion_allNumbers.
Qed.

Lemma isNewerVersion_transitive_witness :
  isNewerVersion "2.1" "2.0.5" = true /\ isNewerVersion "2.0.5" "1.9" = true
  /\ isNewerVersion "2.1" "1.9" = true.
Proof.
  split; [reflexivity|]. split; [reflexivity|].
  apply (isNewerVersion_transitive "2.1" "2.0.5" "1.9"); reflexivity.
Defined.

(** X2. With a segment that is not a number the order breaks: a NaN part
    is skipped, so ["1.2"] is newer than ["x.1"] and ["x.1"] newer than
    ["2.0"] although ["1.2"] is not newer than ["2.0"]; and a version can
    be neither newer nor older than a different one. *)
Theorem isNewerVersion_not_transitive_with_NaN :
  ~ (forall a b c : string,
        isNewerVersion a b = true -> isNewerVersion b c = true ->
        isNewerVersion a c = true).
Proof.
  intros H. specialize (H "1.2" "x.1" "2.0" eq_refl eq_refl). discriminate H.
Qed.

End OrderFacts.

(** ** What the tree operations leave alone *)

Module FrameFacts.
Import Fs Frame FsFacts.
Local Open Scope list_scope.

Lemma lookupEntry_setEntry_other (x y : string) (v : node) (es : list (string * node)) :
  x <> y -> lookupEntry y (setEntry x v es) = lookupEntry y es.
Proof.
  intros Hne. induction es as [|[k w] es IH]; simpl.
  - destruct (String.eqb_spec x y); [contradiction | reflexivity].
  - destruct (String.eqb_spec k x) as [->|Hk]; simpl.
    + destruct (String.eqb_spec x y); [contradiction | reflexivity].
    + destruct (String.eqb k y); [reflexivity | exact IH].
Qed.

Lemma lookupEntry_removeEntry_other (x y : string) (es : list (string * node)) :
  x <> y -> lookupEntry y (removeEntry x es) = lookupEntry y es.
Proof.
  intros Hne. induction es as [|[k w] es IH]; simpl; [reflexivity|].
  destruct (String.eqb_spec k x) as [->|Hk]; simpl.
  - destruct (String.eqb_spec x y); [contradiction | reflexivity].
  - destruct (String.eqb k y); [reflexivity | exact IH].
Qed.

Lemma setEntry_same (x : string) (c : node) (es : list (string * node)) :
  lookupEntry x es = Some c -> setEntry x c es = es.
Proof.
  induction es as [|[k w] es IH]; simpl; [discriminate|].
  destruct (String.eqb_spec k x) as [->|Hk].
  - now intros [= ->].
  - intros H. now rewrite IH.
Qed.

Lemma diverges_nonempty (p q : path) : diverges p q = true -> q <> [].
Proof. destruct p, q; simpl; congruence. Qed.

Lemma lookup_empty_dir (q : path) : q <> [] -> lookup q (Dir []) = None.
Proof. destruct q; [congruence | reflexivity]. Qed.

Lemma diverges_app (pre p q : path) :
  diverges (pre ++ p) (pre ++ q) = diverges p q.
Proof.
  induction pre as [|a pre IH]; simpl; [reflexivity|].
  now rewrite String.eqb_refl.
Qed.

Lemma diverges_extend (p r q : path) :
  diverges p q = true -> diverges (p ++ r) q = true.
Proof.
  revert q. induction p as [|a p IH]; intros q; simpl; [discriminate|].
  destruct q as [|b q]; [discriminate|].
  destruct (String.eqb a b); [apply IH | reflexivity].
Qed.

Lemma diverges_extend_r (p q r : path) :
  diverges p q = true -> diverges p (q ++ r) = true.
Proof.
  revert q. induction p as [|a p IH]; intros q; simpl; [discriminate|].
  destruct q as [|b q]; [discriminate|]. simpl.
  destruct (String.eqb a b); [apply IH | reflexivity].
Qed.

Lemma diverges_sym (p q : path) : diverges p q = diverges q p.
Proof.
  revert q. induction p as [|a p IH]; intros [|b q]; simpl; try reflexivity.
  rewrite (String.eqb_sym a b). destruct (String.eqb b a); [apply IH | reflexivity].
Qed.

(** [place] changes nothing at the paths that part ways with its own. *)
Lemma lookup_place_diverges (p q : path) (v n n' : node) :
  diverges p q = true -> place p v n = Some n' -> lookup q n' = lookup q n.
Proof.
  revert q n n'. induction p as [|x p IH]; intros q n n'; simpl; [discriminate|].
  destruct q as [|y q]; [discriminate|].
  destruct n as [c|es]; [discriminate|].
  destruct (place p v (childOr x es)) as [c'|] eqn:Hp; [|discriminate].
  intros Hd [= <-]. simpl.
  destruct (String.eqb_spec x y) as [->|Hne].
  - rewrite lookupEntry_setEntry_same. rewrite (IH q _ _ Hd Hp).
    unfold childOr. destruct (lookupEntry y es); [reflexivity|].
    apply lookup_empty_dir. now apply diverges_nonempty in Hd.
  - now rewrite lookupEntry_setEntry_other.
Qed.

Lemma lookup_mkdirp_diverges (p q : path) (n n' : node) :
  diverges p q = true -> mkdirp p n = Some n' -> lookup q n' = lookup q n.
Proof.
  revert q n n'. induction p as [|x p IH]; intros q n n'; [discriminate|].
  destruct q as [|y q]; [discriminate|]. simpl.
  destruct n as [c|es]; [discriminate|].
  destruct (mkdirp p (childOr x es)) as [c'|] eqn:Hp; [|discriminate].
  intros Hd [= <-]. simpl.
  destruct (String.eqb_spec x y) as [->|Hne].
  - rewrite lookupEntry_setEntry_same. rewrite (IH q _ _ Hd Hp).
    unfold childOr. destruct (lookupEntry y es); [reflexivity|].
    apply lookup_empty_dir. now apply diverges_nonempty in Hd.
  - now rewrite lookupEntry_setEntry_other.
Qed.

Lemma lookup_remove_diverges (p q : path) (n : node) :
  diverges p q = true -> lookup q (remove p n) = lookup q n.
Proof.
  revert q n. induction p as [|x p IH]; intros q n; [discriminate|].
  destruct q as [|y q]; [discriminate|]. simpl diverges.
  destruct n as [c|es]; [now destruct p|].
  intros Hd.
  destruct p as [|x' p'].
  - destruct (String.eqb_spec x y) as [->|Hne]; [discriminate|].
    simpl. now rewrite lookupEntry_removeEntry_other.
  - cbn [remove]. destruct (lookupEntry x es) as [c|] eqn:Hx; [|reflexivity].
    simpl. destruct (String.eqb_spec x y) as [->|Hne].
    + rewrite lookupEntry_setEntry_same, Hx. now apply IH.
    + now rewrite lookupEntry_setEntry_other.
Qed.

(** [mkdir -p] never loses anything that is there: every path that
    resolved before resolves to a file with the same content, or to a
    directory still. *)
Lemma lookup_mkdirp_file (p q : path) (n n' : node) (c : string) :
  mkdirp p n = Some n' -> lookup q n = Some (File c) -> lookup q n' = Some (File c).
Proof.
  revert q n n'. induction p as [|x p IH]; intros q n n'; simpl.
  - destruct n; [discriminate|]. now intros [= <-].
  - destruct n as [c0|es]; [discriminate|].
    destruct (mkdirp p (childOr x es)) as [c'|] eqn:Hp; [|discriminate].
    intros [= <-]. destruct q as [|y q]; [discriminate|]. simpl.
    destruct (String.eqb_spec x y) as [->|Hne].
    + rewrite lookupEntry_setEntry_same. unfold childOr in Hp.
      destruct (lookupEntry y es) as [d|]; [|discriminate].
      now apply IH.
    + now rewrite lookupEntry_setEntry_other.
Qed.

(** After [mkdir -p] the path is a directory. *)
Lemma lookup_mkdirp_same (p : path) (n n' : node) :
  mkdirp p n = Some n' -> exists es, lookup p n' = Some (Dir es).
Proof.
  revert n n'. induction p as [|x p IH]; intros n n'; simpl.
  - destruct n; [discriminate|]. intros [= <-]. eauto.
  - destruct n as [c0|es]; [discriminate|].
    destruct (mkdirp p (childOr x es)) as [c'|] eqn:Hp; [|discriminate].
    intros [= <-]. simpl. rewrite lookupEntry_setEntry_same. eauto.
Qed.

End FrameFacts.

(** ** Relations that every step of a computation keeps *)

Module KeepFacts.
Import Effects Node Host Init Frame.
Local Open Scope list_scope.

Section Keeps.
Variable Q : node -> node -> Prop.
Hypothesis Q_refl : forall n, Q n n.
Hypothesis Q_trans : forall a b c, Q a b -> Q b c -> Q a c.

Lemma keeps_ret {A} (a : A) : keeps Q (ret a).
Proof. intros s. apply Q_refl. Qed.

Lemma keeps_throw {A} (e : error) : keeps Q (@throw A e).
Proof. intros s. apply Q_refl. Qed.

Lemma keeps_processExit {A} (c : Z) : keeps Q (@processExit A c).
Proof. intros s. apply Q_refl. Qed.

Lemma keeps_emit (e : event) : keeps Q (emit e).
Proof. intros s. apply Q_refl. Qed.

Lemma keeps_getFs : keeps Q getFs.
Proof. intros s. apply Q_refl. Qed.

Lemma keeps_bind {A B} (m : M A) (k : A -> M B) :
  keeps Q m -> (forall a, keeps Q (k a)) -> keeps Q (bind m k).
Proof.
  intros Hm Hk s. unfold bind. specialize (Hm s).
  destruct (m s) as [[a|e|c] s']; cbn [snd] in *; try exact Hm.
  exact (Q_trans _ _ _ Hm (Hk a s')).
Qed.

Lemma keeps_tryCatch {A} (m : M A) (h : error -> M A) :
  keeps Q m -> (forall e, keeps Q (h e)) -> keeps Q (tryCatch m h).
Proof.
  intros Hm Hh s. unfold tryCatch. specialize (Hm s).
  destruct (m s) as [[a|e|c] s']; cbn [snd] in *; try exact Hm.
  exact (Q_trans _ _ _ Hm (Hh e s')).
Qed.

Lemma keeps_tryFinally {A} (m : M A) (f : M unit) :
  keeps Q m -> keeps Q f -> keeps Q (tryFinally m f).
Proof.
  intros Hm Hf s. unfold tryFinally. specialize (Hm s).
  destruct (m s) as [[a|e|c] s']; cbn [snd] in *; try exact Hm;
    specialize (Hf s'); destruct (f s') as [[[]|e'|c'] s'']; cbn [snd] in *;
    exact (Q_trans _ _ _ Hm Hf).
Qed.

Lemma keeps_spinner {B} (msg : string) (k : M unit -> M B) :
  keeps Q (k (emit SpinnerStop)) -> keeps Q (bind (output_spinner msg) k).
Proof.
  intros Hk s.
  change (bind (output_spinner msg) k s)
    with (k (emit SpinnerStop) (mkState (fs s) (trace s ++ [SpinnerStart msg]))).
  exact (Hk (mkState (fs s) (trace s ++ [SpinnerStart msg]))).
Qed.

Lemma keeps_access (p : path) : keeps Q (access p).
Proof.
  intros s. unfold access, bind, emit, getFs, ret, throw. cbn.
  destruct (Fs.exists_ p (fs s)); apply Q_refl.
Qed.

Lemma keeps_readFile (p : path) : keeps Q (readFile p).
Proof.
  intros s. unfold readFile, bind, emit, getFs, ret, throw. cbn.
  destruct (Fs.lookup p (fs s)) as [[c|es]|]; apply Q_refl.
Qed.

Lemma keeps_readdir (p : path) : keeps Q (readdir p).
Proof.
  intros s. unfold readdir, bind, emit, getFs, ret, throw. cbn.
  destruct (Fs.lookup p (fs s)) as [[c|es]|]; apply Q_refl.
Qed.

Lemma keeps_execAsync (w : world) (cmd : string) : keeps Q (execAsync w cmd).
Proof.
  intros s. unfold execAsync, bind, emit, ret, throw. cbn.
  destruct (exec w cmd); apply Q_refl.
Qed.

Lemma keeps_question (w : world) (prompt : string) : keeps Q (question w prompt).
Proof. intros s. apply Q_refl. Qed.

Lemma keeps_mkdir (p : path) :
  (forall n n', Fs.mkdirp p n = Some n' -> Q n n') -> keeps Q (mkdir p).
Proof.
  intros H s. unfold mkdir, bind, emit, getFs, putFs, throw. cbn.
  destruct (Fs.mkdirp p (fs s)) as [n'|] eqn:Hm; cbn; [now apply H | apply Q_refl].
Qed.

Lemma keeps_rm (p : path) :
  (forall n, Q n (Fs.remove p n)) -> keeps Q (rm p).
Proof. intros H s. apply H. Qed.

Lemma keeps_cp (src dst : path) :
  (forall c n n', Fs.place dst (File c) n = Some n' -> Q n n') ->
  keeps Q (cp src dst).
Proof.
  intros H s. unfold cp, bind, emit, getFs, putFs, throw. cbn.
  destruct (Fs.lookup src (fs s)) as [[c|es]|]; cbn; try apply Q_refl.
  destruct (Fs.lookup dst (fs s)) as [[c'|es']|]; cbn; try apply Q_refl;
    destruct (Fs.place dst (File c) (fs s)) as [n'|] eqn:Hp; cbn;
    try apply Q_refl; now apply (H c).
Qed.

Lemma keeps_writeFile (p : path) (content : string) :
  (forall c n n', Fs.place p (File c) n = Some n' -> Q n n') ->
  keeps Q (writeFile p content).
Proof.
  intros H s. unfold writeFile, bind, emit, getFs, putFs, throw. cbn.
  destruct (Fs.lookup p (fs s)) as [[c|es]|];
    destruct (Fs.lookup (removelast p) (fs s)) as [[c'|es']|]; cbn;
    try apply Q_refl;
    destruct (Fs.place p (File content) (fs s)) as [n'|] eqn:Hp; cbn;
    try apply Q_refl; now apply (H content).
Qed.

Lemma keeps_gitClone (w : world) (dest : path) :
  (forall n n', Fs.place dest (cloned w) n = Some n' -> Q n n') ->
  keeps Q (gitClone w dest).
Proof.
  intros H s. unfold gitClone, execAsync, bind, emit, getFs, putFs, ret, throw. cbn.
  destruct (exec w _); cbn; [apply Q_refl|].
  destruct (Fs.place dest (cloned w) (fs s)) as [n'|] eqn:Hp; cbn;
    [now apply H | apply Q_refl].
Qed.

(** The paths the computation may write to. *)
Variable allowed : path -> Prop.
Hypothesis allowed_mkdir :
  forall p, allowed p -> forall n n', Fs.mkdirp p n = Some n' -> Q n n'.
Hypothesis allowed_file :
  forall p, allowed p -> forall c n n', Fs.place p (File c) n = Some n' -> Q n n'.
Hypothesis allowed_below : forall p x, allowed p -> allowed (p ++ [x]).

Lemma keeps_copyDirectoryFuel (fuel : nat) (source target : path) :
  allowed target -> keeps Q (copyDirectoryFuel fuel source target).
Proof.
  revert source target. induction fuel as [|fuel IH]; intros source target Ht;
    cbn [copyDirectoryFuel].
  - apply keeps_throw.
  - apply keeps_bind; [apply keeps_readdir|]. intros entries.
    induction entries as [|[entryName isDir] rest IHe].
    + apply keeps_ret.
    + apply keeps_bind; [|intros _; exact IHe].
      destruct isDir.
      * apply keeps_bind; [|intros _; apply IH; now apply allowed_below].
        apply keeps_mkdir, allowed_mkdir. now apply allowed_below.
      * apply keeps_cp, allowed_file. now apply allowed_below.
Qed.

Lemma keeps_copyDirectory (source target : path) :
  allowed target -> keeps Q (copyDirectory source target).
Proof. intros Ht s. now apply keeps_copyDirectoryFuel. Qed.

Hypothesis allowed_rm : forall p, allowed p -> forall n, Q n (Fs.remove p n).

Lemma allowed_app (p r : path) : allowed p -> allowed (p ++ r).
Proof.
  intros Hp. induction r as [|x r IH] using rev_ind.
  - now rewrite app_nil_r.
  - rewrite app_assoc. now apply allowed_below.
Qed.

Ltac keeps_unfold :=
  unfold output_info, output_success, output_warn, output_error, stdout_write,
    question.

Ltac keeps_side :=
  first [ assumption | apply allowed_app; assumption ].

Ltac keeps_step :=
  first
    [ apply keeps_spinner
    | apply keeps_ret | apply keeps_throw | apply keeps_processExit
    | apply keeps_emit | apply keeps_access | apply keeps_readFile
    | apply keeps_readdir
    | apply keeps_mkdir, allowed_mkdir; keeps_side
    | apply keeps_rm, allowed_rm; keeps_side
    | apply keeps_cp, allowed_file; keeps_side
    | apply keeps_writeFile, allowed_file; keeps_side
    | apply keeps_copyDirectory; keeps_side
    | apply keeps_tryCatch; [| intros ?]
    | apply keeps_tryFinally
    | apply keeps_bind; [| intros ?]
    | match goal with
      | |- keeps _ (if ?b then _ else _) => destruct b
      | |- keeps _ (match ?x with _ => _ end) => destruct x
      end ].

Lemma keeps_listConflicts (conflicts : list string) :
  keeps Q (listConflicts conflicts).
Proof.
  induction conflicts as [|c cs IH]; cbn [listConflicts]; keeps_unfold.
  - apply keeps_ret.
  - apply keeps_bind; [apply keeps_emit | intros _; exact IH].
Qed.

Lemma keeps_checkConflictsFrom (target : path) (folders conflicts : list string) :
  keeps Q (checkConflictsFrom target folders conflicts).
Proof.
  revert conflicts. induction folders as [|f rest IH]; intros conflicts;
    cbn [checkConflictsFrom].
  - apply keeps_ret.
  - cbv zeta. apply keeps_bind; [|intros c'; apply IH]. repeat keeps_step.
Qed.

Lemma keeps_conflictGate (w : world) (conflicts : list string) :
  keeps Q (conflictGate w conflicts).
Proof.
  unfold conflictGate. keeps_unfold.
  repeat first [ apply keeps_listConflicts | keeps_step ].
Qed.


Lemma keeps_agentsBlock (temp target : path) :
  allowed (target ++ [".claude"]) -> keeps Q (Blocks.agentsBlock temp target).
Proof.
  intros Ht. unfold Blocks.agentsBlock. cbv zeta. keeps_unfold.
  change (target ++ [".claude"; "commands"; "agents"])
    with (target ++ ([".claude"] ++ ["commands"; "agents"])).
  change (target ++ [".claude"; "commands"])
    with (target ++ ([".claude"] ++ ["commands"])).
  rewrite !app_assoc. repeat keeps_step.
Qed.

Lemma keeps_devflowBlock (temp target : path) :
  allowed (target ++ [".devflow"]) -> keeps Q (Blocks.devflowBlock temp target).
Proof.
  intros Ht. unfold Blocks.devflowBlock. cbv zeta. keeps_unfold.
  repeat keeps_step.
Qed.



Lemma keeps_mergeGitignore_at (temp target : path) :
  allowed (target ++ [".gitignore"]) -> keeps Q (mergeGitignore temp target).
Proof.
  intros Ht. unfold mergeGitignore. cbv zeta. keeps_unfold.
  change (Fs.join target ".gitignore") with (target ++ [".gitignore"]).
  repeat keeps_step.
Qed.

(** [initializeProject] keeps what its parts keep. *)
Lemma keeps_initializeProject_parts (w : world) (folder : option string) :
  (forall n n', Fs.mkdirp (targetOf w folder) n = Some n' -> Q n n') ->
  (forall n n', Fs.place (tempOf w folder) (cloned w) n = Some n' -> Q n n') ->
  keeps Q (copyDevFlowFiles (tempOf w folder) (targetOf w folder)) ->
  keeps Q (mergeGitignore (tempOf w folder) (targetOf w folder)) ->
  (forall n, Q n (Fs.remove (tempOf w folder) n)) ->
  keeps Q (initializeProject w folder).
Proof.
  intros Hmk Hclone Hcopy Hmerge Hrm.
  unfold initializeProject. cbv zeta. keeps_unfold.
  repeat first
    [ apply keeps_gitClone; exact Hclone
    | apply keeps_checkConflictsFrom
    | apply keeps_conflictGate
    | exact Hcopy
    | exact Hmerge
    | apply keeps_mkdir; exact Hmk
    | apply keeps_rm; exact Hrm
    | keeps_step ].
Qed.




Lemma keeps_commandExists (w : world) (command : string) :
  keeps Q (Deps.commandExists w command).
Proof. unfold Deps.commandExists. repeat first [apply keeps_execAsync | keeps_step]. Qed.

Lemma keeps_getVersion (w : world) (command : string) :
  keeps Q (Deps.getVersion w command).
Proof. unfold Deps.getVersion. repeat first [apply keeps_execAsync | keeps_step]. Qed.

Lemma keeps_detectOS (w : world) : keeps Q (Deps.detectOS w).
Proof. unfold Deps.detectOS. repeat first [apply keeps_execAsync | keeps_step]. Qed.

Lemma keeps_checkDependencies (w : world) (skipDeps : bool) :
  keeps Q (Deps.checkDependencies w skipDeps).
Proof.
  unfold Deps.checkDependencies. keeps_unfold.
  repeat first
    [ apply keeps_commandExists | apply keeps_getVersion
    | apply keeps_detectOS | keeps_step ].
Qed.

Lemma keeps_showInstallInstructions (result : DependencyCheckResult) :
  keeps Q (Instructions.showInstallInstructions result).
Proof.
  unfold Instructions.showInstallInstructions, Instructions.webInstructions,
    Instructions.gitInstructions, Instructions.line.
  keeps_unfold. repeat keeps_step.
Qed.

Lemma keeps_promptContinue (w : world) : keeps Q (Deps.promptContinue w).
Proof. unfold Deps.promptContinue. keeps_unfold. repeat keeps_step. Qed.

Lemma keeps_postinstall (w : world) : keeps Q (Postinstall.main w).
Proof.
  unfold Postinstall.main, Postinstall.commandExists, Instructions.line.
  keeps_unfold. repeat first [apply keeps_execAsync | keeps_step].
Qed.

Lemma keeps_postinstallWithReport (w : world) : keeps Q (Postinstall.mainWithReport w).
Proof.
  unfold Postinstall.mainWithReport, Instructions.line. keeps_unfold.
  repeat first
    [ apply keeps_checkDependencies | apply keeps_showInstallInstructions
    | keeps_step ].
Qed.




End Keeps.

End KeepFacts.

(** ** What the installer leaves alone *)

Module ScopeFacts.
Import Effects Node Host Init Fs Frame FsFacts FrameFacts KeepFacts.
Local Open Scope list_scope.

Lemma outside_refl (t : path) (n : node) : outside t n n.
Proof. intros q _. reflexivity. Qed.

Lemma outside_trans (t : path) (a b c : node) :
  outside t a b -> outside t b c -> outside t a c.
Proof. intros Hab Hbc q Hq. now rewrite (Hbc q Hq), (Hab q Hq). Qed.

Lemma under_diverges (t p q : path) :
  under t p -> diverges t q = true -> diverges p q = true.
Proof. intros [r ->] Hq. now apply diverges_extend. Qed.

Lemma under_below (t p : path) (x : string) : under t p -> under t (p ++ [x]).
Proof. intros [r ->]. exists (r ++ [x]). now rewrite app_assoc. Qed.

Lemma under_self (t : path) : under t t.
Proof. exists []. now rewrite app_nil_r. Qed.

Lemma under_mkdir (t p : path) :
  under t p -> forall n n', mkdirp p n = Some n' -> outside t n n'.
Proof.
  intros Hp n n' Hm q Hq.
  exact (lookup_mkdirp_diverges p q n n' (under_diverges t p q Hp Hq) Hm).
Qed.

Lemma under_place (t p : path) (v : node) :
  under t p -> forall n n', place p v n = Some n' -> outside t n n'.
Proof.
  intros Hp n n' Hm q Hq.
  exact (lookup_place_diverges p q v n n' (under_diverges t p q Hp Hq) Hm).
Qed.

Lemma under_rm (t p : path) :
  under t p -> forall n, outside t n (remove p n).
Proof.
  intros Hp n q Hq.
  exact (lookup_remove_diverges p q n (under_diverges t p q Hp Hq)).
Qed.

(** X3. [copyDirectory] writes below its target only: whatever the
    source holds and however the copy ends, every path that parts ways
    with the target resolves as before. *)
Theorem copyDirectory_outside (source target : path) (s : state) (q : path) :
  diverges target q = true ->
  lookup q (fs (snd (copyDirectory source target s))) = lookup q (fs s).
Proof.
  intros Hq.
  assert (H : keeps (outside target) (copyDirectory source target)).
  { apply (keeps_copyDirectory (outside target) (outside_refl target)
             (outside_trans target) (under target)).
    - exact (under_mkdir target).
    - intros p Hp c. exact (under_place target p (File c) Hp).
    - exact (under_below target).
    - apply under_self. }
  exact (H s q Hq).
Qed.

Lemma copyDirectory_outside_witness :
  lookup ["proj"; ".gitignore"]
    (fs (snd (copyDirectory ["proj"; "tmp"] ["proj"; "out"]
                (mkState Examples.withGitignore []))))
  = Some (File "node_modules").
Proof.
  rewrite (copyDirectory_outside ["proj"; "tmp"] ["proj"; "out"]
             (mkState Examples.withGitignore []) ["proj"; ".gitignore"]);
    reflexivity.
Defined.





End ScopeFacts.

(** ** Well-formed trees *)

Module WfFacts.
Import Fs Frame FsFacts FrameFacts.
Local Open Scope list_scope.

Lemma distinct_NoDup (names : list string) :
  distinct names = true <-> NoDup names.
Proof.
  induction names as [|x rest IH]; simpl.
  - split; [constructor | reflexivity].
  - rewrite andb_true_iff, negb_true_iff, IH. split.
    + intros [Hx Hr]. constructor; [|exact Hr].
      intros Hin. assert (existsb (String.eqb x) rest = true); [|congruence].
      apply existsb_exists. exists x. split; [exact Hin | apply String.eqb_refl].
    + intros H. inversion H; subst. split; [|assumption].
      destruct (existsb (String.eqb x) rest) eqn:He; [|reflexivity].
      apply existsb_exists in He. destruct He as (y & Hy & Hxy).
      apply String.eqb_eq in Hxy. subst y. contradiction.
Qed.

Lemma wellFormed_Dir (es : list (string * node)) :
  wellFormed (Dir es) = true
  <-> NoDup (map fst es) /\ Forall (fun e => wellFormed (snd e) = true) es.
Proof.
  cbn [wellFormed]. rewrite andb_true_iff, distinct_NoDup.
  assert (H : (fix each (es : list (string * node)) : bool :=
                 match es with
                 | [] => true
                 | (_, c) :: es' => wellFormed c && each es'
                 end) es = true
              <-> Forall (fun e => wellFormed (snd e) = true) es).
  { induction es as [|[k c] es IH].
    - split; [constructor | reflexivity].
    - rewrite andb_true_iff. split.
      + intros [Hc Hes]. constructor; [exact Hc | now apply IH].
      + intros Hall. inversion Hall; subst. split; [assumption | now apply IH]. }
  tauto.
Qed.

Lemma lookupEntry_None (x : string) (es : list (string * node)) :
  lookupEntry x es = None <-> ~ In x (map fst es).
Proof.
  induction es as [|[k c] es IH]; simpl; [tauto|].
  destruct (String.eqb_spec k x) as [->|Hne].
  - split; [discriminate | intros H; exfalso; apply H; now left].
  - rewrite IH. tauto.
Qed.

Lemma lookupEntry_In (x : string) (c : node) (es : list (string * node)) :
  lookupEntry x es = Some c -> In (x, c) es.
Proof.
  induction es as [|[k d] es IH]; simpl; [discriminate|].
  destruct (String.eqb_spec k x) as [->|Hne].
  - intros [= ->]. now left.
  - intros H. right. now apply IH.
Qed.

Lemma keys_setEntry (x : string) (v : node) (es : list (string * node)) :
  map fst (setEntry x v es)
  = match lookupEntry x es with
    | Some _ => map fst es
    | None => map fst es ++ [x]
    end.
Proof.
  induction es as [|[k d] es IH]; simpl; [reflexivity|].
  destruct (String.eqb_spec k x) as [->|Hne]; simpl; [reflexivity|].
  rewrite IH. now destruct (lookupEntry x es).
Qed.

Lemma NoDup_setEntry (x : string) (v : node) (es : list (string * node)) :
  NoDup (map fst es) -> NoDup (map fst (setEntry x v es)).
Proof.
  intros H. rewrite keys_setEntry.
  destruct (lookupEntry x es) eqn:Hx; [exact H|].
  apply lookupEntry_None in Hx.
  apply NoDup_app; [exact H | repeat constructor; intros [] | ].
  intros a Ha [<-|[]]. contradiction.
Qed.

Lemma Forall_setEntry (P : string * node -> Prop) (x : string) (v : node)
      (es : list (string * node)) :
  (forall k, P (k, v)) -> Forall P es -> Forall P (setEntry x v es).
Proof.
  intros Hv. induction es as [|[k d] es IH]; simpl; intros H.
  - repeat constructor. apply Hv.
  - inversion H; subst. destruct (String.eqb k x); constructor; auto.
Qed.

Lemma keys_removeEntry_incl (x : string) (es : list (string * node)) (y : string) :
  In y (map fst (removeEntry x es)) -> In y (map fst es).
Proof.
  induction es as [|[k d] es IH]; simpl; [tauto|].
  destruct (String.eqb k x); simpl; tauto.
Qed.

Lemma NoDup_removeEntry (x : string) (es : list (string * node)) :
  NoDup (map fst es) -> NoDup (map fst (removeEntry x es)).
Proof.
  induction es as [|[k d] es IH]; simpl; intros H; [constructor|].
  inversion H; subst. destruct (String.eqb k x); [assumption|].
  simpl. constructor; [|now apply IH].
  intros Hin. apply H2. now apply keys_removeEntry_incl in Hin.
Qed.

Lemma Forall_removeEntry (P : string * node -> Prop) (x : string)
      (es : list (string * node)) :
  Forall P es -> Forall P (removeEntry x es).
Proof.
  induction es as [|[k d] es IH]; simpl; intros H; [constructor|].
  inversion H; subst. destruct (String.eqb k x); [assumption|].
  constructor; auto.
Qed.


Lemma wellFormed_child (x : string) (c : node) (es : list (string * node)) :
  (wellFormed (Dir es) = true) -> lookupEntry x es = Some c -> (wellFormed c = true).
Proof.
  rewrite wellFormed_Dir. intros [_ Hall] Hx.
  apply lookupEntry_In in Hx. rewrite Forall_forall in Hall.
  exact (Hall _ Hx).
Qed.

Lemma wellFormed_childOr (x : string) (es : list (string * node)) :
  (wellFormed (Dir es) = true) -> (wellFormed (childOr x es) = true).
Proof.
  intros H. unfold childOr. destruct (lookupEntry x es) eqn:Hx.
  - exact (wellFormed_child x n es H Hx).
  - apply wellFormed_Dir. split; constructor.
Qed.

Lemma wellFormed_setEntry (x : string) (v : node) (es : list (string * node)) :
  (wellFormed (Dir es) = true) -> (wellFormed v = true) -> (wellFormed (Dir (setEntry x v es)) = true).
Proof.
  rewrite !wellFormed_Dir. intros [Hk Hall] Hv. split.
  - now apply NoDup_setEntry.
  - now apply Forall_setEntry.
Qed.

Lemma wellFormed_mkdirp (p : path) (n n' : node) :
  mkdirp p n = Some n' -> (wellFormed n = true) -> (wellFormed n' = true).
Proof.
  revert n n'. induction p as [|x p IH]; intros n n'; simpl.
  - destruct n; [discriminate|]. now intros [= <-].
  - destruct n as [c|es]; [discriminate|].
    destruct (mkdirp p (childOr x es)) as [c'|] eqn:Hp; [|discriminate].
    intros [= <-] Hwf. apply wellFormed_setEntry; [exact Hwf|].
    exact (IH _ _ Hp (wellFormed_childOr x es Hwf)).
Qed.

Lemma wellFormed_place (p : path) (v n n' : node) :
  (wellFormed v = true) -> place p v n = Some n' -> (wellFormed n = true) -> (wellFormed n' = true).
Proof.
  intros Hv. revert n n'. induction p as [|x p IH]; intros n n'; simpl.
  - now intros [= <-].
  - destruct n as [c|es]; [discriminate|].
    destruct (place p v (childOr x es)) as [c'|] eqn:Hp; [|discriminate].
    intros [= <-] Hwf. apply wellFormed_setEntry; [exact Hwf|].
    exact (IH _ _ Hp (wellFormed_childOr x es Hwf)).
Qed.

Lemma wellFormed_remove (p : path) (n : node) :
  (wellFormed n = true) -> (wellFormed (remove p n) = true).
Proof.
  revert n. induction p as [|x p IH]; intros n Hwf; [exact Hwf|].
  destruct n as [c|es]; [now destruct p|].
  destruct p as [|y p'].
  - cbn [remove]. apply wellFormed_Dir in Hwf. destruct Hwf as [Hk Hall].
    apply wellFormed_Dir. split;
      [now apply NoDup_removeEntry | now apply Forall_removeEntry].
  - cbn [remove]. destruct (lookupEntry x es) as [c|] eqn:Hx; [|exact Hwf].
    apply wellFormed_setEntry; [exact Hwf|].
    apply IH. exact (wellFormed_child x c es Hwf Hx).
Qed.


End WfFacts.

(** ** The temp workspace is cleaned up *)

Module CleanupFacts.
Import Effects Node Host Init Fs Frame FsFacts FrameFacts KeepFacts WfFacts Blocks.
Import InitFacts.
Local Open Scope list_scope.

Lemma initializeProject_blocks (w : world) (folder : option string) :
  initializeProject w folder
  = bind (mkdir (targetOf w folder))
         (fun _ =>
            bind (tryFinally (initTry w folder) (cleanup (tempOf w folder)))
                 (fun _ =>
                    output_success
                      ("DevFlow initialized"
                       ++ match JsString.truthy folder with
                          | Some f => " in " ++ f
                          | None => EmptyString
                          end ++ " 🚀")%string)).
Proof. reflexivity. Qed.

Lemma setupWebFolder_blocks (w : world) (root web : path) (replace : bool) :
  IdeUpdate.setupWebFolder w root web replace
  = tryFinally (setupTry w root web replace) (cleanup (ideTempOf w root)).
Proof. reflexivity. Qed.

(** The [finally] block always completes, and what it leaves is the tree
    without the temp workspace. *)
Lemma cleanup_run (temp : path) (s : state) :
  exists t, cleanup temp s = (Ret tt, mkState (remove temp (fs s)) (trace s ++ t)).
Proof.
  unfold cleanup. run_eff. unfold rm. run_eff. rewrite <- !app_assoc.
  eexists. reflexivity.
Qed.

Lemma split_head (sep c : ascii) (s : string) :
  Ascii.eqb c sep = false ->
  JsString.split sep (String c s)
  = String c (hd EmptyString (JsString.split sep s)) :: tl (JsString.split sep s).
Proof.
  intros H. cbn [JsString.split]. rewrite H.
  now destruct (JsString.split sep s).
Qed.




Lemma wfKept_refl (n : node) : wfKept n n.
Proof. intros H. exact H. Qed.

Lemma wfKept_trans (a b c : node) : wfKept a b -> wfKept b c -> wfKept a c.
Proof. unfold wfKept. tauto. Qed.




End CleanupFacts.

(** ** Existing documentation is kept *)

Module DocsFacts.
Import Effects Node Host Init Fs Frame FsFacts FrameFacts KeepFacts WfFacts Blocks.
Import InitFacts CleanupFacts ScopeFacts.
Local Open Scope list_scope.

Lemma copyDevFlowFiles_blocks (temp target : path) :
  copyDevFlowFiles temp target
  = bind (agentsBlock temp target)
      (fun _ => bind (devflowBlock temp target)
         (fun _ => bind (docsBlock temp target)
            (fun _ => mkdir (target ++ ["docs"; "snapshots"])))).
Proof. reflexivity. Qed.

Lemma fileKept_refl (q : path) (c : string) (n : node) : fileKept q c n n.
Proof. intros H. exact H. Qed.

Lemma fileKept_trans (q : path) (c : string) (n1 n2 n3 : node) :
  fileKept q c n1 n2 -> fileKept q c n2 n3 -> fileKept q c n1 n3.
Proof. unfold fileKept. tauto. Qed.

Lemma outside_fileKept (t q : path) (c : string) (n n' : node) :
  diverges t q = true -> outside t n n' -> fileKept q c n n'.
Proof. intros Hd Ho H. now rewrite (Ho q Hd). Qed.

Lemma keeps_weaken {A} (Q Q' : node -> node -> Prop) (m : M A) :
  (forall n n', Q n n' -> Q' n n') -> keeps Q m -> keeps Q' m.
Proof. intros H Hm s. apply H, Hm. Qed.

Lemma agentsBlock_outside (temp target : path) :
  keeps (outside (target ++ [".claude"])) (agentsBlock temp target).
Proof.
  apply (keeps_agentsBlock _ (outside_refl _) (outside_trans _)
           (under (target ++ [".claude"]))).
  - exact (under_mkdir _).
  - intros p Hp c. exact (under_place _ p (File c) Hp).
  - exact (under_below _).
  - exact (under_rm _).
  - apply under_self.
Qed.

Lemma devflowBlock_outside (temp target : path) :
  keeps (outside (target ++ [".devflow"])) (devflowBlock temp target).
Proof.
  apply (keeps_devflowBlock _ (outside_refl _) (outside_trans _)
           (under (target ++ [".devflow"]))).
  - exact (under_mkdir _).
  - intros p Hp c. exact (under_place _ p (File c) Hp).
  - exact (under_below _).
  - apply under_self.
Qed.

Lemma docsBlock_fileKept (temp target r : path) (c : string) :
  keeps (fileKept (target ++ "docs" :: r) c) (docsBlock temp target).
Proof.
  intros s H. unfold docsBlock. cbv zeta. unfold tryCatch at 1. unfold bind at 1.
  rewrite access_run.
  assert (He : exists_ (target ++ ["docs"]) (fs s) = true).
  { unfold exists_.
    change (target ++ "docs" :: r) with (target ++ (["docs"] ++ r)) in H.
    rewrite app_assoc, lookup_app in H.
    now destruct (lookup (target ++ ["docs"]) (fs s)). }
  rewrite He. exact H.
Qed.

Lemma copyDevFlowFiles_fileKept (temp target r : path) (c : string) :
  keeps (fileKept (target ++ "docs" :: r) c) (copyDevFlowFiles temp target).
Proof.
  rewrite copyDevFlowFiles_blocks.
  pose proof (fileKept_refl (target ++ "docs" :: r) c) as Hr.
  pose proof (fileKept_trans (target ++ "docs" :: r) c) as Ht.
  apply keeps_bind; [exact Ht | | intros _].
  { apply (keeps_weaken (outside (target ++ [".claude"])));
      [|apply agentsBlock_outside].
    intros n n'. apply outside_fileKept. now rewrite diverges_app. }
  apply keeps_bind; [exact Ht | | intros _].
  { apply (keeps_weaken (outside (target ++ [".devflow"])));
      [|apply devflowBlock_outside].
    intros n n'. apply outside_fileKept. now rewrite diverges_app. }
  apply keeps_bind; [exact Ht | apply docsBlock_fileKept | intros _].
  apply keeps_mkdir; [exact Hr|].
  intros n n' Hm H. exact (lookup_mkdirp_file _ _ _ _ _ Hm H).
Qed.

Lemma dot_d_diverges_docs (p r : path) (rest : string) :
  diverges (join p (String "." (String "d" rest))) (p ++ "docs" :: r) = true.
Proof.
  unfold join, segments.
  rewrite split_head by reflexivity. rewrite split_head by reflexivity.
  cbn [filter hd String.eqb Ascii.eqb Bool.eqb negb orb].
  rewrite diverges_app. reflexivity.
Qed.

Lemma initializeProject_fileKept (w : world) (folder : option string)
      (r : path) (c : string) :
  keeps (fileKept (targetOf w folder ++ "docs" :: r) c) (initializeProject w folder).
Proof.
  set (q := targetOf w folder ++ "docs" :: r).
  assert (Htemp : diverges (tempOf w folder) q = true)
    by apply dot_d_diverges_docs.
  apply (keeps_initializeProject_parts _ (fileKept_refl q c) (fileKept_trans q c)).
  - intros n n' Hm H. exact (lookup_mkdirp_file _ _ _ _ _ Hm H).
  - intros n n' Hp H. now rewrite (lookup_place_diverges _ _ _ _ _ Htemp Hp).
  - apply copyDevFlowFiles_fileKept.
  - apply (keeps_mergeGitignore_at _ (fileKept_refl q c) (fileKept_trans q c)
             (fun p => diverges p q = true)).
    + intros p Hp c0 n n' Hm H. now rewrite (lookup_place_diverges _ _ _ _ _ Hp Hm).
    + unfold q. now rewrite diverges_app.
  - intros n H. now rewrite (lookup_remove_diverges _ _ _ Htemp).
Qed.

(** X7. [copyDevFlowFiles] never overwrites or deletes documentation the
    project already has: a regular file anywhere below [docs] in the
    target is still there, with its content, however the copy ends and
    whatever the template holds. *)
Theorem copyDevFlowFiles_keeps_docs (temp target : path) (s : state)
        (r : path) (c : string) :
  lookup (target ++ "docs" :: r) (fs s) = Some (File c) ->
  lookup (target ++ "docs" :: r) (fs (snd (copyDevFlowFiles temp target s)))
  = Some (File c).
Proof. apply copyDevFlowFiles_fileKept. Qed.

Lemma copyDevFlowFiles_keeps_docs_witness :
  lookup (["home"; "dev"; "proj"] ++ "docs" :: ["guide.md"])
    (fs (snd (copyDevFlowFiles ["tmp"] ["home"; "dev"; "proj"]
                (mkState MoreExamples.documented []))))
  = Some (File "keep-me").
Proof.
  apply (copyDevFlowFiles_keeps_docs ["tmp"] ["home"; "dev"; "proj"]
           (mkState MoreExamples.documented []) ["guide.md"] "keep-me").
  reflexivity.
Defined.

(** X8. The same holds for the whole of [initializeProject], for every
    reply to its question and every outcome of the clone: existing
    files below [docs] in the target directory survive the run. *)
Theorem initializeProject_keeps_docs (w : world) (folder : option string)
        (s : state) (r : path) (c : string) :
  lookup (targetOf w folder ++ "docs" :: r) (fs s) = Some (File c) ->
  lookup (targetOf w folder ++ "docs" :: r)
    (fs (snd (initializeProject w folder s)))
  = Some (File c).
Proof. apply initializeProject_fileKept. Qed.

Lemma initializeProject_keeps_docs_witness :
  lookup (targetOf (Examples.host "y") None ++ "docs" :: ["guide.md"])
    (fs (snd (initializeProject (Examples.host "y") None
                (mkState MoreExamples.documented []))))
  = Some (File "keep-me").
Proof.
  apply (initializeProject_keeps_docs (Examples.host "y") None
           (mkState MoreExamples.documented []) ["guide.md"] "keep-me").
  reflexivity.
Defined.

End DocsFacts.

(** ** What [copyDirectory] copies *)

Module CopyFacts.
Import Effects Node Host Init Fs Frame FsFacts FrameFacts KeepFacts WfFacts Blocks.
Import Conduct InitFacts CleanupFacts ScopeFacts.
Local Open Scope list_scope.
Local Open Scope nat_scope.

Lemma copyDirectoryFuel_S (fuel : nat) (source target : path) :
  copyDirectoryFuel (S fuel) source target
  = bind (readdir source) (copyEntries (copyDirectoryFuel fuel) source target).
Proof. reflexivity. Qed.

Lemma copyEntries_cons (copy : path -> path -> M unit) (source target : path)
      (entryName : string) (isDir : bool) (rest : list (string * bool)) :
  copyEntries copy source target ((entryName, isDir) :: rest)
  = bind (if isDir
          then bind (mkdir (target ++ [entryName]))
                    (fun _ => copy (source ++ [entryName]) (target ++ [entryName]))
          else cp (source ++ [entryName]) (target ++ [entryName]))
         (fun _ => copyEntries copy source target rest).
Proof. reflexivity. Qed.

Lemma height_child (x : string) (c : node) (es : list (string * node)) :
  lookupEntry x es = Some c -> height c < height (Dir es).
Proof.
  cbn [height]. intros H. apply Nat.lt_succ_r.
  induction es as [|[k d] es IH]; simpl in H; [discriminate|].
  destruct (String.eqb k x).
  - injection H as ->. apply Nat.le_max_l.
  - etransitivity; [exact (IH H) | apply Nat.le_max_r].
Qed.

Lemma height_lookup (p : path) (n m : node) :
  lookup p n = Some m -> height m <= height n.
Proof.
  revert n. induction p as [|x p IH]; intros n; simpl.
  - intros [= ->]. lia.
  - destruct n as [c|es]; [discriminate|].
    destruct (lookupEntry x es) as [d|] eqn:Hx; [|discriminate].
    intros H. apply IH in H. apply height_child in Hx. lia.
Qed.

Lemma wellFormed_lookup (p : path) (n m : node) :
  wellFormed n = true -> lookup p n = Some m -> wellFormed m = true.
Proof.
  revert n. induction p as [|x p IH]; intros n Hw; simpl.
  - now intros [= <-].
  - destruct n as [c|es]; [discriminate|].
    destruct (lookupEntry x es) as [d|] eqn:Hx; [|discriminate].
    apply IH. exact (wellFormed_child _ _ _ Hw Hx).
Qed.

Lemma In_lookupEntry (x : string) (c : node) (es : list (string * node)) :
  NoDup (map fst es) -> In (x, c) es -> lookupEntry x es = Some c.
Proof.
  induction es as [|[k d] es IH]; simpl; [tauto|].
  intros Hnd. inversion Hnd as [|? ? Hk Hnd']; subst.
  intros [[= -> ->]|Hin].
  - now rewrite String.eqb_refl.
  - destruct (String.eqb_spec k x) as [->|Hne]; [|now apply IH].
    exfalso. apply Hk. change x with (fst (x, c)). now apply in_map.
Qed.

Lemma lookup_below_file (p r : path) (n : node) (c0 : string) (m : node) :
  lookup p n = Some (File c0) -> lookup (p ++ r) n = Some m ->
  r = [] /\ m = File c0.
Proof.
  intros Hp. rewrite lookup_app, Hp. destruct r; simpl; [|discriminate].
  now intros [= <-].
Qed.

Lemma sameAt_refl (q : path) (n : node) : sameAt q n n.
Proof. reflexivity. Qed.

Lemma sameAt_trans (q : path) (a b c : node) :
  sameAt q a b -> sameAt q b c -> sameAt q a c.
Proof. unfold sameAt. congruence. Qed.

(** A copy into [target] leaves alone what parts ways with [target]. *)
Lemma copyDirectoryFuel_sameAt (fuel : nat) (source target q : path) :
  diverges target q = true ->
  keeps (sameAt q) (copyDirectoryFuel fuel source target).
Proof.
  intros Hq.
  apply (keeps_copyDirectoryFuel (sameAt q) (sameAt_refl q) (sameAt_trans q)
           (fun p => diverges p q = true)).
  - intros p Hp n n' Hm. exact (lookup_mkdirp_diverges _ _ _ _ Hp Hm).
  - intros p Hp c n n' Hm. exact (lookup_place_diverges _ _ _ _ _ Hp Hm).
  - intros p x Hp. now apply diverges_extend.
  - exact Hq.
Qed.

Lemma copyDirectoryFuel_wfKept (fuel : nat) (source target : path) :
  keeps wfKept (copyDirectoryFuel fuel source target).
Proof.
  apply (keeps_copyDirectoryFuel wfKept wfKept_refl wfKept_trans (fun _ => True));
    auto.
  - intros p _ n n' H Hw. exact (wellFormed_mkdirp _ _ _ H Hw).
  - intros p _ c n n' H Hw. exact (wellFormed_place _ (File c) _ _ eq_refl H Hw).
Qed.

Lemma copyEntries_sameAt (fuel : nat) (source target q : path)
      (ents : list (string * bool)) :
  (forall name, In name (map fst ents) -> diverges (target ++ [name]) q = true) ->
  keeps (sameAt q) (copyEntries (copyDirectoryFuel fuel) source target ents).
Proof.
  induction ents as [|[name isDir] rest IH]; intros Hq.
  - apply keeps_ret, sameAt_refl.
  - rewrite copyEntries_cons.
    assert (Hn : diverges (target ++ [name]) q = true) by (apply Hq; now left).
    apply keeps_bind; [apply sameAt_trans | | intros _; apply IH].
    + destruct isDir.
      * apply keeps_bind; [apply sameAt_trans | | intros _].
        -- apply keeps_mkdir; [apply sameAt_refl|].
           intros n n' Hm. exact (lookup_mkdirp_diverges _ _ _ _ Hn Hm).
        -- now apply copyDirectoryFuel_sameAt.
      * apply keeps_cp; [apply sameAt_refl|].
        intros c n n' Hm. exact (lookup_place_diverges _ _ _ _ _ Hn Hm).
    + intros name' Hin. apply Hq. now right.
Qed.

Lemma mkdir_result (p : path) (s : state) :
  mkdir p s
  = match mkdirp p (fs s) with
    | Some r => (Ret tt, mkState r (trace s ++ [Mkdir p]))
    | None => (Throw (fsError "EEXIST" p), mkState (fs s) (trace s ++ [Mkdir p]))
    end.
Proof. unfold mkdir. run_eff. now destruct (mkdirp p (fs s)). Qed.

Lemma diverges_source_below (source target : path) (name : string) (r : path) :
  diverges source target = true ->
  diverges (target ++ [name]) (source ++ r) = true.
Proof.
  intros H. apply diverges_extend, diverges_extend_r.
  now rewrite diverges_sym.
Qed.

Lemma diverges_siblings (target : path) (a b : string) (r : path) :
  a <> b -> diverges (target ++ [a]) (target ++ b :: r) = true.
Proof.
  intros Hne. rewrite diverges_app. simpl.
  now destruct (String.eqb_spec a b).
Qed.

Lemma diverges_both (p q r r' : path) :
  diverges p q = true -> diverges (p ++ r) (q ++ r') = true.
Proof. intros H. now apply diverges_extend, diverges_extend_r. Qed.

Section Loop.
Variable fuel : nat.
Hypothesis IH :
  forall source target s,
    diverges source target = true -> wellFormed (fs s) = true ->
    (forall m, lookup source (fs s) = Some m -> height m < fuel) ->
    0 < fuel ->
    copyPost (copied source target (fs s)) (copyDirectoryFuel fuel source target s).
Variables source target : path.
Hypothesis Hdiv : diverges source target = true.
Variable es : list (string * node).
Hypothesis Hfuel : height (Dir es) <= fuel.

Lemma copyEntries_spec (ents : list (string * bool)) :
  NoDup (map fst ents) ->
  (forall name isDir, In (name, isDir) ents ->
     exists child, lookupEntry name es = Some child /\ isDir = isDirectory child) ->
  forall s,
    wellFormed (fs s) = true ->
    lookup source (fs s) = Some (Dir es) ->
    copyPost
      (fun n' =>
         forall name, In name (map fst ents) ->
           forall r c,
             lookup (source ++ name :: r) (fs s) = Some (File c) ->
             lookup (target ++ name :: r) n' = Some (File c))
      (copyEntries (copyDirectoryFuel fuel) source target ents s).
Proof.
  induction ents as [|[name isDir] rest IHr]; intros Hnd Hents s Hwf Hsrc.
  - cbn. intros name [].
  - inversion Hnd as [|? ? Hfresh Hnd']; subst.
    destruct (Hents name isDir (or_introl eq_refl)) as (child & Hchild & HisDir).
    assert (Hents' : forall name0 isDir0, In (name0, isDir0) rest ->
              exists child0, lookupEntry name0 es = Some child0
                             /\ isDir0 = isDirectory child0)
      by (intros; apply Hents; now right).
    assert (Hhere : lookup (source ++ [name]) (fs s) = Some child).
    { rewrite lookup_app, Hsrc. simpl. now rewrite Hchild. }
    (* what the rest of the loop does to the state [s1] after this entry *)
    assert (Hrest : forall s1,
               wellFormed (fs s1) = true ->
               (forall r, lookup (source ++ r) (fs s1) = lookup (source ++ r) (fs s)) ->
               (forall r c, lookup (source ++ name :: r) (fs s) = Some (File c) ->
                            lookup (target ++ name :: r) (fs s1) = Some (File c)) ->
               copyPost
                 (fun n' =>
                    forall name0, In name0 (map fst ((name, isDir) :: rest)) ->
                      forall r c,
                        lookup (source ++ name0 :: r) (fs s) = Some (File c) ->
                        lookup (target ++ name0 :: r) n' = Some (File c))
                 (copyEntries (copyDirectoryFuel fuel) source target rest s1)).
    { intros s1 Hwf1 Hsame Hdone.
      assert (Hsrc1 : lookup source (fs s1) = Some (Dir es)).
      { specialize (Hsame []). rewrite app_nil_r in Hsame. now rewrite Hsame. }
      pose proof (IHr Hnd' Hents' s1 Hwf1 Hsrc1) as Hpost.
      pose proof (fun q H => copyEntries_sameAt fuel source target q rest H s1) as Hframe.
      destruct (copyEntries (copyDirectoryFuel fuel) source target rest s1)
        as [[[]|e|c] s2]; cbn [copyPost snd] in *; try exact Hpost.
      intros name0 [<-|Hin] r c Hfile.
      - rewrite Hframe; [now apply Hdone|].
        intros name' Hin'. apply diverges_siblings. intros ->. now apply Hfresh.
      - apply (Hpost name0 Hin). now rewrite Hsame. }
    rewrite copyEntries_cons. unfold bind at 1. destruct isDir.
    + (* a directory *)
      unfold bind at 1. rewrite mkdir_result.
      destruct (mkdirp (target ++ [name]) (fs s)) as [n1|] eqn:Hmk;
        [|cbn; discriminate].
      set (s1 := mkState n1 (trace s ++ [Mkdir (target ++ [name])])).
      assert (Hsame1 : forall r, lookup (source ++ r) n1 = lookup (source ++ r) (fs s)).
      { intros r. apply (lookup_mkdirp_diverges (target ++ [name])); [|exact Hmk].
        now apply diverges_source_below. }
      assert (Hwf1 : wellFormed n1 = true) by exact (wellFormed_mkdirp _ _ _ Hmk Hwf).
      assert (Hchild1 : lookup (source ++ [name]) (fs s1) = Some child)
        by (unfold s1; cbn [fs]; now rewrite Hsame1).
      assert (Hlt : height child < fuel).
      { apply height_child in Hchild. lia. }
      pose proof (IH (source ++ [name]) (target ++ [name]) s1) as Hrec.
      specialize (Hrec (diverges_both _ _ _ _ Hdiv) Hwf1).
      assert (Hbound : forall m, lookup (source ++ [name]) (fs s1) = Some m ->
                                 height m < fuel)
        by (intros m Hm; rewrite Hchild1 in Hm; now injection Hm as <-).
      specialize (Hrec Hbound ltac:(lia)).
      pose proof (copyDirectoryFuel_wfKept fuel (source ++ [name]) (target ++ [name]) s1)
        as Hwf2.
      pose proof (fun r => copyDirectoryFuel_sameAt fuel (source ++ [name])
                             (target ++ [name]) (source ++ r)
                             (diverges_source_below _ _ name r Hdiv) s1) as Hsame2.
      destruct (copyDirectoryFuel fuel (source ++ [name]) (target ++ [name]) s1)
        as [[[]|e|c] s2]; cbn [copyPost snd] in *; try exact Hrec.
      apply Hrest.
      * now apply Hwf2.
      * intros r. unfold sameAt in Hsame2. now rewrite Hsame2, Hsame1.
      * intros r c Hfile. specialize (Hrec r c).
        rewrite <- !app_assoc in Hrec. apply Hrec. cbn [app].
        now rewrite Hsame1.
    + (* a regular file *)
      destruct child as [c0|]; [|discriminate HisDir].
      unfold cp. run_eff. rewrite Hhere.
      destruct (lookup (target ++ [name]) (fs s)) as [[c'|es']|];
        try (cbn; discriminate);
        (destruct (place (target ++ [name]) (File c0) (fs s)) as [n1|] eqn:Hpl;
         [|cbn; discriminate]);
        (apply Hrest; cbn [fs];
         [ exact (wellFormed_place _ (File c0) _ _ eq_refl Hpl Hwf)
         | intros r; apply (lookup_place_diverges (target ++ [name]) _ (File c0));
           [now apply diverges_source_below | exact Hpl]
         | intros r c Hfile;
           change (source ++ name :: r) with (source ++ [name] ++ r) in Hfile;
           rewrite app_assoc in Hfile;
           destruct (lookup_below_file _ _ _ _ _ Hhere Hfile) as [-> [= ->]];
           exact (place_lookup _ _ _ _ Hpl) ]).
Qed.

End Loop.

Lemma copyDirectoryFuel_spec (fuel : nat) (source target : path) (s : state) :
  diverges source target = true -> wellFormed (fs s) = true ->
  (forall m, lookup source (fs s) = Some m -> height m < fuel) ->
  0 < fuel ->
  copyPost (copied source target (fs s)) (copyDirectoryFuel fuel source target s).
Proof.
  revert source target s. induction fuel as [|fuel IH];
    intros source target s Hdiv Hwf Hbound Hpos; [lia|].
  rewrite copyDirectoryFuel_S. unfold bind at 1, readdir. run_eff.
  destruct (lookup source (fs s)) as [[c0|es]|] eqn:Hsrc; try (cbn; discriminate).
  set (s1 := mkState (fs s) (trace s ++ [Readdir source])).
  assert (Hwfd : wellFormed (Dir es) = true) by exact (wellFormed_lookup _ _ _ Hwf Hsrc).
  apply wellFormed_Dir in Hwfd. destruct Hwfd as [Hnd _].
  pose proof (copyEntries_spec fuel IH source target Hdiv es
                ltac:(specialize (Hbound _ eq_refl); lia)
                (map (fun e => (fst e, isDirectory (snd e))) es)) as Hloop.
  rewrite map_map in Hloop. cbn [fst] in Hloop.
  specialize (Hloop Hnd).
  assert (Hents : forall name isDir,
             In (name, isDir) (map (fun e => (fst e, isDirectory (snd e))) es) ->
             exists child, lookupEntry name es = Some child
                           /\ isDir = isDirectory child).
  { intros name isDir Hin. apply in_map_iff in Hin.
    destruct Hin as ([k child] & [= <- <-] & Hin). exists child. split; [|reflexivity].
    now apply In_lookupEntry. }
  specialize (Hloop Hents s1 Hwf Hsrc).
  destruct (copyEntries (copyDirectoryFuel fuel) source target _ s1)
    as [[[]|e|c] s2]; cbn [copyPost] in *; try exact Hloop.
  intros r c Hfile. destruct r as [|name r].
  - rewrite app_nil_r, Hsrc in Hfile. discriminate Hfile.
  - apply Hloop; [|exact Hfile].
    rewrite lookup_app, Hsrc in Hfile. simpl in Hfile.
    destruct (lookupEntry name es) as [child|] eqn:Hc; [|discriminate].
    apply lookupEntry_In in Hc. change name with (fst (name, child)).
    now apply in_map.
Qed.

Lemma copyDirectory_spec (source target : path) (s : state) :
  diverges source target = true -> wellFormed (fs s) = true ->
  copyPost (copied source target (fs s)) (copyDirectory source target s).
Proof.
  intros Hdiv Hwf. unfold copyDirectory. apply copyDirectoryFuel_spec; auto; [|lia].
  intros m Hm. apply height_lookup in Hm. lia.
Qed.

(** X9. [copyDirectory] copies every regular file: when source and
    target part ways and the copy returns, each file below the source,
    at any depth, is then below the target at the same relative path
    with the same content. *)
Theorem copyDirectory_copies_files (source target : path) (s s' : state)
        (r : path) (c : string) :
  diverges source target = true -> wellFormed (fs s) = true ->
  copyDirectory source target s = (Ret tt, s') ->
  lookup (source ++ r) (fs s) = Some (File c) ->
  lookup (target ++ r) (fs s') = Some (File c).
Proof.
  intros Hdiv Hwf Hrun. pose proof (copyDirectory_spec source target s Hdiv Hwf) as H.
  rewrite Hrun in H. apply H.
Qed.

Lemma copyDirectory_copies_files_witness :
  lookup (["proj"; "out"] ++ [".claude"; "commands"; "agents"; "dev.md"])
    (fs (snd (copyDirectory ["proj"; "tmp"] ["proj"; "out"]
                (mkState MoreExamples.staged []))))
  = Some (File "agent").
Proof.
  apply (copyDirectory_copies_files ["proj"; "tmp"] ["proj"; "out"]
           (mkState MoreExamples.staged [])
           (snd (copyDirectory ["proj"; "tmp"] ["proj"; "out"]
                   (mkState MoreExamples.staged [])))
           [".claude"; "commands"; "agents"; "dev.md"] "agent");
    reflexivity.
Defined.

(** X10. The recursion of [copyDirectory] is bounded by the height of the
    tree: when source and target part ways the copy never ends the
    process and never fails with the RangeError of an exhausted call
    stack; it returns or fails with an error of the file system. *)
Theorem copyDirectory_within_depth (source target : path) (s : state) :
  diverges source target = true -> wellFormed (fs s) = true ->
  match fst (copyDirectory source target s) with
  | Ret _ => True
  | Throw e => code e <> "RangeError"%string
  | Exit _ => False
  end.
Proof.
  intros Hdiv Hwf.
  pose proof (copyDirectory_spec source target s Hdiv Hwf) as H.
  destruct (copyDirectory source target s) as [[[]|e|c] s']; cbn in *;
    [exact I | exact H | exact H].
Qed.

Lemma copyDirectory_within_depth_witness :
  match fst (copyDirectory ["proj"; "tmp"; "docs"] ["proj"; "tmp"; "web"]
               (mkState MoreExamples.staged [])) with
  | Ret _ => True
  | Throw e => code e <> "RangeError"%string
  | Exit _ => False
  end.
Proof.
  apply (copyDirectory_within_depth ["proj"; "tmp"; "docs"] ["proj"; "tmp"; "web"]
           (mkState MoreExamples.staged []));
    reflexivity.
Defined.

End CopyFacts.

(** ** What a completed installation guarantees *)

Module SuccessFacts.
Import Effects Node Host Init Fs Frame FsFacts FrameFacts KeepFacts WfFacts Blocks.
Import InitFacts CleanupFacts ScopeFacts DocsFacts CopyFacts.
Local Open Scope list_scope.

Section Ensures.
Variable P : node -> Prop.

Lemma ensures_bind_last {A B} (m : M A) (k : A -> M B) :
  (forall a, ensures P (k a)) -> ensures P (bind m k).
Proof.
  intros Hk s b s' H. unfold bind in H.
  destruct (m s) as [[a|e|c] s1]; try discriminate H.
  exact (Hk a s1 b s' H).
Qed.

Lemma ensures_bind_first {A B} (m : M A) (k : A -> M B) :
  ensures P m -> (forall a, keeps (stays P) (k a)) -> ensures P (bind m k).
Proof.
  intros Hm Hk s b s' H. unfold bind in H.
  destruct (m s) as [[a|e|c] s1] eqn:Hs; try discriminate H.
  specialize (Hk a s1). rewrite H in Hk. apply Hk. exact (Hm s a s1 Hs).
Qed.

Lemma ensures_tryFinally {A} (m : M A) (f : M unit) :
  ensures P m -> keeps (stays P) f -> ensures P (tryFinally m f).
Proof.
  intros Hm Hf s a s' H. unfold tryFinally in H.
  destruct (m s) as [[a0|e|c] s1] eqn:Hs; try discriminate H;
    specialize (Hf s1); destruct (f s1) as [[[]|e'|c'] s2]; try discriminate H.
  injection H as <- <-. apply Hf. exact (Hm s a0 s1 Hs).
Qed.

Lemma ensures_spinner {B} (msg : string) (k : M unit -> M B) :
  ensures P (k (emit SpinnerStop)) -> ensures P (bind (output_spinner msg) k).
Proof.
  intros Hk s.
  change (bind (output_spinner msg) k s)
    with (k (emit SpinnerStop) (mkState (fs s) (trace s ++ [SpinnerStart msg]))).
  exact (Hk (mkState (fs s) (trace s ++ [SpinnerStart msg]))).
Qed.

Lemma stays_refl (n : node) : stays P n n.
Proof. intros H. exact H. Qed.

Lemma stays_trans (a b c : node) : stays P a b -> stays P b c -> stays P a c.
Proof. unfold stays. tauto. Qed.

End Ensures.

Lemma sameAt_stays (q : path) (n n' : node) :
  sameAt q n n' -> stays (isDirAt q) n n'.
Proof. intros H [es Hes]. exists es. now rewrite H. Qed.

Lemma copyDevFlowFiles_ensures (temp target : path) :
  ensures (isDirAt (target ++ ["docs"; "snapshots"])) (copyDevFlowFiles temp target).
Proof.
  rewrite copyDevFlowFiles_blocks.
  do 3 (apply ensures_bind_last; intros _).
  intros s a s' H. rewrite mkdir_result in H.
  destruct (mkdirp _ (fs s)) as [n'|] eqn:Hm; [|discriminate H].
  injection H as _ <-. exact (lookup_mkdirp_same _ _ _ Hm).
Qed.

Lemma initTry_blocks (w : world) (folder : option string) :
  initTry w folder
  = bind (output_spinner "Cloning template repository...")
      (fun stopSpinner =>
         bind (tryFinally (gitClone w (tempOf w folder)) stopSpinner)
           (fun _ =>
              bind (output_success "Cloned template repository")
                (fun _ =>
                   bind (checkConflicts (targetOf w folder))
                     (fun conflicts =>
                        bind (conflictGate w conflicts)
                          (fun _ =>
                             bind (output_spinner "Installing DevFlow files...")
                               (fun stopSpinner2 =>
                                  bind (tryFinally
                                          (copyDevFlowFiles (tempOf w folder)
                                                            (targetOf w folder))
                                          stopSpinner2)
                                    (fun _ =>
                                       mergeGitignore (tempOf w folder)
                                                      (targetOf w folder)))))))).
Proof. reflexivity. Qed.

Lemma initializeProject_ensures (w : world) (folder : option string) :
  ensures (isDirAt (targetOf w folder ++ ["docs"; "snapshots"]))
          (initializeProject w folder).
Proof.
  set (q := targetOf w folder ++ ["docs"; "snapshots"]).
  pose proof (stays_refl (isDirAt q)) as Hr.
  pose proof (stays_trans (isDirAt q)) as Ht.
  rewrite initializeProject_blocks.
  apply ensures_bind_last; intros _.
  apply ensures_bind_first; [|intros _; now apply keeps_emit].
  apply ensures_tryFinally.
  - rewrite initTry_blocks.
    apply ensures_spinner.
    do 4 (apply ensures_bind_last; intros ?).
    apply ensures_spinner.
    apply ensures_bind_first.
    + apply ensures_tryFinally; [apply copyDevFlowFiles_ensures|].
      now apply keeps_emit.
    + intros _. apply (keeps_weaken (sameAt q)); [apply sameAt_stays|].
      apply (keeps_mergeGitignore_at _ (sameAt_refl q) (sameAt_trans q)
               (fun p => diverges p q = true)).
      * intros p Hp c n n' Hm. exact (lookup_place_diverges _ _ _ _ _ Hp Hm).
      * unfold q. now rewrite diverges_app.
  - apply (keeps_weaken (sameAt q)); [apply sameAt_stays|].
    intros s. destruct (cleanup_run (tempOf w folder) s) as [t Hc]. rewrite Hc.
    cbn [snd fs]. apply lookup_remove_diverges. apply dot_d_diverges_docs.
Qed.

(** X11. Whenever [initializeProject] completes, the project has a
    [docs/snapshots] directory, whether [docs] came from the template,
    was already there or could not be copied at all. *)
Theorem initializeProject_makes_snapshots
        (w : world) (folder : option string) (s s' : state) :
  initializeProject w folder s = (Ret tt, s') ->
  exists es,
    lookup (targetOf w folder ++ ["docs"; "snapshots"]) (fs s') = Some (Dir es).
Proof. apply initializeProject_ensures. Qed.

Lemma initializeProject_makes_snapshots_witness :
  exists es,
    lookup (targetOf (Examples.host "y") None ++ ["docs"; "snapshots"])
      (fs (snd (initializeProject (Examples.host "y") None
                  (mkState MoreExamples.documented []))))
    = Some (Dir es).
Proof.
  apply (initializeProject_makes_snapshots (Examples.host "y") None
           (mkState MoreExamples.documented [])
           (snd (initializeProject (Examples.host "y") None
                   (mkState MoreExamples.documented [])))).
  reflexivity.
Defined.

End SuccessFacts.

(** ** How the commands end *)

Module EndFacts.
Import Effects Node Host Deps Init Instructions Handlers Frame Conduct.
Local Open Scope list_scope.

Section Ends.
Variable P : Z -> Prop.

Lemma exitsWith_ret {A} (a : A) : exitsWith P (ret a).
Proof. intros s c s' H. unfold ret in H. discriminate H. Qed.

Lemma exitsWith_throw {A} (e : error) : exitsWith P (@throw A e).
Proof. intros s c s' H. unfold throw in H. discriminate H. Qed.

Lemma exitsWith_emit (e : event) : exitsWith P (emit e).
Proof. intros s c s' H. unfold emit in H. discriminate H. Qed.

Lemma exitsWith_processExit {A} (c : Z) : P c -> exitsWith P (@processExit A c).
Proof. intros Hc s c' s' H. inversion H. now subst. Qed.

Lemma exitsWith_bind {A B} (m : M A) (k : A -> M B) :
  exitsWith P m -> (forall a, exitsWith P (k a)) -> exitsWith P (bind m k).
Proof.
  intros Hm Hk s c s' H. unfold bind in H.
  destruct (m s) as [[a|e|c0] s0] eqn:Hs.
  - exact (Hk a s0 c s' H).
  - discriminate H.
  - inversion H; subst. exact (Hm s c s' Hs).
Qed.

Lemma exitsWith_tryCatch {A} (m : M A) (h : error -> M A) :
  exitsWith P m -> (forall e, exitsWith P (h e)) -> exitsWith P (tryCatch m h).
Proof.
  intros Hm Hh s c s' H. unfold tryCatch in H.
  destruct (m s) as [[a|e|c0] s0] eqn:Hs.
  - discriminate H.
  - exact (Hh e s0 c s' H).
  - inversion H; subst. exact (Hm s c s' Hs).
Qed.

Lemma exitsWith_tryFinally {A} (m : M A) (f : M unit) :
  exitsWith P m -> exitsWith P f -> exitsWith P (tryFinally m f).
Proof.
  intros Hm Hf s c s' H. unfold tryFinally in H.
  destruct (m s) as [[a|e|c0] s0] eqn:Hs.
  - destruct (f s0) as [[[]|e'|c'] s1] eqn:Hf0; try discriminate H.
    inversion H; subst. exact (Hf s0 c s' Hf0).
  - destruct (f s0) as [[[]|e'|c'] s1] eqn:Hf0; try discriminate H.
    inversion H; subst. exact (Hf s0 c s' Hf0).
  - inversion H; subst. exact (Hm s c s' Hs).
Qed.

Lemma exitsWith_spinner {B} (msg : string) (k : M unit -> M B) :
  exitsWith P (k (emit SpinnerStop)) -> exitsWith P (bind (output_spinner msg) k).
Proof.
  intros Hk s.
  change (bind (output_spinner msg) k s)
    with (k (emit SpinnerStop) (mkState (fs s) (trace s ++ [SpinnerStart msg]))).
  exact (Hk (mkState (fs s) (trace s ++ [SpinnerStart msg]))).
Qed.

Ltac no_exit :=
  intros s c s' H;
  repeat match type of H with
         | context [match ?x with _ => _ end] => destruct x; cbn in H
         end;
  discriminate H.

Lemma exitsWith_access (p : path) : exitsWith P (access p).
Proof. unfold access, bind, emit, getFs, ret, throw. no_exit. Qed.

Lemma exitsWith_mkdir (p : path) : exitsWith P (mkdir p).
Proof. unfold mkdir, bind, emit, getFs, putFs, ret, throw. no_exit. Qed.

Lemma exitsWith_rm (p : path) : exitsWith P (rm p).
Proof. unfold rm, bind, emit, getFs, putFs, ret, throw. no_exit. Qed.

Lemma exitsWith_cp (src dst : path) : exitsWith P (cp src dst).
Proof. unfold cp, bind, emit, getFs, putFs, ret, throw. no_exit. Qed.

Lemma exitsWith_readFile (p : path) : exitsWith P (readFile p).
Proof. unfold readFile, bind, emit, getFs, ret, throw. no_exit. Qed.

Lemma exitsWith_writeFile (p : path) (content : string) :
  exitsWith P (writeFile p content).
Proof. unfold writeFile, bind, emit, getFs, putFs, ret, throw. no_exit. Qed.

Lemma exitsWith_readdir (p : path) : exitsWith P (readdir p).
Proof. unfold readdir, bind, emit, getFs, ret, throw. no_exit. Qed.

Lemma exitsWith_execAsync (w : world) (cmd : string) : exitsWith P (execAsync w cmd).
Proof. unfold execAsync, bind, emit, ret, throw. no_exit. Qed.

Lemma exitsWith_question (w : world) (prompt : string) :
  exitsWith P (question w prompt).
Proof. unfold question, bind, emit, ret. no_exit. Qed.

Lemma exitsWith_gitClone (w : world) (dest : path) : exitsWith P (gitClone w dest).
Proof.
  unfold gitClone, execAsync, bind, emit, getFs, putFs, ret, throw.
  intros s c s' H. cbn in H.
  destruct (exec w _); cbn in H; [discriminate H|].
  destruct (Fs.place dest (cloned w) (fs s)); cbn in H; discriminate H.
Qed.

Lemma exitsWith_copyDirectoryFuel (fuel : nat) (source target : path) :
  exitsWith P (copyDirectoryFuel fuel source target).
Proof.
  revert source target. induction fuel as [|fuel IH]; intros source target;
    cbn [copyDirectoryFuel].
  - apply exitsWith_throw.
  - apply exitsWith_bind; [apply exitsWith_readdir|]. intros entries.
    induction entries as [|[entryName isDir] rest IHe].
    + apply exitsWith_ret.
    + apply exitsWith_bind; [|intros _; exact IHe].
      destruct isDir.
      * apply exitsWith_bind; [apply exitsWith_mkdir | intros _; apply IH].
      * apply exitsWith_cp.
Qed.

Lemma exitsWith_copyDirectory (source target : path) :
  exitsWith P (copyDirectory source target).
Proof. intros s. apply exitsWith_copyDirectoryFuel. Qed.

Ltac ends_unfold :=
  unfold output_info, output_success, output_warn, output_error, stdout_write,
    line.

Ltac ends_step :=
  first
    [ apply exitsWith_spinner
    | apply exitsWith_ret | apply exitsWith_throw
    | apply exitsWith_processExit; assumption
    | apply exitsWith_emit | apply exitsWith_access | apply exitsWith_readFile
    | apply exitsWith_readdir | apply exitsWith_mkdir | apply exitsWith_rm
    | apply exitsWith_cp | apply exitsWith_writeFile
    | apply exitsWith_execAsync | apply exitsWith_question
    | apply exitsWith_gitClone | apply exitsWith_copyDirectory
    | apply exitsWith_tryCatch; [| intros ?]
    | apply exitsWith_tryFinally
    | apply exitsWith_bind; [| intros ?]
    | match goal with
      | |- exitsWith _ (if ?b then _ else _) => destruct b
      | |- exitsWith _ (match ?x with _ => _ end) => destruct x
      end ].



Lemma exitsWith_copyDevFlowFiles (temp target : path) :
  exitsWith P (copyDevFlowFiles temp target).
Proof. unfold copyDevFlowFiles. cbv zeta. ends_unfold. repeat ends_step. Qed.








Lemma exitsWith_setupWebFolder (w : world) (root web : path) (replace : bool) :
  exitsWith P (IdeUpdate.setupWebFolder w root web replace).
Proof. unfold IdeUpdate.setupWebFolder. cbv zeta. ends_unfold. repeat ends_step. Qed.


Hypothesis P_0 : P 0%Z.



Hypothesis P_1 : P 1%Z.



End Ends.


(** The handlers end the process with status 1 after one error line. *)
Lemma handleInitError_run {A} (error : caught) (s : state) :
  exists text,
    @handleInitError A error s
    = (Exit 1, mkState (fs s) (trace s ++ [Out Error text])).
Proof.
  unfold handleInitError. destruct (gitNotFound error); eexists; reflexivity.
Qed.

Lemma handleIdeError_run {A} (error : caught) (s : state) :
  exists text,
    @handleIdeError A error s
    = (Exit 1, mkState (fs s) (trace s ++ [Out Error text])).
Proof.
  unfold handleIdeError. destruct (gitNotFound error); eexists; reflexivity.
Qed.

End EndFacts.

(** ** The temp workspace of the IDE installer *)

Module IdeCleanupFacts.
Import Effects Node Host Init Fs Frame FsFacts FrameFacts KeepFacts WfFacts Blocks.
Import CleanupFacts EndFacts.
Local Open Scope list_scope.




End IdeCleanupFacts.

(** ** The installation instructions *)

Module PrintFacts.
Import Effects Node Host Instructions Frame Conduct Predicates.
Local Open Scope list_scope.

Lemma printsOnly_ret : printsOnly (ret tt).
Proof. intros s. exists []. rewrite app_nil_r. now destruct s. Qed.

Lemma printsOnly_emit (e : event) : isOutput e = true -> printsOnly (emit e).
Proof. intros He s. exists [e]. cbn. now rewrite He. Qed.

Lemma printsOnly_seq (m k : M unit) :
  printsOnly m -> printsOnly k -> printsOnly (bind m (fun _ => k)).
Proof.
  intros Hm Hk s. destruct (Hm s) as (t & Hs & Ht).
  destruct (Hk (mkState (fs s) (trace s ++ t))) as (u & Hs' & Hu).
  exists (t ++ u). unfold bind. rewrite Hs, Hs'. cbn [fs trace].
  rewrite app_assoc, forallb_app, Ht, Hu. now split.
Qed.

Ltac prints_step :=
  first
    [ apply printsOnly_ret
    | apply printsOnly_emit; reflexivity
    | apply printsOnly_seq
    | match goal with
      | |- printsOnly (if ?b then _ else _) => destruct b
      end ].

Lemma printsOnly_showInstallInstructions (result : DependencyCheckResult) :
  printsOnly (showInstallInstructions result).
Proof.
  unfold showInstallInstructions, webInstructions, gitInstructions, line,
    output_success, output_warn, stdout_write.
  repeat prints_step.
Qed.

Lemma printsOnly_returns (m : M unit) : printsOnly m -> returns m (fun _ => True).
Proof. intros H s. destruct (H s) as (t & Hs & _). now exists tt, (mkState (fs s) (trace s ++ t)). Qed.

(** X13. [showInstallInstructions] only prints: for every report it
    returns, it leaves the file system alone, and each call it adds to the
    trace is one of the output helpers or a write to standard output; no
    command is run and no question asked. *)
Theorem showInstallInstructions_prints_only
        (result : DependencyCheckResult) (s : state) :
  exists t,
    showInstallInstructions result s = (Ret tt, mkState (fs s) (trace s ++ t))
    /\ forallb isOutput t = true.
Proof. apply printsOnly_showInstallInstructions. Qed.

End PrintFacts.

(** ** The [init] command and the postinstall check *)

Module CliFacts.
Import Effects Node Host Deps Init Instructions Handlers Cli Frame Conduct Predicates.
Import Returns DepsFacts KeepFacts EndFacts PrintFacts.
Import Blocks InitFacts CleanupFacts.
Local Open Scope list_scope.

Lemma returns_weaken {A} (m : M A) (P : A -> Prop) :
  returns m P -> returns m (fun _ => True).
Proof. intros H s. destruct (H s) as (a & s' & Hs & _). now exists a, s'. Qed.

Lemma returns_guarded {A} (m : M A) (h : error -> M A) (P : A -> Prop) :
  returns m P -> returns (tryCatch m h) P.
Proof.
  intros H s. destruct (H s) as (a & s' & Hs & Ha). exists a, s'.
  unfold tryCatch. now rewrite Hs.
Qed.

Lemma cleanup_exact (temp : path) (s : state) :
  cleanup temp s
  = (Ret tt,
     mkState (Fs.remove temp (fs s))
       (trace s ++ [SpinnerStart "Cleaning up temporary files..."; Rm temp;
                    SpinnerStop; Out Success "Temporary files cleaned up"])).
Proof.
  unfold cleanup. run_eff. unfold rm. run_eff. now rewrite <- !app_assoc.
Qed.

Lemma initTry_failed_clone (w : world) (folder : option string) (s : state) (e : error) :
  exec w (cloneCommand (tempOf w folder)) = ExecFails e ->
  exists t, initTry w folder s = (Throw e, mkState (fs s) (trace s ++ t)).
Proof.
  intros H. unfold initTry, gitClone, execAsync. fold (cloneCommand (tempOf w folder)).
  run_eff. rewrite H. run_eff. rewrite <- !app_assoc. eexists. reflexivity.
Qed.

(** X14. Both error handlers end the process with status 1, whatever was
    thrown, after exactly one error line; they touch nothing else. *)
Theorem handlers_exit_with_1 (A : Type) (error : caught) (s : state) :
  (exists text,
      @handleInitError A error s
      = (Exit 1, mkState (fs s) (trace s ++ [Out Error text])))
  /\ (exists text,
         @handleIdeError A error s
         = (Exit 1, mkState (fs s) (trace s ++ [Out Error text]))).
Proof. split; [apply handleInitError_run | apply handleIdeError_run]. Qed.


(** X16. Declining at the dependency prompt changes nothing: when the
    report has errors and the reply to [Continue anyway?] does not begin
    with y or Y, the [init] action ends the process with status 0 and
    the file system is the one it found; no directory was made and
    nothing was cloned. *)
Theorem initAction_decline_changes_nothing
        (w : world) (folder : option string) (s : state)
        (r : DependencyCheckResult) (s1 : state) :
  checkDependencies w false s = (Ret r, s1) ->
  hasErrors r = true ->
  JsString.startsWith (JsString.toLowerCase (answer w)) "y" = false ->
  exists s', initAction w folder false s = (Exit 0, s') /\ fs s' = fs s.
Proof.
  intros Hdeps Herr Hno.
  assert (Hfs : fs s1 = fs s).
  { pose proof (keeps_checkDependencies eq (@eq_refl node) (@eq_trans node)
                  w false s) as H.
    rewrite Hdeps in H. now symmetry. }
  destruct (printsOnly_showInstallInstructions r s1) as (t & Hshow & _).
  unfold initAction, tryCatch. unfold bind at 1. rewrite Hdeps, Herr.
  unfold bind at 1. unfold bind at 1. unfold bind at 1. rewrite Hshow.
  unfold promptContinue, question, stdout_write, emit, bind, ret, processExit.
  cbn. rewrite Hno. cbn. eexists. split; [reflexivity|]. exact Hfs.
Qed.

Lemma initAction_decline_changes_nothing_witness :
  exists s',
    initAction (MoreExamples.gitless "n") None false
               (mkState MoreExamples.shared [])
    = (Exit 0, s')
    /\ fs s' = MoreExamples.shared.
Proof.
  apply (initAction_decline_changes_nothing (MoreExamples.gitless "n") None
           (mkState MoreExamples.shared [])
           (mkResult true ["git"; "claude-code"]
                     ["nodejs"; "python3"; "gcc"; "make"] "linux" "Linux")
           (snd (checkDependencies (MoreExamples.gitless "n") false
                   (mkState MoreExamples.shared []))));
    reflexivity.
Defined.

(** X17. A failed clone is cleaned up and then reported: when the target
    directory can be made and [git clone] fails, the [init] action with
    [--skip-deps] removes the temp workspace, prints the cleanup message,
    then one error line (the git hint when the error is an ENOENT that
    names git, the error's message otherwise) and ends the process with
    status 1. *)
Theorem initAction_failed_clone
        (w : world) (folder : option string) (s : state) (root : node) (e : error) :
  Fs.mkdirp (targetOf w folder) (fs s) = Some root ->
  exec w (cloneCommand (tempOf w folder)) = ExecFails e ->
  exists t,
    initAction w folder true s
    = (Exit 1,
       mkState (Fs.remove (tempOf w folder) root)
         (trace s ++ t
          ++ [Out Success "Temporary files cleaned up";
              Out Error
                (if gitNotFound (ofError e)
                 then "Git is not installed or not found in PATH."
                 else "Error initializing project: " ++ message e)%string])).
Proof.
  intros Hmk Hexec.
  unfold initAction, tryCatch. unfold bind at 1. cbn [checkDependencies ret hasErrors].
  unfold bind at 1. unfold ret at 1. rewrite initializeProject_blocks.
  unfold bind at 1. rewrite (mkdir_run _ _ _ Hmk).
  unfold bind at 1. unfold tryFinally.
  destruct (initTry_failed_clone w folder
              (mkState root (trace s ++ [Mkdir (targetOf w folder)])) e Hexec)
    as (t & Ht).
  rewrite Ht. cbn [fs trace]. rewrite cleanup_exact. cbn [fs trace].
  unfold handleInitError. destruct (gitNotFound (ofError e));
    unfold output_error, emit, bind, processExit; cbn [fs trace];
    exists ([Mkdir (targetOf w folder)] ++ t
            ++ [SpinnerStart "Cleaning up temporary files...";
                Rm (tempOf w folder); SpinnerStop]);
    rewrite <- !app_assoc; reflexivity.
Qed.

Lemma initAction_failed_clone_witness :
  exists t,
    initAction (MoreExamples.gitless "y") None true
               (mkState MoreExamples.shared [])
    = (Exit 1,
       mkState (Fs.remove (tempOf (MoreExamples.gitless "y") None)
                          MoreExamples.shared)
         ([] ++ t
          ++ [Out Success "Temporary files cleaned up";
              Out Error "Git is not installed or not found in PATH."])).
Proof.
  apply (initAction_failed_clone (MoreExamples.gitless "y") None
           (mkState MoreExamples.shared []) MoreExamples.shared
           (mkError "ENOENT" "spawn git ENOENT"));
    reflexivity.
Defined.

(** X18. The standalone postinstall check cannot fail: on every host it
    returns after exactly two probes, [git] first and [claude] second
    whatever the first one answered, and apart from them it only prints;
    the file system is left alone. *)
Theorem postinstall_runs_two_probes (w : world) (s : state) :
  exists t,
    Postinstall.main w s
    = (Ret tt,
       mkState (fs s)
         (trace s ++ Exec (Postinstall.checkCmd w "git")
                  :: Exec (Postinstall.checkCmd w "claude") :: t))
    /\ forallb isOutput t = true.
Proof.
  unfold Postinstall.main, Postinstall.commandExists, execAsync, line.
  run_eff.
  destruct (exec w (Postinstall.checkCmd w "git"));
    destruct (exec w (Postinstall.checkCmd w "claude"));
    run_eff; cbn [orb]; run_eff; rewrite <- ?app_assoc; cbn [app];
    eexists; (split; [reflexivity | reflexivity]).
Qed.

(** X19. The postinstall check built on [checkDependencies] cannot fail
    either: on every host it returns, and the file system is the one it
    found. *)
Theorem postinstall_report_never_fails (w : world) (s : state) :
  exists s', Postinstall.mainWithReport w s = (Ret tt, s') /\ fs s' = fs s.
Proof.
  assert (H : returns (Postinstall.mainWithReport w) (fun _ => True)).
  { unfold Postinstall.mainWithReport, line. apply returns_guarded.
    apply returns_bind;
      [apply (returns_weaken _ _ (checkDependencies_returns w false))|].
    intros r.
    repeat first
      [ apply printsOnly_returns, printsOnly_showInstallInstructions
      | returns_step ]. }
  destruct (H s) as ([] & s' & Hs & _). exists s'. split; [exact Hs|].
  pose proof (keeps_postinstallWithReport eq (@eq_refl node) (@eq_trans node) w s)
    as Hk.
  rewrite Hs in Hk. now symmetry.
Qed.

End CliFacts.

(** ** The probes of the dependency check *)

Module ProbeFacts.
Import Effects Node Host Deps Frame Conduct Predicates.
Import Returns DepsFacts KeepFacts InitFacts.
Local Open Scope list_scope.

Lemma returns_bind_with {A B} (m : M A) (k : A -> M B)
      (P : A -> Prop) (Q : B -> Prop) :
  returns m P -> (forall a, P a -> returns (k a) Q) -> returns (bind m k) Q.
Proof.
  intros Hm Hk s. destruct (Hm s) as (a & s' & Hs & Ha).
  destruct (Hk a Ha s') as (b & s'' & Hs' & Hb).
  exists b, s''. unfold bind. now rewrite Hs.
Qed.

Lemma commandExists_probe (w : world) (command : string) :
  returns (commandExists w command)
          (fun found => found = succeeds w (probeCommand w command)).
Proof.
  intros s. unfold commandExists, probeCommand, succeeds, execAsync. run_eff.
  destruct (String.eqb (platform w) "win32"); run_eff;
    match goal with |- context [exec w ?cmd] => destruct (exec w cmd) end;
    eexists _, _; split; reflexivity.
Qed.

Ltac returns_all := repeat first [ returns_step | reflexivity ].

Lemma checkDependencies_cli (w : world) :
  returns (checkDependencies w false)
    (fun r =>
       missingCli r
       = (if succeeds w (probeCommand w "git") then [] else ["git"])
         ++ (if succeeds w (probeCommand w "claude") then [] else ["claude-code"])).
Proof.
  unfold checkDependencies.
  apply returns_bind; [apply detectOS_returns | intros osInfo].
  apply returns_bind; [apply returns_emit | intros _].
  apply returns_bind; [apply returns_emit | intros _].
  eapply returns_bind_with; [apply commandExists_probe | intros gitOk ->].
  apply (returns_bind_with _ _
           (fun l => l = if succeeds w (probeCommand w "git") then [] else ["git"])).
  { destruct (succeeds w (probeCommand w "git")); returns_all. }
  intros missingCli ->.
  eapply returns_bind_with; [apply commandExists_probe | intros claudeOk ->].
  apply (returns_bind_with _ _
           (fun l => l = (if succeeds w (probeCommand w "git") then [] else ["git"])
                         ++ (if succeeds w (probeCommand w "claude")
                             then [] else ["claude-code"]))).
  { destruct (succeeds w (probeCommand w "claude")); returns_all.
    now rewrite app_nil_r. }
  intros missingCli ->.
  returns_all.
Qed.

(** X20. What [checkDependencies(false)] reports as missing for the CLI
    is decided by two probes alone: [git] is listed exactly when the
    probe of [git] fails, [claude-code] exactly when the probe of
    [claude] fails, in this order and with nothing else; the check always
    returns and leaves the file system alone. *)
Theorem checkDependencies_missingCli (w : world) (s : state) :
  exists r s',
    checkDependencies w false s = (Ret r, s')
    /\ fs s' = fs s
    /\ missingCli r
       = (if succeeds w (probeCommand w "git") then [] else ["git"])
         ++ (if succeeds w (probeCommand w "claude") then [] else ["claude-code"]).
Proof.
  destruct (checkDependencies_cli w s) as (r & s' & Hs & Hr).
  exists r, s'. split; [exact Hs|]. split; [|exact Hr].
  pose proof (keeps_checkDependencies eq (@eq_refl node) (@eq_trans node) w false s)
    as Hk.
  rewrite Hs in Hk. now symmetry.
Qed.

Lemma returns_with {A} (m : M A) (P : A -> Prop) :
  returns m (fun _ => True) -> (forall a, P a) -> returns m P.
Proof.
  intros Hm Hp s. destruct (Hm s) as (a & s' & Hs & _). now exists a, s'.
Qed.

Lemma checkDependencies_web (w : world) :
  returns (checkDependencies w false)
    (fun r =>
       exists nodePart pythonPart,
         missingWeb r
         = nodePart ++ pythonPart
           ++ (if succeeds w (probeCommand w "gcc") then [] else ["gcc"])
           ++ (if succeeds w (probeCommand w "make") then [] else ["make"])
         /\ (if succeeds w (probeCommand w "node")
             then nodePart = [] \/ nodePart = ["nodejs-upgrade"]
             else nodePart = ["nodejs"])
         /\ (pythonPart = [] \/ pythonPart = ["python3"])
         /\ (succeeds w (probeCommand w "python3") = true -> pythonPart = [])).
Proof.
  unfold checkDependencies.
  apply returns_bind; [apply detectOS_returns | intros osInfo].
  apply returns_bind; [apply returns_emit | intros _].
  apply returns_bind; [apply returns_emit | intros _].
  apply returns_bind; [apply commandExists_returns | intros gitOk].
  apply returns_bind; [returns_all | intros missingCli0].
  apply returns_bind; [apply commandExists_returns | intros claudeOk].
  apply returns_bind; [returns_all | intros missingCli].
  eapply returns_bind_with; [apply commandExists_probe | intros nodeOk ->].
  apply (returns_bind_with _ _
           (fun l => if succeeds w (probeCommand w "node")
                     then l = [] \/ l = ["nodejs-upgrade"]
                     else l = ["nodejs"])).
  { destruct (succeeds w (probeCommand w "node")); returns_all; auto. }
  intros nodePart Hnode.
  eapply returns_bind_with; [apply commandExists_probe | intros python3Ok ->].
  apply (returns_bind_with _ _
           (fun l => exists p, l = nodePart ++ p
                               /\ (p = [] \/ p = ["python3"])
                               /\ (succeeds w (probeCommand w "python3") = true
                                   -> p = []))).
  { destruct (succeeds w (probeCommand w "python3")).
    - returns_all; exists []; rewrite app_nil_r; auto.
    - returns_all;
        first [ exists []; rewrite app_nil_r; split; [reflexivity|];
                split; [now left | discriminate]
              | exists ["python3"]; split; [reflexivity|];
                split; [now right | discriminate] ]. }
  intros l1 (pythonPart & -> & Hp1 & Hp2).
  eapply returns_bind_with; [apply commandExists_probe | intros gccOk ->].
  apply (returns_bind_with _ _
           (fun l => l = (nodePart ++ pythonPart)
                         ++ (if succeeds w (probeCommand w "gcc")
                             then [] else ["gcc"]))).
  { destruct (succeeds w (probeCommand w "gcc")); returns_all.
    now rewrite app_nil_r. }
  intros l2 ->.
  eapply returns_bind_with; [apply commandExists_probe | intros makeOk ->].
  apply (returns_bind_with _ _
           (fun l => l = ((nodePart ++ pythonPart)
                          ++ (if succeeds w (probeCommand w "gcc")
                              then [] else ["gcc"]))
                         ++ (if succeeds w (probeCommand w "make")
                             then [] else ["make"]))).
  { destruct (succeeds w (probeCommand w "make")); returns_all.
    now rewrite app_nil_r. }
  intros l3 ->.
  apply returns_bind; [apply returns_emit | intros _].
  apply returns_ret. cbn [missingWeb]. exists nodePart, pythonPart.
  rewrite <- !app_assoc. auto.
Qed.

(** X21. For the Web IDE list of [checkDependencies(false)] the probes
    decide as well: [nodejs] is listed exactly when the probe of [node]
    fails, [gcc] and [make] exactly when theirs fail; [nodejs-upgrade]
    is only ever listed for a [node] that is there, and [python3] never
    when the probe of [python3] succeeds. *)
Theorem checkDependencies_missingWeb (w : world) (s : state) :
  exists r s',
    checkDependencies w false s = (Ret r, s')
    /\ (In "nodejs" (missingWeb r) <-> succeeds w (probeCommand w "node") = false)
    /\ (In "gcc" (missingWeb r) <-> succeeds w (probeCommand w "gcc") = false)
    /\ (In "make" (missingWeb r) <-> succeeds w (probeCommand w "make") = false)
    /\ (In "nodejs-upgrade" (missingWeb r)
        -> succeeds w (probeCommand w "node") = true)
    /\ (succeeds w (probeCommand w "python3") = true
        -> ~ In "python3" (missingWeb r)).
Proof.
  destruct (checkDependencies_web w s)
    as (r & s' & Hs & nodePart & pythonPart & Hweb & Hnode & Hpy & Hpy3).
  exists r, s'. split; [exact Hs|]. rewrite Hweb. clear Hweb Hs.
  destruct (succeeds w (probeCommand w "node"));
    destruct (succeeds w (probeCommand w "gcc"));
    destruct (succeeds w (probeCommand w "make"));
    destruct (succeeds w (probeCommand w "python3"));
    try (rewrite (Hpy3 eq_refl));
    repeat match goal with
           | H : _ \/ _ |- _ => destruct H
           end; subst; cbn [app In];
    repeat split; try unfold not; intros;
    repeat match goal with
           | H : _ \/ _ |- _ => destruct H
           | H : False |- _ => destruct H
           | H : _ = _ |- _ => discriminate H
           end; auto 10.
Qed.

(** X22. [promptContinue] asks once, after a blank line, and takes the
    reply as a yes exactly when it begins with [y] or [Y]; an empty
    reply, [n] or anything else is a no. *)
Theorem promptContinue_yes_rule (w : world) (s : state) :
  exists b,
    promptContinue w s
    = (Ret b,
       mkState (fs s)
         (trace s ++ [StdoutWrite newline; Ask "Continue anyway? (y/n) "]))
    /\ (b = true
        <-> exists rest,
             answer w = String "y" rest \/ answer w = String "Y" rest).
Proof.
  eexists. split.
  - unfold promptContinue. run_eff. rewrite <- app_assoc. reflexivity.
  - apply yes_iff.
Qed.


End ProbeFacts.

(** ** The version check of the IDE *)

Module UpdateFacts.
Import Effects Node Host Frame Predicates.
Import IdeUpdate InstallSpec IdeFacts.
Local Open Scope list_scope.


End UpdateFacts.

(** ** Spinners *)

Module SpinnerFacts.
Import Effects Node Host Init Fs Frame Conduct Blocks.
Import InitFacts EndFacts CleanupFacts.
Local Open Scope list_scope.
Local Open Scope Z_scope.

Lemma running_app (t u : list event) : running (t ++ u) = running t + running u.
Proof. induction t as [|e t IH]; cbn [running app]; [reflexivity | lia]. Qed.

Lemma spins_ret {A} (a : A) : spins 0 (ret a).
Proof. intros s. exists []. now rewrite app_nil_r. Qed.

Lemma spins_throw {A} (e : error) : spins 0 (@throw A e).
Proof. intros s. exists []. now rewrite app_nil_r. Qed.

Lemma spins_processExit {A} (c : Z) : spins 0 (@processExit A c).
Proof. intros s. exists []. now rewrite app_nil_r. Qed.

Lemma spins_emit (e : event) : spinnerShift e = 0 -> spins 0 (emit e).
Proof. intros He s. exists [e]. cbn. split; [reflexivity | lia]. Qed.

Lemma spins_bind {A B} (d : Z) (m : M A) (k : A -> M B) :
  spins d m -> (forall a, spins 0 (k a)) -> spins d (bind m k).
Proof.
  intros Hm Hk s. destruct (Hm s) as (t & Ht & Hd). unfold bind.
  destruct (m s) as [[a|e|c] s1]; cbn [snd] in *; try (now exists t).
  destruct (Hk a s1) as (u & Hu & Hd'). exists (t ++ u).
  rewrite Hu, Ht, app_assoc, running_app. split; [reflexivity | lia].
Qed.

Lemma spins_tryCatch {A} (m : M A) (h : error -> M A) :
  spins 0 m -> (forall e, spins 0 (h e)) -> spins 0 (tryCatch m h).
Proof.
  intros Hm Hh s. destruct (Hm s) as (t & Ht & Hd). unfold tryCatch.
  destruct (m s) as [[a|e|c] s1]; cbn [snd] in *; try (now exists t).
  destruct (Hh e s1) as (u & Hu & Hd'). exists (t ++ u).
  rewrite Hu, Ht, app_assoc, running_app. split; [reflexivity | lia].
Qed.

(** A spinner around a block that cannot end the process is stopped. *)
Lemma spins_spinner {A B} (msg : string) (m : M A) (k : A -> M B) :
  spins 0 m -> exitsWith (fun _ => False) m -> (forall a, spins 0 (k a)) ->
  spins 0 (bind (output_spinner msg)
                (fun stopSpinner => bind (tryFinally m stopSpinner) k)).
Proof.
  intros Hm Hne Hk s.
  change (bind (output_spinner msg)
               (fun stopSpinner => bind (tryFinally m stopSpinner) k) s)
    with (bind (tryFinally m (emit SpinnerStop)) k
               (mkState (fs s) (trace s ++ [SpinnerStart msg]))).
  set (s0 := mkState (fs s) (trace s ++ [SpinnerStart msg])).
  destruct (Hm s0) as (t & Ht & Hd). unfold bind, tryFinally.
  destruct (m s0) as [[a|e|c] s1] eqn:Hs; cbn [snd] in Ht.
  - unfold emit. destruct (Hk a (mkState (fs s1) (trace s1 ++ [SpinnerStop])))
      as (u & Hu & Hd').
    exists ([SpinnerStart msg] ++ t ++ [SpinnerStop] ++ u).
    rewrite Hu. cbn [trace]. rewrite Ht. unfold s0. cbn [trace].
    rewrite <- !app_assoc. split; [reflexivity|].
    rewrite !running_app. cbn [running spinnerShift]. lia.
  - unfold emit. cbn [snd trace].
    exists ([SpinnerStart msg] ++ t ++ [SpinnerStop]).
    rewrite Ht. unfold s0. cbn [trace]. rewrite <- !app_assoc.
    split; [reflexivity|]. rewrite !running_app. cbn [running spinnerShift]. lia.
  - now destruct (Hne s0 c s1 Hs).
Qed.

Ltac quiet :=
  intros s;
  repeat match goal with
         | |- context [match ?x with _ => _ end] => destruct x; cbn
         end;
  eexists; (split; [reflexivity | reflexivity]).

Lemma spins_access (p : path) : spins 0 (access p).
Proof. unfold access, bind, emit, getFs, ret, throw. cbn. quiet. Qed.

Lemma spins_mkdir (p : path) : spins 0 (mkdir p).
Proof. unfold mkdir, bind, emit, getFs, putFs, ret, throw. cbn. quiet. Qed.

Lemma spins_rm (p : path) : spins 0 (rm p).
Proof. unfold rm, bind, emit, getFs, putFs, ret, throw. cbn. quiet. Qed.

Lemma spins_cp (src dst : path) : spins 0 (cp src dst).
Proof. unfold cp, bind, emit, getFs, putFs, ret, throw. cbn. quiet. Qed.

Lemma spins_readFile (p : path) : spins 0 (readFile p).
Proof. unfold readFile, bind, emit, getFs, ret, throw. cbn. quiet. Qed.

Lemma spins_writeFile (p : path) (content : string) : spins 0 (writeFile p content).
Proof. unfold writeFile, bind, emit, getFs, putFs, ret, throw. cbn. quiet. Qed.

Lemma spins_readdir (p : path) : spins 0 (readdir p).
Proof. unfold readdir, bind, emit, getFs, ret, throw. cbn. quiet. Qed.

Lemma spins_question (w : world) (prompt : string) : spins 0 (question w prompt).
Proof. unfold question, bind, emit, ret. cbn. quiet. Qed.

Lemma spins_execAsync (w : world) (cmd : string) : spins 0 (execAsync w cmd).
Proof.
  intros s. unfold execAsync, bind, emit, ret, throw. cbn.
  destruct (exec w cmd); eexists; (split; [reflexivity | reflexivity]).
Qed.

Lemma spins_gitClone (w : world) (dest : path) : spins 0 (gitClone w dest).
Proof.
  unfold gitClone. apply spins_bind; [apply spins_execAsync | intros _].
  intros s. unfold bind, getFs, putFs, ret. cbn.
  destruct (place dest (cloned w) (fs s)); exists []; now rewrite app_nil_r.
Qed.

Lemma spins_copyDirectoryFuel (fuel : nat) (source target : path) :
  spins 0 (copyDirectoryFuel fuel source target).
Proof.
  revert source target. induction fuel as [|fuel IH]; intros source target;
    cbn [copyDirectoryFuel].
  - apply spins_throw.
  - apply spins_bind; [apply spins_readdir|]. intros entries.
    induction entries as [|[entryName isDir] rest IHe].
    + apply spins_ret.
    + apply spins_bind; [|intros _; exact IHe].
      destruct isDir.
      * apply spins_bind; [apply spins_mkdir | intros _; apply IH].
      * apply spins_cp.
Qed.

Lemma spins_copyDirectory (source target : path) :
  spins 0 (copyDirectory source target).
Proof. intros s. apply spins_copyDirectoryFuel. Qed.

Ltac spins_step :=
  first
    [ apply spins_ret | apply spins_throw | apply spins_processExit
    | apply spins_emit; reflexivity
    | apply spins_access | apply spins_readFile | apply spins_readdir
    | apply spins_mkdir | apply spins_rm | apply spins_cp | apply spins_writeFile
    | apply spins_question | apply spins_execAsync
    | apply spins_gitClone | apply spins_copyDirectory
    | apply spins_tryCatch; [| intros ?]
    | apply spins_bind; [| intros ?]
    | match goal with
      | |- spins _ (if ?b then _ else _) => destruct b
      | |- spins _ (match ?x with _ => _ end) => destruct x
      end ].

Ltac spins_unfold :=
  unfold output_info, output_success, output_warn, output_error, stdout_write.

Lemma spins_listConflicts (conflicts : list string) :
  spins 0 (listConflicts conflicts).
Proof.
  induction conflicts as [|c cs IH]; cbn [listConflicts]; spins_unfold.
  - apply spins_ret.
  - apply spins_bind; [now apply spins_emit | intros _; exact IH].
Qed.

Lemma spins_checkConflictsFrom (target : path) (folders conflicts : list string) :
  spins 0 (checkConflictsFrom target folders conflicts).
Proof.
  revert conflicts. induction folders as [|f rest IH]; intros conflicts;
    cbn [checkConflictsFrom].
  - apply spins_ret.
  - cbv zeta. apply spins_bind; [|intros c'; apply IH]. repeat spins_step.
Qed.

Lemma spins_conflictGate (w : world) (conflicts : list string) :
  spins 0 (conflictGate w conflicts).
Proof.
  unfold conflictGate. spins_unfold.
  repeat first [ apply spins_listConflicts | spins_step ].
Qed.

Lemma spins_copyDevFlowFiles (temp target : path) :
  spins 0 (copyDevFlowFiles temp target).
Proof. unfold copyDevFlowFiles. cbv zeta. spins_unfold. repeat spins_step. Qed.

Lemma spins_mergeGitignore (temp target : path) :
  spins 0 (mergeGitignore temp target).
Proof. unfold mergeGitignore. cbv zeta. spins_unfold. repeat spins_step. Qed.

Lemma no_exit_guarded_rm (p : path) :
  exitsWith (fun _ : Z => False) (tryCatch (rm p) (fun _ => ret tt)).
Proof.
  apply exitsWith_tryCatch; [apply exitsWith_rm | intros e; apply exitsWith_ret].
Qed.

Lemma spins_cleanup (temp : path) : spins 0 (cleanup temp).
Proof.
  unfold cleanup. apply spins_spinner.
  - repeat spins_step.
  - apply no_exit_guarded_rm.
  - intros _. spins_unfold. now apply spins_emit.
Qed.

Lemma spins_tryFinally {A} (m : M A) (f : M unit) :
  spins 0 m -> spins 0 f -> spins 0 (tryFinally m f).
Proof.
  intros Hm Hf s. destruct (Hm s) as (t & Ht & Hd). unfold tryFinally.
  destruct (m s) as [[a|e|c] s1]; cbn [snd] in *; try (now exists t);
    destruct (Hf s1) as (u & Hu & Hd');
    destruct (f s1) as [[[]|e'|c'] s2]; cbn [snd] in *;
    exists (t ++ u); rewrite Hu, Ht, app_assoc, running_app;
    (split; [reflexivity | lia]).
Qed.

Lemma spins_initTry (w : world) (folder : option string) :
  spins 0 (initTry w folder).
Proof.
  unfold initTry. cbv zeta. apply spins_spinner.
  - apply spins_gitClone.
  - apply exitsWith_gitClone.
  - intros _. spins_unfold.
    apply spins_bind; [now apply spins_emit | intros _].
    apply spins_bind; [apply spins_checkConflictsFrom | intros conflicts].
    apply spins_bind; [apply spins_conflictGate | intros _].
    apply spins_spinner.
    + apply spins_copyDevFlowFiles.
    + apply exitsWith_copyDevFlowFiles.
    + intros _. apply spins_mergeGitignore.
Qed.

Lemma spins_initializeProject (w : world) (folder : option string) :
  spins 0 (initializeProject w folder).
Proof.
  rewrite initializeProject_blocks.
  apply spins_bind; [apply spins_mkdir | intros _].
  apply spins_bind; [|intros _; now apply spins_emit].
  apply spins_tryFinally; [apply spins_initTry | apply spins_cleanup].
Qed.

Lemma spins_setupTry (w : world) (root web : path) (replace : bool) :
  spins 0 (setupTry w root web replace).
Proof.
  unfold setupTry. cbv zeta. apply spins_spinner.
  - apply spins_gitClone.
  - apply exitsWith_gitClone.
  - intros _. spins_unfold.
    apply spins_bind; [now apply spins_emit | intros _].
    apply spins_bind.
    + destruct replace; [|apply spins_ret].
      apply spins_spinner; [apply spins_rm | apply exitsWith_rm |].
      intros _. now apply spins_emit.
    + intros _. apply spins_spinner.
      * apply spins_bind; [apply spins_mkdir | intros _; apply spins_copyDirectory].
      * apply exitsWith_bind; [apply exitsWith_mkdir|].
        intros _. apply exitsWith_copyDirectory.
      * intros _. now apply spins_emit.
Qed.

(** X25. No spinner is left running: however [initializeProject] and
    [setupWebFolder] end (by returning, by an error, or for the former
    by [process.exit] at the conflict prompt) every spinner they
    started has been stopped. *)
Theorem spinners_are_stopped (w : world) :
  (forall folder s,
      exists t,
        trace (snd (initializeProject w folder s)) = trace s ++ t
        /\ running t = 0)
  /\ (forall root web replace s,
         exists t,
           trace (snd (IdeUpdate.setupWebFolder w root web replace s)) = trace s ++ t
           /\ running t = 0).
Proof.
  split.
  - intros folder. apply spins_initializeProject.
  - intros root web replace. rewrite setupWebFolder_blocks.
    apply spins_tryFinally; [apply spins_setupTry | apply spins_cleanup].
Qed.

End SpinnerFacts.

(** ** What a completed IDE installation holds *)

Module InstallFacts.
Import Effects Node Host Init Fs Frame FsFacts FrameFacts KeepFacts WfFacts Blocks.
Import Progress InitFacts CleanupFacts ScopeFacts DocsFacts CopyFacts SuccessFacts.
Local Open Scope list_scope.

Lemma triple_bind {A B} (Pre Mid Post : node -> Prop) (m : M A) (k : A -> M B) :
  triple Pre m Mid -> (forall a, triple Mid (k a) Post) ->
  triple Pre (bind m k) Post.
Proof.
  intros Hm Hk s b s' Hpre H. unfold bind in H.
  destruct (m s) as [[a|e|c] s1] eqn:Hs; try discriminate H.
  exact (Hk a s1 b s' (Hm s a s1 Hpre Hs) H).
Qed.

Lemma triple_tryFinally {A} (Pre Mid Post : node -> Prop) (m : M A) (f : M unit) :
  triple Pre m Mid -> triple Mid f Post -> triple Pre (tryFinally m f) Post.
Proof.
  intros Hm Hf s a s' Hpre H. unfold tryFinally in H.
  destruct (m s) as [[a0|e|c] s1] eqn:Hs; try discriminate H;
    destruct (f s1) as [[[]|e'|c'] s2] eqn:Hf1; try discriminate H.
  injection H as _ <-. exact (Hf s1 tt s2 (Hm s a0 s1 Hpre Hs) Hf1).
Qed.

Lemma triple_spinner {B} (Pre Post : node -> Prop) (msg : string)
      (k : M unit -> M B) :
  triple Pre (k (emit SpinnerStop)) Post ->
  triple Pre (bind (output_spinner msg) k) Post.
Proof.
  intros Hk s.
  change (bind (output_spinner msg) k s)
    with (k (emit SpinnerStop) (mkState (fs s) (trace s ++ [SpinnerStart msg]))).
  exact (Hk (mkState (fs s) (trace s ++ [SpinnerStart msg]))).
Qed.

Lemma triple_stays {A} (P : node -> Prop) (m : M A) :
  keeps (stays P) m -> triple P m P.
Proof. intros H s a s' Hp Hs. specialize (H s). rewrite Hs in H. now apply H. Qed.

Lemma triple_emit (P : node -> Prop) (e : event) : triple P (emit e) P.
Proof. intros s a s' Hp [= _ <-]. exact Hp. Qed.

Lemma place_None_lookup (p r : path) (v n : node) :
  place p v n = None -> lookup (p ++ r) n = None.
Proof.
  revert n. induction p as [|x p IH]; intros n; simpl; [discriminate|].
  destruct n as [c|es]; [reflexivity|].
  unfold childOr. destruct (lookupEntry x es) as [d|].
  - destruct (place p v d) eqn:Hp; [discriminate|]. intros _. now apply IH.
  - reflexivity.
Qed.

Lemma dot_d_diverges_web (p r : path) (rest : string) :
  diverges (join p (String "." (String "d" rest))) (p ++ "web" :: r) = true.
Proof.
  unfold join, segments.
  rewrite split_head by reflexivity. rewrite split_head by reflexivity.
  cbn [filter hd String.eqb Ascii.eqb Bool.eqb negb orb].
  rewrite diverges_app. reflexivity.
Qed.

Section Install.
Variable w : world.
Variable root : path.
Hypothesis Hcloned : wellFormed (cloned w) = true.

Lemma temp_diverges_web (r : path) :
  diverges (ideTempOf w root) (webOf root ++ r) = true.
Proof.
  unfold webOf, ideTempOf. rewrite <- app_assoc. apply dot_d_diverges_web.
Qed.

Lemma web_diverges_src (r : path) :
  diverges (webOf root) (webSourceOf w root ++ r) = true.
Proof.
  rewrite diverges_sym. unfold webSourceOf. rewrite <- app_assoc.
  apply diverges_extend. pose proof (temp_diverges_web []) as H.
  now rewrite app_nil_r in H.
Qed.

Lemma cloneDone_outside_web (n n' : node) :
  wfKept n n' -> outside (webOf root) n n' -> stays (cloneDone w root) n n'.
Proof.
  intros Hwf Hout [Hw Hc]. split; [now apply Hwf|].
  destruct Hc as [Hc|Hc].
  - left. intros r. rewrite (Hout _ (web_diverges_src r)). apply Hc.
  - right. pose proof (Hout _ (web_diverges_src [])) as H.
    rewrite app_nil_r in H. now rewrite H.
Qed.

Lemma gitClone_triple :
  triple (fun n => wellFormed n = true) (gitClone w (ideTempOf w root))
         (cloneDone w root).
Proof.
  intros s a s' Hwf H.
  unfold gitClone, execAsync, bind, emit, getFs, putFs, ret, throw in H.
  cbn [fs trace] in H.
  destruct (exec w _); [discriminate H|]. cbn [fs trace] in H.
  destruct (place (ideTempOf w root) (cloned w) (fs s)) as [n'|] eqn:Hp;
    injection H as _ <-; cbn [fs]; split.
  - exact (wellFormed_place _ _ _ _ Hcloned Hp Hwf).
  - left. intros r. unfold webSourceOf. rewrite <- app_assoc, lookup_app.
    now rewrite (place_lookup _ _ _ _ Hp).
  - exact Hwf.
  - right. unfold webSourceOf. exact (place_None_lookup _ _ _ _ Hp).
Qed.

Lemma setupTry_triple (replace : bool) :
  triple (fun n => wellFormed n = true) (setupTry w root (webOf root) replace)
         (installedFrom (cloned w) ["web"] (webOf root)).
Proof.
  unfold setupTry. cbv zeta.
  change (join (ideTempOf w root) "web") with (webSourceOf w root).
  apply triple_spinner.
  apply (triple_bind _ (cloneDone w root)).
  { apply (triple_tryFinally _ (cloneDone w root)); [apply gitClone_triple|].
    apply triple_emit. }
  intros _. apply (triple_bind _ (cloneDone w root)); [apply triple_emit|].
  intros _. apply (triple_bind _ (cloneDone w root)).
  { destruct replace; [|intros s a s' Hp [= _ <-]; exact Hp].
    apply triple_spinner.
    apply (triple_bind _ (cloneDone w root)); [|intros _; apply triple_emit].
    apply (triple_tryFinally _ (cloneDone w root)); [|apply triple_emit].
    apply triple_stays. apply keeps_rm.
    intros n. apply cloneDone_outside_web.
    - intros Hw. now apply wellFormed_remove.
    - apply under_rm, under_self. }
  intros _. apply triple_spinner.
  apply (triple_bind _ (installedFrom (cloned w) ["web"] (webOf root)));
    [|intros _; apply triple_emit].
  apply (triple_tryFinally _ (installedFrom (cloned w) ["web"] (webOf root)));
    [|apply triple_emit].
  apply (triple_bind _ (cloneDone w root)).
  { apply triple_stays. apply keeps_mkdir; [intros n H; exact H|].
    intros n n' Hm. apply cloneDone_outside_web.
    - intros Hw. exact (wellFormed_mkdirp _ _ _ Hm Hw).
    - exact (under_mkdir (webOf root) (webOf root) (under_self (webOf root)) n n' Hm). }
  intros _ s a s' [Hwf Hc] Hrun. destruct a.
  destruct Hc as [Hc|Hc].
  - assert (Hdiv : diverges (webSourceOf w root) (webOf root) = true).
    { rewrite diverges_sym. pose proof (web_diverges_src []) as H.
      now rewrite app_nil_r in H. }
    pose proof (copyDirectory_spec (webSourceOf w root) (webOf root) s Hdiv Hwf) as Hcopy.
    rewrite Hrun in Hcopy. cbn [Conduct.copyPost] in Hcopy.
    intros r c Hfile. apply Hcopy. now rewrite Hc.
  - exfalso. unfold copyDirectory in Hrun. cbn [copyDirectoryFuel] in Hrun.
    unfold bind at 1, readdir in Hrun.
    unfold bind, emit, getFs, ret, throw in Hrun. cbn [fs trace] in Hrun.
    rewrite Hc in Hrun. discriminate Hrun.
Qed.

Lemma cleanup_triple :
  triple (installedFrom (cloned w) ["web"] (webOf root)) (cleanup (ideTempOf w root))
         (installedFrom (cloned w) ["web"] (webOf root)).
Proof.
  intros s a s' Hpre Hrun. destruct (cleanup_run (ideTempOf w root) s) as [t Ht].
  rewrite Ht in Hrun. injection Hrun as _ <-. cbn [fs].
  intros r c Hfile. rewrite lookup_remove_diverges; [now apply Hpre|].
  apply temp_diverges_web.
Qed.

Lemma setupWebFolder_triple (replace : bool) :
  triple (fun n => wellFormed n = true)
         (IdeUpdate.setupWebFolder w root (webOf root) replace)
         (installedFrom (cloned w) ["web"] (webOf root)).
Proof.
  rewrite setupWebFolder_blocks.
  apply (triple_tryFinally _ (installedFrom (cloned w) ["web"] (webOf root)));
    [apply setupTry_triple | apply cleanup_triple].
Qed.

End Install.

(** X26. A completed [setupWebFolder] has installed the web folder: when
    it returns, every regular file of the repository's [web] directory,
    at any depth, is below [<package root>/web] with the same content;
    the temp workspace it was copied from is gone by then. *)
Theorem setupWebFolder_installs_web
        (w : world) (root : path) (replace : bool) (s s' : state)
        (r : path) (c : string) :
  wellFormed (fs s) = true -> wellFormed (cloned w) = true ->
  IdeUpdate.setupWebFolder w root (join root "web") replace s = (Ret tt, s') ->
  lookup ("web" :: r) (cloned w) = Some (File c) ->
  lookup (root ++ "web" :: r) (fs s') = Some (File c).
Proof.
  intros Hwf Hcl Hrun Hfile.
  pose proof (setupWebFolder_triple w root Hcl replace s tt s' Hwf Hrun r c Hfile) as H.
  unfold webOf in H. now rewrite <- app_assoc in H.
Qed.

Lemma setupWebFolder_installs_web_witness :
  lookup (["opt"; "devflow"] ++ "web" :: ["package.json"])
    (fs (snd (IdeUpdate.setupWebFolder MoreExamples.staleHost ["opt"; "devflow"]
                (join ["opt"; "devflow"] "web") true
                (mkState MoreExamples.installedBeside []))))
  = Some (File "{ version: 2.0.0 }").
Proof.
  apply (setupWebFolder_installs_web MoreExamples.staleHost ["opt"; "devflow"] true
           (mkState MoreExamples.installedBeside [])
           (snd (IdeUpdate.setupWebFolder MoreExamples.staleHost ["opt"; "devflow"]
                   (join ["opt"; "devflow"] "web") true
                   (mkState MoreExamples.installedBeside [])))
           ["package.json"] "{ version: 2.0.0 }");
    reflexivity.
Defined.

End InstallFacts.
